(** * Dictionary lookup, generative fallback, audio resolution and import

    A shallow embedding of the dictionary core of the English learning API:
    [DictionaryService] (dictionary.service.ts) and [AudioService]
    (audio.service.ts), together with the TypeORM entities they read and
    write.

    Modelling conventions.
    - JavaScript strings are [string]s; [toLowerCase] and [trim] act on the
      ASCII range (other code units are left alone).
    - Every repository is an in-memory table: a list of rows in insertion
      order plus the next value of its id sequence.  An INSERT is checked
      against the columns the entity declares (lengths, integer range, the
      unique word) and may be rejected; queries and updates are taken to
      succeed, and connection failures are not part of the model.
    - The two HTTP collaborators (the completion endpoint and the phonetic
      endpoint) are oracles indexed by the number of calls already made, so
      that two calls with the same argument may answer differently.  Each
      call is recorded in the world.
    - [async] functions are sequenced in program order; [Promise.all] over
      the pronunciations issues its requests in list order.
    - Logger calls have no effect on results and are left out. *)

From Stdlib Require Import ZArith QArith Ascii List Sorted Permutation.
From stdpp Require Import base list strings gmap pretty.

Local Open Scope Z_scope.
Local Set Warnings "-register-all".

(** ** String.prototype *)

Module JSString.

Definition isUpper (c : ascii) : bool :=
  let n := N_of_ascii c in ((65 <=? n) && (n <=? 90))%N.

Definition lowerChar (c : ascii) : ascii :=
  if isUpper c then ascii_of_N (N_of_ascii c + 32) else c.

Fixpoint toLowerCase (s : string) : string :=
  match s with
  | EmptyString => EmptyString
  | String c s' => String (lowerChar c) (toLowerCase s')
  end.

(** White space removed by [trim]: TAB, LF, VT, FF, CR and SPACE. *)
Definition isSpace (c : ascii) : bool :=
  let n := N_of_ascii c in (((9 <=? n) && (n <=? 13)) || (n =? 32))%N.

Fixpoint trimStart (s : string) : string :=
  match s with
  | EmptyString => EmptyString
  | String c s' => if isSpace c then trimStart s' else s
  end.

Fixpoint trimEnd (s : string) : string :=
  match s with
  | EmptyString => EmptyString
  | String c s' =>
      match trimEnd s' with
      | EmptyString => if isSpace c then EmptyString else String c EmptyString
      | t => String c t
      end
  end.

Definition trim (s : string) : string := trimEnd (trimStart s).

Fixpoint startsWith (s prefix : string) : bool :=
  match prefix, s with
  | EmptyString, _ => true
  | String p prefix', String c s' =>
      if decide (p = c) then startsWith s' prefix' else false
  | String _ _, EmptyString => false
  end.

(** [s.includes(needle)] *)
Fixpoint includes (s needle : string) : bool :=
  startsWith s needle ||
  match s with
  | EmptyString => false
  | String _ s' => includes s' needle
  end.

(** Truthiness of a string value: the empty string is falsy. *)
Definition truthy (s : string) : bool :=
  match s with EmptyString => false | String _ _ => true end.

(** Truthiness of a possibly [undefined]/[null] string. *)
Definition truthyOpt (o : option string) : bool :=
  match o with Some s => truthy s | None => false end.

(** [a || b] on possibly missing strings. *)
Definition orElse (a b : option string) : option string :=
  if truthyOpt a then a else b.

(** [a || d] where [d] is a string that is always there. *)
Definition orDefault (a : option string) (d : string) : string :=
  match a with
  | Some s => if truthy s then s else d
  | None => d
  end.

End JSString.

(** ** The regular expressions the service uses

    Only literals and the greedy [[\s\S]*] occur.  The matcher below is the
    usual backtracking one: the star first tries to take one more character
    and gives characters back until the rest of the pattern matches. *)

Module RegExp.

Inductive atom : Type :=
| Lit (c : ascii)
| AnyStar.

Definition t : Type := list atom.

(** Match [re] at the start of the string; the result is the matched text. *)
Fixpoint matchHere (re : t) : string → option string :=
  match re with
  | [] => fun _ => Some EmptyString
  | Lit c :: re' =>
      fun s =>
        match s with
        | EmptyString => None
        | String d s' =>
            if decide (c = d) then String d <$> matchHere re' s' else None
        end
  | AnyStar :: re' =>
      fix star (s : string) : option string :=
        match s with
        | EmptyString => matchHere re' EmptyString
        | String d s' =>
            match star s' with
            | Some m => Some (String d m)
            | None => matchHere re' s
            end
        end
  end.

(** [s.match(re)] without the global flag: the leftmost match, element 0. *)
Fixpoint match_ (re : t) (s : string) : option string :=
  match matchHere re s with
  | Some m => Some m
  | None =>
      match s with
      | EmptyString => None
      | String _ s' => match_ re s'
      end
  end.

(** [/\{[\s\S]*\}/] *)
Definition jsonObject : t := [Lit "{"; AnyStar; Lit "}"].

End RegExp.

(** ** Columns

    What PostgreSQL does with a value on [INSERT], for the column types
    the entities declare.  A [varchar(n)] takes a longer value only if all
    that exceeds [n] characters is spaces, which it cuts off; an [integer]
    takes the 32-bit range; no text may hold a zero byte.  Lengths are
    counted in the characters of the model's strings, which is exact for
    ASCII text. *)

Module Column.

Inductive Rejection : Type :=
| TooLong (n : nat)
| OutOfRange (z : Z)
| InvalidByte
| NotUnique.

Inductive Stored (A : Type) : Type :=
| Accepted (a : A)
| Rejected (why : Rejection).
Arguments Accepted {A} _.
Arguments Rejected {A} _.

Definition andThen {A B} (x : Stored A) (k : A → Stored B) : Stored B :=
  match x with
  | Accepted a => k a
  | Rejected why => Rejected why
  end.

Fixpoint hasNul (s : string) : bool :=
  match s with
  | EmptyString => false
  | String c s' => bool_decide (c = zero) || hasNul s'
  end.

Fixpoint allSpaces (s : string) : bool :=
  match s with
  | EmptyString => true
  | String c s' => bool_decide (c = " "%char) && allSpaces s'
  end.

(** The first [n] characters, and the rest. *)
Fixpoint cut (n : nat) (s : string) : string * string :=
  match n, s with
  | S n', String c s' => let r := cut n' s' in (String c r.1, r.2)
  | _, _ => (EmptyString, s)
  end.

(** [text] *)
Definition text (s : string) : Stored string :=
  if hasNul s then Rejected InvalidByte else Accepted s.

(** [varchar(n)] *)
Definition varchar (n : nat) (s : string) : Stored string :=
  if hasNul s then Rejected InvalidByte
  else if (String.length s <=? n)%nat then Accepted s
  else if allSpaces (cut n s).2 then Accepted (cut n s).1
  else Rejected (TooLong n).

(** [integer] *)
Definition integer (z : Z) : Stored Z :=
  if bool_decide (- 2 ^ 31 ≤ z < 2 ^ 31) then Accepted z else Rejected (OutOfRange z).

(** A nullable column: [undefined] and [null] are stored as NULL. *)
Definition nullable {A} (column : A → Stored A) (o : option A) : Stored (option A) :=
  match o with
  | Some a => andThen (column a) (fun a' => Accepted (Some a'))
  | None => Accepted None
  end.

(** An array column. *)
Fixpoint array {A} (column : A → Stored A) (l : list A) : Stored (list A) :=
  match l with
  | [] => Accepted []
  | a :: l' =>
      andThen (column a) (fun a' =>
      andThen (array column l') (fun l'' => Accepted (a' :: l'')))
  end.

(** The values a column stores as they are. *)
Definition fitsText (s : string) : bool := negb (hasNul s).

Definition fitsVarchar (n : nat) (s : string) : bool :=
  negb (hasNul s) && (String.length s <=? n)%nat.

Definition fitsInteger (z : Z) : bool := bool_decide (- 2 ^ 31 ≤ z < 2 ^ 31).

Definition fitsNullable {A} (fits : A → bool) (o : option A) : bool :=
  match o with Some a => fits a | None => true end.

End Column.

(** ** Entities (one module per TypeORM entity class)

    [stored] is the row as the table's columns store it, or why the
    [INSERT] is rejected; ids and foreign keys are [bigint]s a sequence
    handed out and are not checked. *)

Module WordEntity.
Record t : Type := mk {
  id : Z;
  word : string;
  language : string;
  wordNormalized : string;
  frequencyRank : option Z;
  partOfSpeech : list string
}.

Definition stored (r : t) : Column.Stored t :=
  Column.andThen (Column.varchar 255 (word r)) (fun word_ =>
  Column.andThen (Column.varchar 10 (language r)) (fun language_ =>
  Column.andThen (Column.varchar 255 (wordNormalized r)) (fun wordNormalized_ =>
  Column.andThen (Column.nullable Column.integer (frequencyRank r)) (fun frequencyRank_ =>
  Column.andThen (Column.array Column.text (partOfSpeech r)) (fun partOfSpeech_ =>
  Column.Accepted
    (mk (id r) word_ language_ wordNormalized_ frequencyRank_ partOfSpeech_)))))).

(** [word] is declared [unique]. *)
Definition onInsert (rows : list t) (r : t) : Column.Stored t :=
  Column.andThen (stored r) (fun r' =>
  if existsb (fun x => bool_decide (word x = word r')) rows
  then Column.Rejected Column.NotUnique
  else Column.Accepted r').
End WordEntity.

Module PronunciationEntity.
Record t : Type := mk {
  id : Z;
  wordId : Z;
  accent : string;
  ipa : string;
  audioUrl : option string
}.
Definition setAudioUrl (u : option string) (p : t) : t :=
  mk (id p) (wordId p) (accent p) (ipa p) u.

Definition stored (r : t) : Column.Stored t :=
  Column.andThen (Column.varchar 10 (accent r)) (fun accent_ =>
  Column.andThen (Column.text (ipa r)) (fun ipa_ =>
  Column.andThen (Column.nullable Column.text (audioUrl r)) (fun audioUrl_ =>
  Column.Accepted (mk (id r) (wordId r) accent_ ipa_ audioUrl_)))).

Definition onInsert (rows : list t) (r : t) : Column.Stored t := stored r.
End PronunciationEntity.

Module DefinitionEntity.
Record t : Type := mk {
  id : Z;
  wordId : Z;
  partOfSpeech : string;
  definitionEn : string;
  definitionVi : string;
  level : string;
  definitionOrder : Z
}.

Definition stored (r : t) : Column.Stored t :=
  Column.andThen (Column.varchar 50 (partOfSpeech r)) (fun partOfSpeech_ =>
  Column.andThen (Column.text (definitionEn r)) (fun definitionEn_ =>
  Column.andThen (Column.text (definitionVi r)) (fun definitionVi_ =>
  Column.andThen (Column.varchar 20 (level r)) (fun level_ =>
  Column.andThen (Column.integer (definitionOrder r)) (fun definitionOrder_ =>
  Column.Accepted
    (mk (id r) (wordId r) partOfSpeech_ definitionEn_ definitionVi_ level_
       definitionOrder_)))))).

Definition onInsert (rows : list t) (r : t) : Column.Stored t := stored r.
End DefinitionEntity.

Module ExampleEntity.
Record t : Type := mk {
  id : Z;
  definitionId : Z;
  exampleEn : string;
  exampleVi : string
}.

Definition stored (r : t) : Column.Stored t :=
  Column.andThen (Column.text (exampleEn r)) (fun exampleEn_ =>
  Column.andThen (Column.text (exampleVi r)) (fun exampleVi_ =>
  Column.Accepted (mk (id r) (definitionId r) exampleEn_ exampleVi_))).

Definition onInsert (rows : list t) (r : t) : Column.Stored t := stored r.
End ExampleEntity.

Module WordFormEntity.
Record t : Type := mk {
  id : Z;
  wordId : Z;
  formType : string;
  formWord : string
}.

Definition stored (r : t) : Column.Stored t :=
  Column.andThen (Column.varchar 50 (formType r)) (fun formType_ =>
  Column.andThen (Column.varchar 255 (formWord r)) (fun formWord_ =>
  Column.Accepted (mk (id r) (wordId r) formType_ formWord_))).

Definition onInsert (rows : list t) (r : t) : Column.Stored t := stored r.
End WordFormEntity.

Module SynonymEntity.
Record t : Type := mk {
  id : Z;
  wordId : Z;
  synonymWord : string
}.

Definition stored (r : t) : Column.Stored t :=
  Column.andThen (Column.varchar 255 (synonymWord r)) (fun synonymWord_ =>
  Column.Accepted (mk (id r) (wordId r) synonymWord_)).

Definition onInsert (rows : list t) (r : t) : Column.Stored t := stored r.
End SynonymEntity.

(** ** Repositories *)

Module Table.

Record t (A : Type) : Type := mk { rows : list A; nextId : Z }.
Arguments mk {A} _ _.
Arguments rows {A} _.
Arguments nextId {A} _.

Definition empty {A} : t A := mk [] 1.

(** [repository.findOne({ where })]: the first row that satisfies it. *)
Definition findOne {A} (where_ : A → bool) (tb : t A) : option A :=
  List.find where_ (rows tb).

(** [repository.find({ where })] *)
Definition find {A} (where_ : A → bool) (tb : t A) : list A :=
  List.filter where_ (rows tb).

(** The table with one more row, stored as it is under the id the
    sequence hands out; the row is returned. *)
Definition append {A} (row : Z → A) (tb : t A) : A * t A :=
  let r := row (nextId tb) in (r, mk (rows tb ++ [r]) (nextId tb + 1)).

(** [repository.save(row)] of a row without id.  The table checks the row
    ([onInsert]: its columns and constraints).  An accepted row is appended as
    the columns store it, under the id the sequence hands out, and the
    entity is handed back with that id and with the values as given.  A
    rejected row leaves the rows as they are.  (Whether a rejected
    [INSERT] uses up a value of the sequence depends on where the database
    rejects it; here it does not.) *)
Definition save {A} (onInsert : list A → A → Column.Stored A) (row : Z → A) (tb : t A)
    : Column.Stored (A * t A) :=
  let r := row (nextId tb) in
  Column.andThen (onInsert (rows tb) r) (fun stored =>
  Column.Accepted (r, mk (rows tb ++ [stored]) (nextId tb + 1))).

(** [repository.update(id, partial)] *)
Definition update {A} (idOf : A → Z) (id : Z) (f : A → A) (tb : t A) : t A :=
  mk (List.map (fun r => if decide (idOf r = id) then f r else r) (rows tb))
     (nextId tb).

End Table.

Record Store : Type := mkStore {
  wordRepository : Table.t WordEntity.t;
  pronunciationRepository : Table.t PronunciationEntity.t;
  definitionRepository : Table.t DefinitionEntity.t;
  exampleRepository : Table.t ExampleEntity.t;
  wordFormRepository : Table.t WordFormEntity.t;
  synonymRepository : Table.t SynonymEntity.t
}.

Definition emptyStore : Store :=
  mkStore Table.empty Table.empty Table.empty Table.empty Table.empty Table.empty.

Definition setWords (x : Table.t WordEntity.t) (s : Store) : Store :=
  mkStore x (pronunciationRepository s) (definitionRepository s)
    (exampleRepository s) (wordFormRepository s) (synonymRepository s).
Definition setPronunciations (x : Table.t PronunciationEntity.t) (s : Store) : Store :=
  mkStore (wordRepository s) x (definitionRepository s)
    (exampleRepository s) (wordFormRepository s) (synonymRepository s).
Definition setDefinitions (x : Table.t DefinitionEntity.t) (s : Store) : Store :=
  mkStore (wordRepository s) (pronunciationRepository s) x
    (exampleRepository s) (wordFormRepository s) (synonymRepository s).
Definition setExamples (x : Table.t ExampleEntity.t) (s : Store) : Store :=
  mkStore (wordRepository s) (pronunciationRepository s) (definitionRepository s)
    x (wordFormRepository s) (synonymRepository s).
Definition setWordForms (x : Table.t WordFormEntity.t) (s : Store) : Store :=
  mkStore (wordRepository s) (pronunciationRepository s) (definitionRepository s)
    (exampleRepository s) x (synonymRepository s).
Definition setSynonyms (x : Table.t SynonymEntity.t) (s : Store) : Store :=
  mkStore (wordRepository s) (pronunciationRepository s) (definitionRepository s)
    (exampleRepository s) (wordFormRepository s) x.

(** ** HTTP collaborators *)

Record VLLMCompletionRequest : Type := mkRequest {
  model : string;
  prompt : string;
  temperature : Q;
  max_tokens : Z;
  stop : list string
}.

Record VLLMChoice : Type := mkChoice { text : string; finish_reason : string }.

Record VLLMCompletionResponse : Type := mkResponse { choices : list VLLMChoice }.

Record Phonetic : Type := mkPhonetic {
  phoneticText : option string;
  audio : option string
}.

Record FreeDictionaryApiResponse : Type := mkFreeDictionary {
  fdWord : string;
  phonetics : list Phonetic
}.

(** What the awaited request gives: the response body, or a rejection
    (network error, non-2xx status, timeout) with its message. *)
Inductive HttpOutcome (A : Type) : Type :=
| HttpOk (data : A)
| HttpFail (message : string).
Arguments HttpOk {A} _.
Arguments HttpFail {A} _.

(** ** The world: the store and the record of outgoing calls *)

Record World : Type := mkWorld {
  db : Store;
  vllmCalls : list VLLMCompletionRequest;
  audioCalls : list string
}.

Definition emptyWorld : World := mkWorld emptyStore [] [].

(** The world after one more request for [word] went to the phonetic
    endpoint. *)
Definition audioRequested (word : string) (w : World) : World :=
  mkWorld (db w) (vllmCalls w) (audioCalls w ++ [word]).

(** The world after one more request went to the completion endpoint. *)
Definition completionRequested (request : VLLMCompletionRequest) (w : World) : World :=
  mkWorld (db w) (vllmCalls w ++ [request]) (audioCalls w).

(** ** Exceptions and the service monad *)

Inductive Exn : Type :=
| HttpException (message : string) (status : Z)
| JsError (message : string).

Definition messageOf (e : Exn) : string :=
  match e with HttpException m _ => m | JsError m => m end.

Definition isHttpException (e : Exn) : bool :=
  match e with HttpException _ _ => true | JsError _ => false end.

Definition INTERNAL_SERVER_ERROR : Z := 500.

Inductive Result (A : Type) : Type :=
| Ok (a : A)
| Throw (e : Exn).
Arguments Ok {A} _.
Arguments Throw {A} _.

Definition M (A : Type) : Type := World → Result A * World.

Definition ret {A} (a : A) : M A := fun w => (Ok a, w).

Definition bind {A B} (m : M A) (k : A → M B) : M B :=
  fun w =>
    match m w with
    | (Ok a, w') => k a w'
    | (Throw e, w') => (Throw e, w')
    end.

Definition throw {A} (e : Exn) : M A := fun w => (Throw e, w).

(** [try { body } catch (error) { handler }]: effects of the body stay. *)
Definition tryCatch {A} (body : M A) (handler : Exn → M A) : M A :=
  fun w =>
    match body w with
    | (Ok a, w') => (Ok a, w')
    | (Throw e, w') => handler e w'
    end.

Definition getStore : M Store := fun w => (Ok (db w), w).

Definition putStore (s : Store) : M unit :=
  fun w => (Ok tt, mkWorld s (vllmCalls w) (audioCalls w)).

Global Instance M_ret : MRet M := @ret.
Global Instance M_bind : MBind M := fun A B k m => bind m k.

(** [for (const x of xs) { body }] *)
Fixpoint forOf {A} (xs : list A) (body : A → M unit) : M unit :=
  match xs with
  | [] => ret tt
  | x :: xs' => body x;; forOf xs' body
  end.

(** [Promise.all(xs.map(async (x) => f x))], requests issued in list order. *)
Fixpoint mapAll {A B} (xs : list A) (f : A → M B) : M (list B) :=
  match xs with
  | [] => ret []
  | x :: xs' => y ← f x; ys ← mapAll xs' f; ret (y :: ys)
  end.

(** ** Array.prototype.sort

    The sort is stable; for a consistent comparator its result is the one
    of a stable insertion sort, which is how it is modelled.  An element
    moves behind those the comparator puts strictly before it. *)

Module JSArray.

Fixpoint insert {A} (compareFn : A → A → Z) (x : A) (l : list A) : list A :=
  match l with
  | [] => [x]
  | y :: l' =>
      if decide (0 < compareFn x y) then y :: insert compareFn x l'
      else x :: y :: l'
  end.

Definition sort {A} (compareFn : A → A → Z) (l : list A) : list A :=
  List.fold_right (insert compareFn) [] l.

(** The comparator [(a, b) => key(a) - key(b)] and the order it sorts
    into. *)
Definition byKey {A} (key : A → Z) (a b : A) : Z := key a - key b.

Definition ascendingBy {A} (key : A → Z) (a b : A) : Prop := key a ≤ key b.

End JSArray.

(** ** AudioService *)

Module AudioService.

(** [{ us?: string; uk?: string }] *)
Record AudioUrls : Type := mkUrls { us : option string; uk : option string }.

Definition noUrls : AudioUrls := mkUrls None None.

Inductive Bucket : Type := US | UK.

(** The two substring tests of the classification. *)
Definition hintsUS (audioUrl : string) : bool :=
  JSString.includes audioUrl "-us.mp3" || JSString.includes audioUrl "/us/".

Definition hintsUK (audioUrl : string) : bool :=
  JSString.includes audioUrl "-uk.mp3" || JSString.includes audioUrl "/uk/".

(** The branch of the [if / else if / else if] chain taken for one audio
    URL, given the buckets filled so far; [None] when no branch is. *)
Definition bucketFor (result : AudioUrls) (audioUrl : string) : option Bucket :=
  if hintsUS audioUrl then Some US
  else if hintsUK audioUrl then Some UK
  else if negb (JSString.truthyOpt (us result)) && negb (JSString.truthyOpt (uk result))
  then Some US
  else None.

Definition place (result : AudioUrls) (audioUrl : string) : AudioUrls :=
  match bucketFor result audioUrl with
  | Some US => mkUrls (Some audioUrl) (uk result)
  | Some UK => mkUrls (us result) (Some audioUrl)
  | None => result
  end.

(** Body of the inner loop: [if (phonetic.audio) { ... }]. *)
Definition onPhonetic (result : AudioUrls) (phonetic : Phonetic) : AudioUrls :=
  match audio phonetic with
  | Some audioUrl => if JSString.truthy audioUrl then place result audioUrl else result
  | None => result
  end.

Definition onEntry (result : AudioUrls) (entry : FreeDictionaryApiResponse) : AudioUrls :=
  List.fold_left onPhonetic (phonetics entry) result.

Definition extract (data : list FreeDictionaryApiResponse) : AudioUrls :=
  List.fold_left onEntry data noUrls.

(** The audio URLs the two loops visit, in order: every non-empty [audio]
    of every phonetic of every entry. *)
Definition audioUrlsOf (data : list FreeDictionaryApiResponse) : list string :=
  List.flat_map
    (fun entry =>
       List.flat_map
         (fun ph => match audio ph with
                    | Some u => if JSString.truthy u then [u] else []
                    | None => []
                    end)
         (phonetics entry))
    data.

(** The last element of a list that satisfies a test. *)
Definition lastWhere {A} (test : A → bool) (l : list A) : option A :=
  List.find test (List.rev l).

(** A bucket is either not set or holds a non-empty URL. *)
Definition bucketsSound (r : AudioUrls) : Prop :=
  (∀ u, us r = Some u → JSString.truthy u = true)
  ∧ (∀ u, uk r = Some u → JSString.truthy u = true).

Section Service.

(** The phonetic endpoint: the answer to the [n]-th request, for a word. *)
Variable httpGet : nat → string → HttpOutcome (list FreeDictionaryApiResponse).

Definition request (word : string) : M (list FreeDictionaryApiResponse) :=
  fun w =>
    let w' := audioRequested word w in
    match httpGet (length (audioCalls w)) word with
    | HttpOk data => (Ok data, w')
    | HttpFail message => (Throw (JsError message), w')
    end.

Definition fetchAudioFromFreeDictionary (word : string) : M AudioUrls :=
  tryCatch
    (data ← request word;
     match data with
     | [] => mret noUrls
     | _ => mret (extract data)
     end)
    (fun error => mret noUrls).

Definition getAudioUrl (word accent : string) : M (option string) :=
  audioUrls ← fetchAudioFromFreeDictionary word;
  if decide (accent = "US")
  then mret (JSString.orElse (JSString.orElse (us audioUrls) (uk audioUrls)) None)
  else mret (JSString.orElse (JSString.orElse (uk audioUrls) (us audioUrls)) None).

End Service.

(** [generateTTSAudio] is a placeholder: it logs a warning and answers
    [null]. *)
Definition generateTTSAudio (text_ accent : string) : M (option string) :=
  mret None.

End AudioService.

(** ** DTOs of the lookup response *)

Module PronunciationDto.
Record t : Type := mk {
  accent : string;
  ipa : string;
  audio_url : option string
}.
End PronunciationDto.

Module ExampleDto.
Record t : Type := mk { en : string; vi : string }.
End ExampleDto.

Module DefinitionDto.
Record t : Type := mk {
  pos : string;
  definition_en : string;
  definition_vi : string;
  level : string;
  examples : list ExampleDto.t
}.
End DefinitionDto.

Module LookupWordResponseDto.
Record t : Type := mk {
  word : string;
  pronunciations : list PronunciationDto.t;
  definitions : list DefinitionDto.t;
  word_forms : option (gmap string string);
  synonyms : option (list string);
  frequency_rank : option Z
}.
End LookupWordResponseDto.

(** What [findOne] with [relations] hands back: the word row with its
    pronunciations, its definitions (each with its examples) and its word
    forms. *)
Record LoadedWord : Type := mkLoaded {
  entity : WordEntity.t;
  loadedPronunciations : list PronunciationEntity.t;
  loadedDefinitions : list (DefinitionEntity.t * list ExampleEntity.t);
  loadedWordForms : list WordFormEntity.t
}.

(** ** The payload of the import entry point *)

Module ImportData.

Record pronunciation : Type := mkPronunciation {
  accent : string;
  ipa : string;
  audio_url : option string
}.

Record example : Type := mkExample { en : string; vi : string }.

Record definition : Type := mkDefinition {
  pos : string;
  definition_en : string;
  definition_vi : string;
  level : option string;
  examples : option (list example)
}.

(** [word_forms] is given as the list [Object.entries] enumerates. *)
Record t : Type := mk {
  word : string;
  word_normalized : option string;
  language : option string;
  frequency_rank : option Z;
  pronunciations : option (list pronunciation);
  definitions : option (list definition);
  synonyms : option (list string);
  word_forms : option (list (string * string))
}.

End ImportData.

Module ImportResult.
Record t : Type := mk { success : bool; word : string }.
End ImportResult.

(** ** What the query builder's SQL does

    [LIKE] with PostgreSQL's default escape character, and
    [ORDER BY ... ASC NULLS LAST].  SQL leaves the order of rows with equal
    keys open; the model keeps them in table order. *)

Module Sql.

Definition percent : ascii := ascii_of_nat 37.
Definition underscore : ascii := ascii_of_nat 95.
Definition backslash : ascii := ascii_of_nat 92.

(** [subject LIKE pattern]: [%] stands for any run of characters, [_] for
    any one character, and a backslash makes the next character literal.
    (A pattern that ends in a lone backslash is an error in PostgreSQL; the
    patterns built here end in [%].) *)
Fixpoint like (pattern : string) : string → bool :=
  match pattern with
  | EmptyString =>
      fun subject => match subject with EmptyString => true | String _ _ => false end
  | String p pattern' =>
      if decide (p = percent) then
        fix anyRun (subject : string) : bool :=
          like pattern' subject
          || match subject with
             | EmptyString => false
             | String _ subject' => anyRun subject'
             end
      else if decide (p = underscore) then
        fun subject =>
          match subject with
          | EmptyString => false
          | String _ subject' => like pattern' subject'
          end
      else if decide (p = backslash) then
        match pattern' with
        | EmptyString => fun _ => false
        | String e pattern'' =>
            fun subject =>
              match subject with
              | EmptyString => false
              | String c subject' => bool_decide (e = c) && like pattern'' subject'
              end
        end
      else
        fun subject =>
          match subject with
          | EmptyString => false
          | String c subject' => bool_decide (p = c) && like pattern' subject'
          end
  end.

(** The sign of the comparison [a] against [b] under [ASC NULLS LAST]. *)
Definition ascNullsLast (a b : option Z) : Z :=
  match a, b with
  | Some x, Some y => x - y
  | Some _, None => -1
  | None, Some _ => 1
  | None, None => 0
  end.

Definition orderBy {A} (key : A → option Z) (rows : list A) : list A :=
  JSArray.sort (fun a b => ascNullsLast (key a) (key b)) rows.

(** [a] may come before [b] under [ASC NULLS LAST]. *)
Definition notAfter (a b : option Z) : Prop := ascNullsLast a b ≤ 0.

(** A text without [%], [_] and backslash: as a [LIKE] pattern it stands
    for itself. *)
Fixpoint literal (s : string) : bool :=
  match s with
  | EmptyString => true
  | String c s' =>
      negb (bool_decide (c = percent)) && negb (bool_decide (c = underscore))
      && negb (bool_decide (c = backslash)) && literal s'
  end.

End Sql.

(** ** DTOs of the search, translate and audio entry points *)

Module SearchWordDto.
(** [limit] is an integer of at least 1 when present (the DTO's
    validators); [0] is kept in the type since the service treats it like a
    missing limit. *)
Record t : Type := mk { q : string; limit : option nat }.
End SearchWordDto.

Module SearchWordResponseDto.
Record t : Type := mk { suggestions : list string }.
End SearchWordResponseDto.

Module TranslateDto.
Record t : Type := mk {
  text : string;
  source_lang : string;
  target_lang : string
}.
End TranslateDto.

Module TranslateResponseDto.
Record t : Type := mk {
  original_text : string;
  translated_text : string;
  source_lang : string;
  target_lang : string
}.
End TranslateResponseDto.

Module WordAudio.
(** [{ audio_url: string | null }] *)
Record t : Type := mk { audio_url : option string }.
End WordAudio.

Definition dq : string := String (ascii_of_nat 34) EmptyString.
Definition nl : string := String (ascii_of_nat 10) EmptyString.
Definition quoted (s : string) : string := dq +:+ s +:+ dq.

(** ** DictionaryService *)

Module DictionaryService.

(** The prompt template of [generateWordWithLLM], line by line. *)
Definition promptLines (word : string) : list string :=
  [ "<|system|>";
    "You are an English-Vietnamese dictionary. Provide comprehensive dictionary information in JSON format.";
    "<|end|>";
    "<|user|>";
    "Provide a complete dictionary entry for the English word " +:+ quoted word
      +:+ " with Vietnamese translations.";
    EmptyString;
    "Return ONLY valid JSON in this exact format:";
    "{";
    "  " +:+ quoted "word" +:+ ": " +:+ quoted word +:+ ",";
    "  " +:+ quoted "pronunciations" +:+ ": [";
    "    {" +:+ quoted "accent" +:+ ": " +:+ quoted "US" +:+ ", "
      +:+ quoted "ipa" +:+ ": " +:+ quoted "/pronunciation/" +:+ "},";
    "    {" +:+ quoted "accent" +:+ ": " +:+ quoted "UK" +:+ ", "
      +:+ quoted "ipa" +:+ ": " +:+ quoted "/pronunciation/" +:+ "}";
    "  ],";
    "  " +:+ quoted "definitions" +:+ ": [";
    "    {";
    "      " +:+ quoted "pos" +:+ ": " +:+ quoted "part of speech" +:+ ",";
    "      " +:+ quoted "definition_en" +:+ ": " +:+ quoted "English definition" +:+ ",";
    "      " +:+ quoted "definition_vi" +:+ ": " +:+ quoted "Vietnamese translation" +:+ ",";
    "      " +:+ quoted "level" +:+ ": " +:+ quoted "beginner/intermediate/advanced" +:+ ",";
    "      " +:+ quoted "examples" +:+ ": [";
    "        {" +:+ quoted "en" +:+ ": " +:+ quoted "English example" +:+ ", "
      +:+ quoted "vi" +:+ ": " +:+ quoted "Vietnamese example" +:+ "}";
    "      ]";
    "    }";
    "  ],";
    "  " +:+ quoted "word_forms" +:+ ": {" +:+ quoted "plural" +:+ ": " +:+ quoted "..."
      +:+ ", " +:+ quoted "past" +:+ ": " +:+ quoted "..."
      +:+ ", " +:+ quoted "present" +:+ ": " +:+ quoted "..." +:+ "},";
    "  " +:+ quoted "synonyms" +:+ ": [" +:+ quoted "synonym1" +:+ ", "
      +:+ quoted "synonym2" +:+ "]";
    "}";
    "<|end|>";
    "<|assistant|>";
    EmptyString ].

Definition promptFor (word : string) : string :=
  String.concat nl (promptLines word).

Definition compareDefinitionOrder
    (a b : DefinitionEntity.t * list ExampleEntity.t) : Z :=
  (DefinitionEntity.definitionOrder a.1 - DefinitionEntity.definitionOrder b.1).

Definition exampleDto (ex : ExampleEntity.t) : ExampleDto.t :=
  (ExampleDto.mk (ExampleEntity.exampleEn ex) (ExampleEntity.exampleVi ex)).

Definition definitionDto (def : DefinitionEntity.t * list ExampleEntity.t)
    : DefinitionDto.t :=
  (DefinitionDto.mk
    (DefinitionEntity.partOfSpeech def.1)
    (DefinitionEntity.definitionEn def.1)
    (DefinitionEntity.definitionVi def.1)
    (DefinitionEntity.level def.1)
    (List.map exampleDto def.2)).

Definition pronunciationDto (p : PronunciationEntity.t) : PronunciationDto.t :=
  PronunciationDto.mk
    (PronunciationEntity.accent p) (PronunciationEntity.ipa p)
    (PronunciationEntity.audioUrl p).

(** The [where] clause of the lookup: literal word OR normalized key. *)
Definition matchesWord (word : string) (r : WordEntity.t) : bool :=
  bool_decide (WordEntity.word r = word)
  || bool_decide (WordEntity.wordNormalized r = word).

(** [wordRepository.findOne] with the four relations loaded. *)
Definition loadWord (word : string) (s : Store) : option LoadedWord :=
  match Table.findOne (matchesWord word) (wordRepository s) with
  | None => None
  | Some wordEntity =>
      let ofWord {A} (wordId : A → Z) (r : A) : bool :=
        bool_decide (wordId r = WordEntity.id wordEntity) in
      Some (mkLoaded wordEntity
        (Table.find (ofWord PronunciationEntity.wordId) (pronunciationRepository s))
        (List.map
           (fun d =>
              (d, Table.find
                    (fun ex => bool_decide
                       (ExampleEntity.definitionId ex = DefinitionEntity.id d))
                    (exampleRepository s)))
           (Table.find (ofWord DefinitionEntity.wordId) (definitionRepository s)))
        (Table.find (ofWord WordFormEntity.wordId) (wordFormRepository s)))
  end.

(** [pronunciationRepository.update(id, { audioUrl })] *)
Definition updateAudioUrl (id : Z) (audioUrl : option string) : M unit :=
  s ← getStore;
  putStore
    (setPronunciations
       (Table.update PronunciationEntity.id id
          (PronunciationEntity.setAudioUrl audioUrl) (pronunciationRepository s)) s).

(** [obj[key] = value] on a plain object, for a string value.  The key
    [__proto__] names the prototype accessor: assigning a string to it adds
    no property. *)
Definition assign (key value : string) (obj : gmap string string) : gmap string string :=
  if decide (key = "__proto__") then obj else <[key := value]> obj.

(** [wordFormsObj[form.formType] = form.formWord] over the word forms. *)
Definition wordFormsObject (forms : list WordFormEntity.t) : gmap string string :=
  List.fold_left
    (fun obj form =>
       assign (WordFormEntity.formType form) (WordFormEntity.formWord form) obj)
    forms ∅.

Definition liftResult {A} (r : Result A) : M A :=
  match r with Ok a => mret a | Throw e => throw e end.

Section Service.

Variable vllmModel : string.
(** The completion endpoint: the answer to the [n]-th request. *)
Variable httpPost : nat → VLLMCompletionRequest → HttpOutcome VLLMCompletionResponse.
Variable httpGet : nat → string → HttpOutcome (list FreeDictionaryApiResponse).
(** [JSON.parse] and the values it produces; a [SyntaxError] is a
    thrown [JsError]. *)
Variable Json : Type.
Variable JSON_parse : string → Result Json.

(** A lookup answers with the assembled DTO or with whatever object the
    model's completion parsed to. *)
Inductive LookupWordResponse : Type :=
| Assembled (dto : LookupWordResponseDto.t)
| Generated (parsed : Json).

Definition post (vllmRequest : VLLMCompletionRequest) : M VLLMCompletionResponse :=
  fun w =>
    let w' := completionRequested vllmRequest w in
    match httpPost (length (vllmCalls w)) vllmRequest with
    | HttpOk data => (Ok data, w')
    | HttpFail message => (Throw (JsError message), w')
    end.

Definition enrichPronunciation (word : string) (p : PronunciationEntity.t)
    : M PronunciationDto.t :=
  p' ← (if negb (JSString.truthyOpt (PronunciationEntity.audioUrl p))
        then
          audioUrl ← AudioService.getAudioUrl httpGet word
                       (PronunciationEntity.accent p);
          if JSString.truthyOpt audioUrl
          then
            updateAudioUrl (PronunciationEntity.id p) audioUrl;;
            mret (PronunciationEntity.setAudioUrl audioUrl p)
          else mret p
        else mret p);
  mret (pronunciationDto p').

Definition findWordInDatabase (word : string) : M (option LookupWordResponseDto.t) :=
  s ← getStore;
  match loadWord word s with
  | None => mret None
  | Some wordEntity =>
      pronunciationsWithAudio ←
        mapAll (loadedPronunciations wordEntity) (enrichPronunciation word);
      s' ← getStore;
      let synonyms :=
        Table.find
          (fun r => bool_decide
             (SynonymEntity.wordId r = WordEntity.id (entity wordEntity)))
          (synonymRepository s') in
      let wordFormsObj := wordFormsObject (loadedWordForms wordEntity) in
      mret (Some (LookupWordResponseDto.mk
        (WordEntity.word (entity wordEntity))
        pronunciationsWithAudio
        (List.map definitionDto
           (JSArray.sort compareDefinitionOrder (loadedDefinitions wordEntity)))
        (if decide (0 < size wordFormsObj)%nat then Some wordFormsObj else None)
        (match synonyms with
         | [] => None
         | _ => Some (List.map SynonymEntity.synonymWord synonyms)
         end)
        (WordEntity.frequencyRank (entity wordEntity))))
  end.

Definition rethrowClassified {A} (prefix : string) (error : Exn) : M A :=
  if isHttpException error then throw error
  else throw (HttpException (prefix +:+ messageOf error) INTERNAL_SERVER_ERROR).

(** The [vllmRequest] object of [generateWordWithLLM]. *)
Definition completionRequest (word : string) : VLLMCompletionRequest :=
  let prompt := promptFor word in
  mkRequest vllmModel prompt (3 # 10) 1500 ["<|end|>"; "<|user|>"].

Definition generateWordWithLLM (word : string) : M LookupWordResponse :=
  tryCatch
    (let vllmRequest := completionRequest word in
     response ← post vllmRequest;
     first ← match choices response with
             | c :: _ => mret c
             | [] => throw (JsError
                 "Cannot read properties of undefined (reading 'text')")
             end;
     let generatedText := JSString.trim (text first) in
     match RegExp.match_ RegExp.jsonObject generatedText with
     | None =>
         throw (HttpException "Failed to parse dictionary data"
                  INTERNAL_SERVER_ERROR)
     | Some jsonMatch =>
         dictionaryData ← liftResult (JSON_parse jsonMatch);
         mret (Generated dictionaryData)
     end)
    (rethrowClassified "Failed to generate word data: ").

(** The result of [generateWordWithLLM] in closed form, as a function of
    the endpoint's answer ([generateWordWithLLM_run] below proves the two
    equal). *)
Definition generationOutcome
    (outcome : HttpOutcome VLLMCompletionResponse) : Result LookupWordResponse :=
  match outcome with
  | HttpFail message =>
      Throw (HttpException ("Failed to generate word data: " +:+ message)
               INTERNAL_SERVER_ERROR)
  | HttpOk response =>
      match choices response with
      | [] =>
          Throw (HttpException
                   ("Failed to generate word data: "
                    +:+ "Cannot read properties of undefined (reading 'text')")
                   INTERNAL_SERVER_ERROR)
      | first :: _ =>
          match RegExp.match_ RegExp.jsonObject (JSString.trim (text first)) with
          | None =>
              Throw (HttpException "Failed to parse dictionary data"
                       INTERNAL_SERVER_ERROR)
          | Some jsonMatch =>
              match JSON_parse jsonMatch with
              | Ok dictionaryData => Ok (Generated dictionaryData)
              | Throw error =>
                  if isHttpException error then Throw error
                  else Throw (HttpException
                                ("Failed to generate word data: " +:+ messageOf error)
                                INTERNAL_SERVER_ERROR)
              end
          end
      end
  end.

Definition lookupWord (word : string) : M LookupWordResponse :=
  tryCatch
    (let normalizedWord := JSString.trim (JSString.toLowerCase word) in
     dbWord ← findWordInDatabase normalizedWord;
     match dbWord with
     | Some dto => mret (Assembled dto)
     | None => generateWordWithLLM normalizedWord
     end)
    (rethrowClassified "Failed to lookup word: ").

End Service.

(** *** importWordData *)

Definition findOneIn {A} (repository : Store → Table.t A) (where_ : A → bool)
    : M (option A) :=
  s ← getStore; mret (Table.findOne where_ (repository s)).

(** The message of the [QueryFailedError] a rejected [INSERT] raises.
    (PostgreSQL's text for a duplicate key goes on with the name of the
    constraint, which the schema in use decides.) *)
Definition queryFailed (why : Column.Rejection) : Exn :=
  JsError
    (match why with
     | Column.TooLong n =>
         "value too long for type character varying(" +:+ pretty n +:+ ")"
     | Column.OutOfRange z =>
         "value " +:+ quoted (pretty z) +:+ " is out of range for type integer"
     | Column.InvalidByte =>
         "invalid byte sequence for encoding " +:+ quoted "UTF8" +:+ ": 0x00"
     | Column.NotUnique => "duplicate key value violates unique constraint"
     end).

Definition saveIn {A} (repository : Store → Table.t A)
    (set : Table.t A → Store → Store) (onInsert : list A → A → Column.Stored A)
    (row : Z → A) : M A :=
  s ← getStore;
  match Table.save onInsert row (repository s) with
  | Column.Accepted saved => putStore (set saved.2 s);; mret saved.1
  | Column.Rejected why => throw (queryFailed why)
  end.

(** [{ where: { wordId, accent } }] and the row saved when nothing matches. *)
Definition pronunciationWhere (wordId : Z) (pron : ImportData.pronunciation)
    (r : PronunciationEntity.t) : bool :=
  bool_decide (PronunciationEntity.wordId r = wordId)
  && bool_decide (PronunciationEntity.accent r = ImportData.accent pron).

Definition pronunciationRow (wordId : Z) (pron : ImportData.pronunciation) (id : Z)
    : PronunciationEntity.t :=
  PronunciationEntity.mk id wordId
    (ImportData.accent pron) (ImportData.ipa pron) (ImportData.audio_url pron).

(** Body of the loop over [pronunciations]. *)
Definition importPronunciation (wordId : Z) (pron : ImportData.pronunciation)
    : M unit :=
  existing ← findOneIn pronunciationRepository (pronunciationWhere wordId pron);
  match existing with
  | None =>
      saveIn pronunciationRepository setPronunciations PronunciationEntity.onInsert
        (pronunciationRow wordId pron);;
      mret tt
  | Some _ => mret tt
  end.

Definition exampleRow (definitionId : Z) (ex : ImportData.example) (id : Z)
    : ExampleEntity.t :=
  (ExampleEntity.mk id definitionId (ImportData.en ex) (ImportData.vi ex)).

(** Body of the loop over the examples of one definition. *)
Definition importExample (definitionId : Z) (ex : ImportData.example) : M unit :=
  saveIn exampleRepository setExamples ExampleEntity.onInsert
    (exampleRow definitionId ex);;
  mret tt.

(** The entity [definitionRepository.create] builds for [definitions[i]]. *)
Definition definitionRow (wordId : Z) (idef : nat * ImportData.definition) (id : Z)
    : DefinitionEntity.t :=
  let i := idef.1 in
  let def := idef.2 in
  (DefinitionEntity.mk id wordId
     (ImportData.pos def) (ImportData.definition_en def)
     (ImportData.definition_vi def)
     (JSString.orDefault (ImportData.level def) "intermediate")
     (Z.of_nat i + 1)).

(** Body of the indexed loop over [definitions]: [idef] is [(i, definitions[i])]. *)
Definition importDefinition (wordId : Z) (idef : nat * ImportData.definition)
    : M unit :=
  defEntity ← saveIn definitionRepository setDefinitions DefinitionEntity.onInsert
                (definitionRow wordId idef);
  match ImportData.examples idef.2 with
  | Some ((_ :: _) as examples) =>
      forOf examples (importExample (DefinitionEntity.id defEntity))
  | _ => mret tt
  end.

(** [{ where: { wordId, formType } }] and the row saved when nothing matches. *)
Definition wordFormWhere (wordId : Z) (entry : string * string)
    (r : WordFormEntity.t) : bool :=
  bool_decide (WordFormEntity.wordId r = wordId)
  && bool_decide (WordFormEntity.formType r = entry.1).

Definition wordFormRow (wordId : Z) (entry : string * string) (id : Z)
    : WordFormEntity.t :=
  WordFormEntity.mk id wordId entry.1 entry.2.

(** Body of the loop over [Object.entries(word_forms)]: [entry] is
    [[formType, formWord]]. *)
Definition importWordForm (wordId : Z) (entry : string * string) : M unit :=
  existing ← findOneIn wordFormRepository (wordFormWhere wordId entry);
  match existing with
  | None =>
      saveIn wordFormRepository setWordForms WordFormEntity.onInsert
        (wordFormRow wordId entry);;
      mret tt
  | Some _ => mret tt
  end.

(** [{ where: { wordId, synonymWord: syn } }] and the row saved when
    nothing matches. *)
Definition synonymWhere (wordId : Z) (syn : string) (r : SynonymEntity.t) : bool :=
  bool_decide (SynonymEntity.wordId r = wordId)
  && bool_decide (SynonymEntity.synonymWord r = syn).

Definition synonymRow (wordId : Z) (syn : string) (id : Z) : SynonymEntity.t :=
  SynonymEntity.mk id wordId syn.

(** Body of the loop over [synonyms]. *)
Definition importSynonym (wordId : Z) (syn : string) : M unit :=
  existing ← findOneIn synonymRepository (synonymWhere wordId syn);
  match existing with
  | None =>
      saveIn synonymRepository setSynonyms SynonymEntity.onInsert
        (synonymRow wordId syn);;
      mret tt
  | Some _ => mret tt
  end.

(** [xs.map((x, i) => (i, x))]: the elements with their indices. *)
Definition indexed {A} (xs : list A) : list (nat * A) :=
  List.combine (List.seq 0 (length xs)) xs.

(** [{ where: { word } }] *)
Definition wordWhere (word : string) (r : WordEntity.t) : bool :=
  bool_decide (WordEntity.word r = word).

(** The row [wordRepository.create] builds for a word that is not there. *)
Definition newWord (data : ImportData.t) (id : Z) : WordEntity.t :=
  WordEntity.mk id
    (ImportData.word data)
    (JSString.orDefault (ImportData.language data) "en")
    (JSString.orDefault (ImportData.word_normalized data)
       (JSString.toLowerCase (ImportData.word data)))
    (ImportData.frequency_rank data)
    (match ImportData.definitions data with
     | Some definitions => List.map ImportData.pos definitions
     | None => []
     end).

Definition importWordData (data : ImportData.t) : M ImportResult.t :=
  tryCatch
    (let word := ImportData.word data in
     found ← findOneIn wordRepository (wordWhere word);
     wordEntity ← match found with
                  | None => saveIn wordRepository setWords WordEntity.onInsert
                              (newWord data)
                  | Some existing => mret existing
                  end;
     let wordId := WordEntity.id wordEntity in
     match ImportData.pronunciations data with
     | Some ((_ :: _) as pronunciations) =>
         forOf pronunciations (importPronunciation wordId)
     | _ => mret tt
     end;;
     match ImportData.definitions data with
     | Some ((_ :: _) as definitions) =>
         forOf (indexed definitions) (importDefinition wordId)
     | _ => mret tt
     end;;
     match ImportData.word_forms data with
     | Some word_forms => forOf word_forms (importWordForm wordId)
     | None => mret tt
     end;;
     match ImportData.synonyms data with
     | Some ((_ :: _) as synonyms) => forOf synonyms (importSynonym wordId)
     | _ => mret tt
     end;;
     mret (ImportResult.mk true word))
    (fun error =>
       throw (HttpException ("Failed to import word: " +:+ messageOf error)
                INTERNAL_SERVER_ERROR)).

(** The payloads whose rows every column stores as they are: strings
    within the column lengths and without zero bytes, the rank and the
    definition orders within the integer range. *)
Definition fitsPronunciation (pron : ImportData.pronunciation) : bool :=
  Column.fitsVarchar 10 (ImportData.accent pron)
  && Column.fitsText (ImportData.ipa pron)
  && Column.fitsNullable Column.fitsText (ImportData.audio_url pron).

Definition fitsExample (ex : ImportData.example) : bool :=
  Column.fitsText (ImportData.en ex) && Column.fitsText (ImportData.vi ex).

Definition fitsDefinition (def : ImportData.definition) : bool :=
  Column.fitsVarchar 50 (ImportData.pos def)
  && Column.fitsText (ImportData.definition_en def)
  && Column.fitsText (ImportData.definition_vi def)
  && Column.fitsVarchar 20 (JSString.orDefault (ImportData.level def) "intermediate")
  && forallb fitsExample (default [] (ImportData.examples def)).

Definition fitsWordForm (entry : string * string) : bool :=
  Column.fitsVarchar 50 entry.1 && Column.fitsVarchar 255 entry.2.

Definition fits (data : ImportData.t) : bool :=
  Column.fitsVarchar 255 (ImportData.word data)
  && Column.fitsVarchar 10 (JSString.orDefault (ImportData.language data) "en")
  && Column.fitsVarchar 255
       (JSString.orDefault (ImportData.word_normalized data)
          (JSString.toLowerCase (ImportData.word data)))
  && Column.fitsNullable Column.fitsInteger (ImportData.frequency_rank data)
  && forallb fitsPronunciation (default [] (ImportData.pronunciations data))
  && forallb fitsDefinition (default [] (ImportData.definitions data))
  && Column.fitsInteger (Z.of_nat (length (default [] (ImportData.definitions data))))
  && forallb fitsWordForm (default [] (ImportData.word_forms data))
  && forallb (Column.fitsVarchar 255) (default [] (ImportData.synonyms data)).

(** *** searchWords, translate, getWordAudio *)

(** Common English words for autocomplete. *)
Definition commonWords : list string :=
  [ "hello"; "world"; "dictionary"; "learn"; "example"; "language";
    "practice"; "study"; "vocabulary"; "grammar"; "pronunciation";
    "definition"; "translation"; "english"; "vietnamese"; "word";
    "sentence"; "phrase"; "meaning"; "synonym"; "antonym";
    "help"; "helicopter"; "history"; "house"; "home"; "hand";
    "happy"; "hard"; "have"; "heart"; "heavy"; "high"; "hold" ].

(** [dto.limit || 10] *)
Definition limitOf (dto : SearchWordDto.t) : nat :=
  match SearchWordDto.limit dto with
  | Some (S n) => S n
  | _ => 10%nat
  end.

(** The [where ... orWhere ...] of the search: either column is
    [LIKE 'query%']. *)
Definition searchWhere (query : string) (r : WordEntity.t) : bool :=
  Sql.like (query +:+ "%") (WordEntity.wordNormalized r)
  || Sql.like (query +:+ "%") (WordEntity.word r).

(** The query builder's [getMany]: filter, order by frequency rank with the
    unranked words last, cut at the limit. *)
Definition searchQuery (query : string) (limit : nat) (s : Store) : list WordEntity.t :=
  List.firstn limit
    (Sql.orderBy WordEntity.frequencyRank
       (Table.find (searchWhere query) (wordRepository s))).

Definition searchWords (dto : SearchWordDto.t) : M SearchWordResponseDto.t :=
  tryCatch
    (let query := JSString.toLowerCase (SearchWordDto.q dto) in
     let limit := limitOf dto in
     s ← getStore;
     let dbWords := searchQuery query limit s in
     match dbWords with
     | _ :: _ => mret (SearchWordResponseDto.mk (List.map WordEntity.word dbWords))
     | [] =>
         let suggestions :=
           List.firstn limit
             (List.filter (fun word => JSString.startsWith word query) commonWords) in
         mret (SearchWordResponseDto.mk suggestions)
     end)
    (fun error =>
       throw (HttpException "Failed to search words" INTERNAL_SERVER_ERROR)).

(** The [languageNames] object literal of [translate]. *)
Definition languageNames : list (string * string) :=
  [ ("en", "English"); ("vi", "Vietnamese"); ("zh-cn", "Chinese");
    ("es", "Spanish"); ("hi", "Hindi"); ("bn", "Bengali");
    ("pt", "Portuguese"); ("ru", "Russian"); ("ja", "Japanese");
    ("ko", "Korean"); ("fr", "French") ].

Fixpoint ownProperty (key : string) (entries : list (string * string)) : option string :=
  match entries with
  | [] => None
  | (k, v) :: entries' => if decide (k = key) then Some v else ownProperty key entries'
  end.

(** The prompt template of [translate], line by line. *)
Definition translatePromptLines (sourceLangName targetLangName text_ : string)
    : list string :=
  [ "<|system|>";
    "You are a professional translator. Translate accurately and naturally.";
    "<|end|>";
    "<|user|>";
    "Translate the following text from " +:+ sourceLangName +:+ " to "
      +:+ targetLangName +:+ ".";
    "Output ONLY the translation, nothing else.";
    EmptyString;
    "Text: " +:+ text_;
    "<|end|>";
    "<|assistant|>";
    EmptyString ].

Section More.

Variable vllmModel : string.
Variable httpPost : nat → VLLMCompletionRequest → HttpOutcome VLLMCompletionResponse.
Variable httpGet : nat → string → HttpOutcome (list FreeDictionaryApiResponse).
(** What [languageNames[code]] interpolates to when [code] is not a key of
    the literal but names a property inherited from [Object.prototype]
    ([constructor], [toString], ...): such a value is truthy, so it is used
    instead of the code.  [None] for every other code. *)
Variable inheritedProperty : string → option string.

(** [languageNames[code] || code], as interpolated into the prompt. *)
Definition languageName (code : string) : string :=
  match ownProperty code languageNames with
  | Some name => if JSString.truthy name then name else code
  | None =>
      match inheritedProperty code with
      | Some rendered => rendered
      | None => code
      end
  end.

(** The [vllmRequest] object of [translate]. *)
Definition translationRequest (dto : TranslateDto.t) : VLLMCompletionRequest :=
  let sourceLangName := languageName (TranslateDto.source_lang dto) in
  let targetLangName := languageName (TranslateDto.target_lang dto) in
  let prompt :=
    String.concat nl
      (translatePromptLines sourceLangName targetLangName (TranslateDto.text dto)) in
  mkRequest vllmModel prompt (3 # 10) 500 ["<|end|>"; "<|user|>"].

Definition translate (dto : TranslateDto.t) : M TranslateResponseDto.t :=
  tryCatch
    (let vllmRequest := translationRequest dto in
     response ← post httpPost vllmRequest;
     first ← match choices response with
             | c :: _ => mret c
             | [] => throw (JsError
                 "Cannot read properties of undefined (reading 'text')")
             end;
     let translatedText := JSString.trim (text first) in
     mret (TranslateResponseDto.mk (TranslateDto.text dto) translatedText
             (TranslateDto.source_lang dto) (TranslateDto.target_lang dto)))
    (rethrowClassified "Failed to translate text: ").

(** The [where] clause of [getWordAudio]: the word as given, or its
    lowercase form as normalized key. *)
Definition audioWhere (word : string) (r : WordEntity.t) : bool :=
  bool_decide (WordEntity.word r = word)
  || bool_decide (WordEntity.wordNormalized r = JSString.toLowerCase word).

(** The audio URL the store has for the word and exactly this accent:
    [wordEntity.pronunciations.find(p => p.accent === accent)?.audioUrl]
    when it is truthy. *)
Definition storedAudio (word accent : string) (s : Store) : option string :=
  match Table.findOne (audioWhere word) (wordRepository s) with
  | None => None
  | Some wordEntity =>
      let pronunciations :=
        Table.find
          (fun p => bool_decide (PronunciationEntity.wordId p = WordEntity.id wordEntity))
          (pronunciationRepository s) in
      match List.find (fun p => bool_decide (PronunciationEntity.accent p = accent))
              pronunciations with
      | None => None
      | Some pronunciation =>
          if JSString.truthyOpt (PronunciationEntity.audioUrl pronunciation)
          then PronunciationEntity.audioUrl pronunciation
          else None
      end
  end.

Definition getWordAudio (word accent : string) : M WordAudio.t :=
  tryCatch
    (s ← getStore;
     match storedAudio word accent s with
     | Some audioUrl => mret (WordAudio.mk (Some audioUrl))
     | None =>
         audioUrl ← AudioService.getAudioUrl httpGet word accent;
         mret (WordAudio.mk audioUrl)
     end)
    (fun error => mret (WordAudio.mk None)).

End More.

End DictionaryService.

(** ** What a lookup may change in the store *)

Module LookupEffect.

(** A pronunciation row without its audio URL. *)
Definition pronunciationCore (p : PronunciationEntity.t) : Z * Z * string * string :=
  (PronunciationEntity.id p, PronunciationEntity.wordId p,
   PronunciationEntity.accent p, PronunciationEntity.ipa p).

(** The two stores are the same except for audio URLs of pronunciation
    rows. *)
Definition onlyAudioChanged (before after : Store) : Prop :=
  wordRepository after = wordRepository before
  ∧ definitionRepository after = definitionRepository before
  ∧ exampleRepository after = exampleRepository before
  ∧ wordFormRepository after = wordFormRepository before
  ∧ synonymRepository after = synonymRepository before
  ∧ Table.nextId (pronunciationRepository after)
    = Table.nextId (pronunciationRepository before)
  ∧ List.map pronunciationCore (Table.rows (pronunciationRepository after))
    = List.map pronunciationCore (Table.rows (pronunciationRepository before)).

(** [!p.audioUrl] *)
Definition lacksAudio (p : PronunciationEntity.t) : bool :=
  negb (JSString.truthyOpt (PronunciationEntity.audioUrl p)).


End LookupEffect.

(** ** The effect of an import on the store, in closed form

    [importWordData] never throws in this model, and what it does to the
    store is the function [importStore] below; the section on imports
    proves that.  The closed form is what the import claims are read off. *)

Module ImportEffect.

Import DictionaryService.

(** The world with the store changed by [f]. *)
Definition overDb (f : Store → Store) (w : World) : World :=
  mkWorld (f (db w)) (vllmCalls w) (audioCalls w).

(** Check, then insert only if nothing matched. *)
Definition insertUnless {A} (where_ : A → bool) (row : Z → A) (tb : Table.t A)
    : Table.t A :=
  match Table.findOne where_ tb with
  | None => (Table.append row tb).2
  | Some _ => tb
  end.

Definition upsertAll {A X} (where_ : X → A → bool) (row : X → Z → A)
    (xs : list X) (tb : Table.t A) : Table.t A :=
  List.fold_left (fun tb x => insertUnless (where_ x) (row x) tb) xs tb.

(** Insert unconditionally. *)
Definition appendAll {A X} (row : X → Z → A) (xs : list X) (tb : Table.t A)
    : Table.t A :=
  List.fold_left (fun tb x => (Table.append (row x) tb).2) xs tb.

(** The word row the import attaches the sub-records to. *)
Definition importedWord (data : ImportData.t) (s : Store) : WordEntity.t :=
  match Table.findOne (wordWhere (ImportData.word data)) (wordRepository s) with
  | Some existing => existing
  | None => newWord data (Table.nextId (wordRepository s))
  end.

Definition wordsAfter (data : ImportData.t) (s : Store) : Table.t WordEntity.t :=
  match Table.findOne (wordWhere (ImportData.word data)) (wordRepository s) with
  | Some _ => wordRepository s
  | None => (Table.append (newWord data) (wordRepository s)).2
  end.

(** One round of the loop over the definitions. *)
Definition definitionStep (wordId : Z) (s : Store) (idef : nat * ImportData.definition)
    : Store :=
  let saved := Table.append (definitionRow wordId idef) (definitionRepository s) in
  setExamples
    (appendAll (exampleRow (DefinitionEntity.id saved.1))
       (default [] (ImportData.examples idef.2)) (exampleRepository s))
    (setDefinitions saved.2 s).

Definition importStore (data : ImportData.t) (s : Store) : Store :=
  let wordId := WordEntity.id (importedWord data s) in
  let s0 := setWords (wordsAfter data s) s in
  let s1 :=
    setPronunciations
      (upsertAll (pronunciationWhere wordId) (pronunciationRow wordId)
         (default [] (ImportData.pronunciations data)) (pronunciationRepository s0))
      s0 in
  let s2 :=
    List.fold_left (definitionStep wordId)
      (indexed (default [] (ImportData.definitions data))) s1 in
  let s3 :=
    setWordForms
      (upsertAll (wordFormWhere wordId) (wordFormRow wordId)
         (default [] (ImportData.word_forms data)) (wordFormRepository s2))
      s2 in
  setSynonyms
    (upsertAll (synonymWhere wordId) (synonymRow wordId)
       (default [] (ImportData.synonyms data)) (synonymRepository s3))
    s3.

(** A definition row without its id. *)
Definition definitionContent (d : DefinitionEntity.t)
    : Z * string * string * string * string * Z :=
  let content wordId pos en vi level order := (wordId, pos, en, vi, level, order) in
  content (DefinitionEntity.wordId d) (DefinitionEntity.partOfSpeech d)
    (DefinitionEntity.definitionEn d) (DefinitionEntity.definitionVi d)
    (DefinitionEntity.level d) (DefinitionEntity.definitionOrder d).

End ImportEffect.

(** ** Integrity of the store

    What the schema's primary keys, foreign keys and unique columns, and
    the import's check before each insert, are there to maintain. *)

Module StoreInvariant.

(** The rows carry distinct ids, each handed out by the table's sequence
    already. *)
Definition idsIssued {A} (idOf : A → Z) (tb : Table.t A) : Prop :=
  NoDup (idOf <$> Table.rows tb)
  ∧ Forall (fun r => idOf r < Table.nextId tb) (Table.rows tb).

(** Every row of [tb] refers to a row of [parent]. *)
Definition refersTo {A B} (ref : A → Z) (tb : Table.t A)
    (idOf : B → Z) (parent : Table.t B) : Prop :=
  Forall (fun r => ref r ∈ idOf <$> Table.rows parent) (Table.rows tb).

Record wellFormed (s : Store) : Prop := mkWellFormed {
  wordIds : idsIssued WordEntity.id (wordRepository s);
  pronunciationIds : idsIssued PronunciationEntity.id (pronunciationRepository s);
  definitionIds : idsIssued DefinitionEntity.id (definitionRepository s);
  exampleIds : idsIssued ExampleEntity.id (exampleRepository s);
  wordFormIds : idsIssued WordFormEntity.id (wordFormRepository s);
  synonymIds : idsIssued SynonymEntity.id (synonymRepository s);
  pronunciationWords :
    refersTo PronunciationEntity.wordId (pronunciationRepository s)
      WordEntity.id (wordRepository s);
  definitionWords :
    refersTo DefinitionEntity.wordId (definitionRepository s)
      WordEntity.id (wordRepository s);
  wordFormWords :
    refersTo WordFormEntity.wordId (wordFormRepository s)
      WordEntity.id (wordRepository s);
  synonymWords :
    refersTo SynonymEntity.wordId (synonymRepository s)
      WordEntity.id (wordRepository s);
  exampleDefinitions :
    refersTo ExampleEntity.definitionId (exampleRepository s)
      DefinitionEntity.id (definitionRepository s)
}.

(** The keys the import checks before it inserts. *)
Definition accentKey (r : PronunciationEntity.t) : Z * string :=
  (PronunciationEntity.wordId r, PronunciationEntity.accent r).

Definition formTypeKey (r : WordFormEntity.t) : Z * string :=
  (WordFormEntity.wordId r, WordFormEntity.formType r).

Definition synonymKey (r : SynonymEntity.t) : Z * string :=
  (SynonymEntity.wordId r, SynonymEntity.synonymWord r).

(** What the primary keys, the foreign keys and the unique word column
    maintain. *)
Definition intact (s : Store) : Prop :=
  wellFormed s ∧ NoDup (WordEntity.word <$> Table.rows (wordRepository s)).

(** Started in a store with [P], the program ends in a store with [Q] when
    it returns and with [E] when it throws. *)
Definition triple {A} (P : Store → Prop) (m : M A)
    (Q : A → Store → Prop) (E : Store → Prop) : Prop :=
  ∀ w, P (db w) →
       match m w with
       | (Ok a, w') => Q a (db w')
       | (Throw _, w') => E (db w')
       end.

Record keysUnique (s : Store) : Prop := mkKeysUnique {
  uniqueWords : NoDup (WordEntity.word <$> Table.rows (wordRepository s));
  uniqueAccents : NoDup (accentKey <$> Table.rows (pronunciationRepository s));
  uniqueFormTypes : NoDup (formTypeKey <$> Table.rows (wordFormRepository s));
  uniqueSynonyms : NoDup (synonymKey <$> Table.rows (synonymRepository s))
}.

End StoreInvariant.

(** ** An imported payload as a lookup shows it *)

Module RoundTrip.







End RoundTrip.

(** ** The import script

    [scripts/import-dictionary-data.ts] builds the payload of
    [importWordData] for one word from the phonetic dictionary's entry and
    asks the translate endpoint for the Vietnamese texts.  The state
    threaded through is the list of texts sent for translation so far.  The
    dictionary's answers are taken to have the shape the script's interface
    declares, and writing the file to succeed. *)

Module ImportScript.

Record Phonetic : Type := mkPhonetic {
  text : option string;
  audio : option string
}.

Record MeaningDefinition : Type := mkMeaningDefinition {
  definition : string;
  example : option string;
  synonyms : option (list string)
}.

Record Meaning : Type := mkMeaning {
  partOfSpeech : string;
  definitions : list MeaningDefinition
}.

Record FreeDictionaryResponse : Type := mkEntry {
  word : string;
  phonetics : list Phonetic;
  meanings : list Meaning
}.

(** [audio?.includes('-us') ? 'US' : audio?.includes('-uk') ? 'UK' : 'US'] *)
Definition accentOf (audio : option string) : string :=
  match audio with
  | Some url =>
      if JSString.includes url "-us" then "US"
      else if JSString.includes url "-uk" then "UK"
      else "US"
  | None => "US"
  end.

(** Body of the loop over [wordData.phonetics]. *)
Definition onPhonetic (pronunciations : list ImportData.pronunciation)
    (phonetic : Phonetic) : list ImportData.pronunciation :=
  match text phonetic with
  | Some ipa =>
      if JSString.truthy ipa
      then pronunciations
           ++ [ImportData.mkPronunciation (accentOf (audio phonetic)) ipa
                 (JSString.orElse (audio phonetic) None)]
      else pronunciations
  | None => pronunciations
  end.

(** [meanings[0]?.definitions[0]?.synonyms?.slice(0, 5) || []] *)
Definition synonymsOf (wordData : FreeDictionaryResponse) : list string :=
  match meanings wordData with
  | meaning :: _ =>
      match definitions meaning with
      | def :: _ =>
          match synonyms def with
          | Some listed => List.firstn 5 listed
          | None => []
          end
      | [] => []
      end
  | [] => []
  end.

(** What the loops push for one definition when [translate] gives the
    Vietnamese text. *)
Definition definitionFrom (translate : string → string) (pos : string)
    (def : MeaningDefinition) : ImportData.definition :=
  ImportData.mkDefinition pos (definition def) (translate (definition def))
    (Some "intermediate")
    (Some (match example def with
           | Some ex =>
               if JSString.truthy ex then [ImportData.mkExample ex (translate ex)]
               else []
           | None => []
           end)).

Section Script.

Variable httpGet : string → HttpOutcome (list FreeDictionaryResponse).
(** The translate endpoint: the [translated_text] of the answer to the
    [n]-th request. *)
Variable httpPost : nat → string → HttpOutcome string.

Definition fetchWordData (word : string) : option FreeDictionaryResponse :=
  match httpGet word with
  | HttpOk (first :: _) => Some first
  | HttpOk [] => None
  | HttpFail _ => None
  end.

(** The text the [n]-th request gives for [text]: the original on failure. *)
Definition translation (n : nat) (text : string) : string :=
  match httpPost n text with
  | HttpOk translated_text => translated_text
  | HttpFail _ => text
  end.

Definition translateToVietnamese (text : string) (sent : list string)
    : string * list string :=
  (translation (length sent) text, sent ++ [text]).

(** Body of the loop over [meaning.definitions.slice(0, 2)]. *)
Definition onDefinition (pos : string)
    (state : list ImportData.definition * list string) (def : MeaningDefinition)
    : list ImportData.definition * list string :=
  let definitionVi := translateToVietnamese (definition def) state.2 in
  let examples :=
    match example def with
    | Some ex =>
        if JSString.truthy ex
        then
          let exampleVi := translateToVietnamese ex definitionVi.2 in
          ([ImportData.mkExample ex exampleVi.1], exampleVi.2)
        else ([], definitionVi.2)
    | None => ([], definitionVi.2)
    end in
  (state.1
   ++ [ImportData.mkDefinition pos (definition def) definitionVi.1
         (Some "intermediate") (Some examples.1)],
   examples.2).

(** Body of the loop over [wordData.meanings.slice(0, 3)]. *)
Definition onMeaning (state : list ImportData.definition * list string)
    (meaning : Meaning) : list ImportData.definition * list string :=
  List.fold_left (onDefinition (partOfSpeech meaning))
    (List.firstn 2 (definitions meaning)) state.

(** [importWord]: the payload written to the word's file, if any; the
    function answers [true] exactly when there is one. *)
Definition importWord (word : string) (rank : Z) (sent : list string)
    : option ImportData.t * list string :=
  match fetchWordData word with
  | None => (None, sent)
  | Some wordData =>
      let pronunciations := List.fold_left onPhonetic (phonetics wordData) [] in
      let extracted :=
        List.fold_left onMeaning (List.firstn 3 (meanings wordData)) ([], sent) in
      let payload :=
        ImportData.mk word (Some (JSString.toLowerCase word)) (Some "en") (Some rank)
          (Some pronunciations) (Some extracted.1) (Some (synonymsOf wordData)) None in
      (Some payload, extracted.2)
  end.

End Script.

(** What every definition of a payload looks like. *)
Definition wellShaped (d : ImportData.definition) : Prop :=
  ImportData.level d = Some "intermediate"
  ∧ ∃ examples, ImportData.examples d = Some examples ∧ (length examples ≤ 1)%nat.

Definition exampleCount (defs : list ImportData.definition) : nat :=
  length (List.flat_map (fun d => default [] (ImportData.examples d)) defs).

Definition pronunciationShaped (p : ImportData.pronunciation) : Prop :=
  (ImportData.accent p = "US" ∨ ImportData.accent p = "UK")
  ∧ JSString.truthy (ImportData.ipa p) = true
  ∧ ImportData.audio_url p ≠ Some EmptyString.

End ImportScript.

(** ** Sequences of calls

    The public methods of [DictionaryService] that touch the world, called
    one after the other. *)

Module ServiceRun.

Inductive Call : Type :=
| SearchWords (dto : SearchWordDto.t)
| LookupWord (word : string)
| Translate (dto : TranslateDto.t)
| ImportWordData (data : ImportData.t)
| GetWordAudio (word accent : string).

Section Calls.

Variable vllmModel : string.
Variable httpPost : nat → VLLMCompletionRequest → HttpOutcome VLLMCompletionResponse.
Variable httpGet : nat → string → HttpOutcome (list FreeDictionaryApiResponse).
Variable Json : Type.
Variable JSON_parse : string → Result Json.
Variable inheritedProperty : string → option string.

(** The world a call leaves behind, whatever it answers. *)
Definition after (call : Call) (w : World) : World :=
  match call with
  | SearchWords dto => (DictionaryService.searchWords dto w).2
  | LookupWord word =>
      (DictionaryService.lookupWord vllmModel httpPost httpGet Json JSON_parse word w).2
  | Translate dto =>
      (DictionaryService.translate vllmModel httpPost inheritedProperty dto w).2
  | ImportWordData data => (DictionaryService.importWordData data w).2
  | GetWordAudio word accent => (DictionaryService.getWordAudio httpGet word accent w).2
  end.

Definition run (calls : list Call) (w : World) : World :=
  List.fold_left (fun w call => after call w) calls w.

End Calls.

(** A call whose payload, if it has one, fits the columns. *)
Definition fitting (call : Call) : Prop :=
  match call with
  | ImportWordData data => DictionaryService.fits data = true
  | _ => True
  end.

End ServiceRun.

(** ** A JSON reader for running the model

    [JSON.parse] is a parameter of the service model.  To run the model on
    concrete completions, this reader covers the fragment of JSON without
    escape sequences in strings and with integer numbers only. *)

Module MiniJson.

Inductive value : Type :=
| Null
| Bool (b : bool)
| Number (n : Z)
| Str (s : string)
| Arr (items : list value)
| Obj (members : list (string * value)).

Definition isDigit (c : ascii) : bool :=
  let n := N_of_ascii c in ((48 <=? n) && (n <=? 57))%N.

Fixpoint readString (s : string) : option (string * string) :=
  match s with
  | EmptyString => None
  | String c s' =>
      if decide (c = ascii_of_nat 34) then Some (EmptyString, s')
      else if decide (c = ascii_of_nat 92) then None
      else match readString s' with
           | Some (str, rest) => Some (String c str, rest)
           | None => None
           end
  end.

Fixpoint readDigits (acc : Z) (s : string) : Z * string :=
  match s with
  | String c s' =>
      if isDigit c then readDigits (10 * acc + Z.of_N (N_of_ascii c) - 48) s'
      else (acc, s)
  | EmptyString => (acc, s)
  end.

Definition readLiteral (lit : string) (v : value) (s : string)
    : option (value * string) :=
  if JSString.startsWith s lit
  then Some (v, String.substring (String.length lit) (String.length s) s)
  else None.

Fixpoint readValue (fuel : nat) (s : string) : option (value * string) :=
  match fuel with
  | O => None
  | S fuel' =>
      match JSString.trimStart s with
      | String "{" s1 =>
          match JSString.trimStart s1 with
          | String "}" s2 => Some (Obj [], s2)
          | _ =>
              match readMembers fuel' s1 with
              | Some (ms, rest) => Some (Obj ms, rest)
              | None => None
              end
          end
      | String "[" s1 =>
          match JSString.trimStart s1 with
          | String "]" s2 => Some (Arr [], s2)
          | _ =>
              match readItems fuel' s1 with
              | Some (vs, rest) => Some (Arr vs, rest)
              | None => None
              end
          end
      | String "t" _ as s1 => readLiteral "true" (Bool true) s1
      | String "f" _ as s1 => readLiteral "false" (Bool false) s1
      | String "n" _ as s1 => readLiteral "null" Null s1
      | String "-" s1 =>
          match s1 with
          | String c _ =>
              if isDigit c
              then let r := readDigits 0 s1 in Some (Number (- r.1), r.2)
              else None
          | EmptyString => None
          end
      | String c s1 as s0 =>
          if decide (c = ascii_of_nat 34)
          then match readString s1 with
               | Some (str, rest) => Some (Str str, rest)
               | None => None
               end
          else if isDigit c
          then let r := readDigits 0 s0 in Some (Number r.1, r.2)
          else None
      | EmptyString => None
      end
  end
with readItems (fuel : nat) (s : string) : option (list value * string) :=
  match fuel with
  | O => None
  | S fuel' =>
      match readValue fuel' s with
      | Some (v, rest) =>
          match JSString.trimStart rest with
          | String "," rest' =>
              match readItems fuel' rest' with
              | Some (vs, rest'') => Some (v :: vs, rest'')
              | None => None
              end
          | String "]" rest' => Some ([v], rest')
          | _ => None
          end
      | None => None
      end
  end
with readMembers (fuel : nat) (s : string) : option (list (string * value) * string) :=
  match fuel with
  | O => None
  | S fuel' =>
      match JSString.trimStart s with
      | String q s1 =>
          if decide (q = ascii_of_nat 34)
          then
            match readString s1 with
            | Some (key, afterKey) =>
                match JSString.trimStart afterKey with
                | String ":" s2 =>
                    match readValue fuel' s2 with
                    | Some (v, rest) =>
                        match JSString.trimStart rest with
                        | String "," rest' =>
                            match readMembers fuel' rest' with
                            | Some (ms, rest'') => Some ((key, v) :: ms, rest'')
                            | None => None
                            end
                        | String "}" rest' => Some ([(key, v)], rest')
                        | _ => None
                        end
                    | None => None
                    end
                | _ => None
                end
            | None => None
            end
          else None
      | EmptyString => None
      end
  end.

Definition parse (s : string) : Result value :=
  match readValue (2 * String.length s + 2) s with
  | Some (v, rest) =>
      match JSString.trimStart rest with
      | EmptyString => Ok v
      | _ => Throw (JsError "Unexpected token in JSON")
      end
  | None => Throw (JsError "Unexpected token in JSON")
  end.

End MiniJson.

(** ** Concrete data for the worked examples *)

Module Fixture.

(** A recording whose path names the UK folder and whose file name carries
    the US suffix. *)
Definition mixedUrl : string := "https://media.example/uk/hello-us.mp3".

Definition plainUrl : string := "https://media.example/hello.mp3".

Definition ukUrl : string := "https://media.example/hello-uk.mp3".

Definition entryWith (urls : list string) : FreeDictionaryApiResponse :=
  mkFreeDictionary "hello" (List.map (fun u => mkPhonetic None (Some u)) urls).

(** A phonetic endpoint that is down. *)
Definition getDown (n : nat) (word : string)
    : HttpOutcome (list FreeDictionaryApiResponse) :=
  HttpFail "connect ECONNREFUSED".

(** A phonetic endpoint that knows one UK recording for every word. *)
Definition getUkOnly (n : nat) (word : string)
    : HttpOutcome (list FreeDictionaryApiResponse) :=
  HttpOk [entryWith [ukUrl]].

(** The store of end-to-end scenario 1: [hello] with a US and a UK
    pronunciation, both without audio, and one definition. *)
Definition helloData : ImportData.t :=
  ImportData.mk "hello" None None (Some 150)
    (Some [ImportData.mkPronunciation "US" "/helou/" None;
           ImportData.mkPronunciation "UK" "/heleu/" None])
    (Some [ImportData.mkDefinition "interjection" "used as a greeting"
             "xin chao" (Some "beginner")
             (Some [ImportData.mkExample "Hello! How are you?" "Xin chao!"])])
    None None.

Definition helloWorld : World :=
  (DictionaryService.importWordData helloData emptyWorld).2.

(** A completion with prose around the object. *)
Definition proseBefore : string := "Sure, here:" +:+ nl.
Definition proseAfter : string := nl +:+ "Hope that helps".
Definition objectBody : string :=
  quoted "word" +:+ ":" +:+ quoted "serendipity" +:+ ", "
  +:+ quoted "synonyms" +:+ ": [" +:+ quoted "luck" +:+ "]".

Definition proseCompletion : string :=
  proseBefore +:+ "{" +:+ objectBody +:+ "}" +:+ proseAfter.

Definition serendipityEntry : MiniJson.value :=
  MiniJson.Obj [("word", MiniJson.Str "serendipity");
                ("synonyms", MiniJson.Arr [MiniJson.Str "luck"])].

(** A completion endpoint that always answers with [proseCompletion]. *)
Definition postProse (n : nat) (request : VLLMCompletionRequest)
    : HttpOutcome VLLMCompletionResponse :=
  HttpOk (mkResponse [mkChoice proseCompletion "stop"]).

Definition apology : string := "I am sorry, I do not know } that { word.".

(** A completion endpoint that answers without any object. *)
Definition postApology (n : nat) (request : VLLMCompletionRequest)
    : HttpOutcome VLLMCompletionResponse :=
  HttpOk (mkResponse [mkChoice apology "stop"]).

(** [hello] imported twice, with two definitions: the definition rows
    carry the orders 1, 2, 1, 2. *)
Definition greetingData : ImportData.t :=
  ImportData.mk "Hello" None None None None
    (Some [ImportData.mkDefinition "interjection" "used as a greeting"
             "xin chao" None None;
           ImportData.mkDefinition "noun" "an utterance of hello"
             "loi chao" None None])
    None None.

Definition greetingWorld : World :=
  (DictionaryService.importWordData greetingData
     (DictionaryService.importWordData greetingData emptyWorld).2).2.

(** A payload with an accent that does not fit its column. *)
Definition tomatoData : ImportData.t :=
  ImportData.mk "tomato" None None (Some 900)
    (Some [ImportData.mkPronunciation "en-Australia" "/tema:tou/" None])
    (Some [ImportData.mkDefinition "noun" "a red fruit" "ca chua" None None])
    None None.


(** A phonetic endpoint that knows one recording without any accent
    hint. *)
Definition getPlainOnly (n : nat) (word : string)
    : HttpOutcome (list FreeDictionaryApiResponse) :=
  HttpOk [entryWith [plainUrl]].

(** A completion endpoint that is down. *)
Definition postDown (n : nat) (request : VLLMCompletionRequest)
    : HttpOutcome VLLMCompletionResponse :=
  HttpFail "timeout of 30000ms exceeded".

(** A completion endpoint that answers with a padded translation. *)
Definition postTranslation (n : nat) (request : VLLMCompletionRequest)
    : HttpOutcome VLLMCompletionResponse :=
  HttpOk (mkResponse [mkChoice " Xin chao " "stop"]).

(** No language code names an inherited property. *)
Definition noInherited (code : string) : option string := None.

Definition helloTranslation : TranslateDto.t := TranslateDto.mk "Hello" "en" "vi".

(** A store with three ranked words and one without rank. *)
Definition rankedStore : Store :=
  setWords
    (Table.mk
       [WordEntity.mk 1 "help" "en" "help" (Some 300) [];
        WordEntity.mk 2 "Hello" "en" "hello" None [];
        WordEntity.mk 3 "world" "en" "world" (Some 50) [];
        WordEntity.mk 4 "hell" "en" "hell" (Some 100) []]
       5)
    emptyStore.

Definition rankedWorld : World := mkWorld rankedStore [] [].

(** A word with forms and synonyms. *)
Definition runData : ImportData.t :=
  ImportData.mk "run" None None (Some 42) None None
    (Some ["sprint"; "jog"])
    (Some [("past", "ran"); ("plural", "runs")]).


(** The phonetic dictionary's entry for [light], as the import script
    reads it. *)
Definition lightEntry : ImportScript.FreeDictionaryResponse :=
  ImportScript.mkEntry "light"
    [ImportScript.mkPhonetic (Some "/lait/") (Some "https://cdn.example/light-uk.mp3");
     ImportScript.mkPhonetic None (Some "https://cdn.example/light-us.mp3");
     ImportScript.mkPhonetic (Some "/laiq/") None]
    [ImportScript.mkMeaning "noun"
       [ImportScript.mkMeaningDefinition "visible radiation" (Some "the light of day")
          (Some ["glow"; "beam"; "ray"; "shine"; "gleam"; "glare"]);
        ImportScript.mkMeaningDefinition "a lamp" None None;
        ImportScript.mkMeaningDefinition "a flame" None None];
     ImportScript.mkMeaning "adjective"
       [ImportScript.mkMeaningDefinition "not heavy" None None]].

Definition getLight (word : string)
    : HttpOutcome (list ImportScript.FreeDictionaryResponse) :=
  if decide (word = "light") then HttpOk [lightEntry] else HttpOk [].

(** A translate endpoint that is down. *)
Definition translateDown (n : nat) (text : string) : HttpOutcome string :=
  HttpFail "connect ECONNREFUSED".




End Fixture.

(** * Properties *)

(** ** Strings *)

Section StringFacts.

Implicit Types (s t u : string) (c : ascii).

Lemma app_cons c s t : String c s +:+ t = String c (s +:+ t).
Proof. reflexivity. Qed.

Lemma app_empty_l s : EmptyString +:+ s = s.
Proof. reflexivity. Qed.

Lemma app_empty_r s : s +:+ EmptyString = s.
Proof. induction s as [|c s IH]; [done|]. by rewrite app_cons, IH. Qed.

Lemma app_assoc_str s t u : (s +:+ t) +:+ u = s +:+ (t +:+ u).
Proof. induction s as [|c s IH]; [done|]. by rewrite !app_cons, IH. Qed.

(** [includes] with a one-character needle says whether the character
    occurs. *)
Lemma includes_char_cons c d s :
  JSString.includes (String d s) (String c EmptyString)
  = bool_decide (c = d) || JSString.includes s (String c EmptyString).
Proof.
  cbn [JSString.includes JSString.startsWith].
  destruct (decide (c = d));
    [rewrite bool_decide_eq_true_2 by done|rewrite bool_decide_eq_false_2 by done];
    by destruct s.
Qed.

Lemma includes_char_nil c :
  JSString.includes EmptyString (String c EmptyString) = false.
Proof. reflexivity. Qed.

Lemma includes_char_app c s t :
  JSString.includes (s +:+ t) (String c EmptyString)
  = JSString.includes s (String c EmptyString)
    || JSString.includes t (String c EmptyString).
Proof.
  induction s as [|d s IH]; [done|].
  rewrite app_cons, !includes_char_cons, IH. by rewrite orb_assoc.
Qed.

Lemma trimStart_suffix s : ∃ l, s = l +:+ JSString.trimStart s.
Proof.
  induction s as [|c s [l Hl]]; [by exists EmptyString|].
  cbn [JSString.trimStart]. destruct (JSString.isSpace c).
  - exists (String c l). by rewrite app_cons, <- Hl.
  - by exists EmptyString.
Qed.

Lemma trimEnd_prefix s : ∃ r, s = JSString.trimEnd s +:+ r.
Proof.
  induction s as [|c s [r Hr]]; [by exists EmptyString|].
  cbn [JSString.trimEnd]. destruct (JSString.trimEnd s) as [|d t] eqn:Ht.
  - destruct (JSString.isSpace c).
    + exists (String c s). done.
    + exists r. by rewrite app_cons, <- Hr.
  - exists r. by rewrite app_cons, <- Hr.
Qed.

(** The trimmed text sits inside the text. *)
Lemma trim_infix s : ∃ l r, s = l +:+ JSString.trim s +:+ r.
Proof.
  destruct (trimStart_suffix s) as [l Hl].
  destruct (trimEnd_prefix (JSString.trimStart s)) as [r Hr].
  exists l, r. unfold JSString.trim. by rewrite <- Hr.
Qed.

Lemma trimStart_app s t c :
  JSString.isSpace c = false →
  JSString.trimStart (s +:+ String c t) = JSString.trimStart s +:+ String c t.
Proof.
  intros Hc. induction s as [|d s IH].
  - rewrite app_empty_l. cbn [JSString.trimStart]. by rewrite Hc.
  - rewrite app_cons. cbn [JSString.trimStart].
    destruct (JSString.isSpace d); [done|]. by rewrite app_cons.
Qed.

Lemma trimEnd_app s t c :
  JSString.isSpace c = false →
  JSString.trimEnd (s +:+ String c t) = s +:+ String c (JSString.trimEnd t).
Proof.
  intros Hc.
  assert (Hhd : JSString.trimEnd (String c t) = String c (JSString.trimEnd t)).
  { cbn [JSString.trimEnd]. destruct (JSString.trimEnd t); [by rewrite Hc|done]. }
  induction s as [|d s IH]; [done|].
  rewrite !app_cons. cbn [JSString.trimEnd]. rewrite IH.
  destruct s; done.
Qed.

Lemma includes_char_trimStart c s :
  JSString.includes s (String c EmptyString) = false →
  JSString.includes (JSString.trimStart s) (String c EmptyString) = false.
Proof.
  intros H. destruct (trimStart_suffix s) as [l Hl].
  rewrite Hl, includes_char_app in H. by apply orb_false_iff in H as [_ ?].
Qed.

Lemma includes_char_trimEnd c s :
  JSString.includes s (String c EmptyString) = false →
  JSString.includes (JSString.trimEnd s) (String c EmptyString) = false.
Proof.
  intros H. destruct (trimEnd_prefix s) as [r Hr].
  rewrite Hr, includes_char_app in H. by apply orb_false_iff in H as [? _].
Qed.

End StringFacts.

(** ** The brace pattern *)

Section BracePattern.

Implicit Types (s t pre mid post m : string).

(** The tail of the pattern, [[\s\S]*\}]. *)
Local Abbreviation upToLastClose := (RegExp.matchHere [RegExp.AnyStar; RegExp.Lit "}"]).

Lemma upToLastClose_cons d s :
  upToLastClose (String d s)
  = match upToLastClose s with
    | Some m => Some (String d m)
    | None => if decide ("}"%char = d) then Some (String d EmptyString) else None
    end.
Proof.
  cbn [RegExp.matchHere]. destruct (upToLastClose s); [done|].
  by destruct (decide ("}"%char = d)).
Qed.

Lemma upToLastClose_none s :
  JSString.includes s "}" = false → upToLastClose s = None.
Proof.
  induction s as [|d s IH]; [done|].
  rewrite includes_char_cons, upToLastClose_cons.
  intros [Hd Hs]%orb_false_iff. rewrite (IH Hs).
  destruct (decide ("}"%char = d)); [|done]. by rewrite bool_decide_eq_true_2 in Hd.
Qed.

Lemma upToLastClose_some mid post :
  JSString.includes post "}" = false →
  upToLastClose (mid +:+ "}" +:+ post) = Some (mid +:+ "}").
Proof.
  intros Hpost. induction mid as [|d mid IH].
  - rewrite app_empty_l, app_cons, app_empty_l, upToLastClose_cons.
    rewrite (upToLastClose_none _ Hpost). by destruct (decide _).
  - by rewrite (app_cons d mid), upToLastClose_cons, IH.
Qed.

Lemma upToLastClose_none_inv s :
  upToLastClose s = None → JSString.includes s "}" = false.
Proof.
  induction s as [|d s IH]; [done|].
  rewrite upToLastClose_cons, includes_char_cons.
  destruct (upToLastClose s); [done|].
  destruct (decide ("}"%char = d)); [done|]. intros _.
  rewrite bool_decide_eq_false_2 by done. by apply IH.
Qed.

Lemma upToLastClose_sound s m :
  upToLastClose s = Some m →
  ∃ mid post, s = m +:+ post ∧ m = mid +:+ "}"
              ∧ JSString.includes post "}" = false.
Proof.
  revert m. induction s as [|d s IH]; intros m; [done|].
  rewrite upToLastClose_cons. destruct (upToLastClose s) as [m'|] eqn:Hs.
  - intros [= <-]. destruct (IH m' eq_refl) as (mid & post & -> & -> & Hpost).
    exists (String d mid), post. by rewrite !app_cons.
  - destruct (decide _) as [<-|]; [|done]. intros [= <-].
    exists EmptyString, s. split; [done|]. split; [done|].
    by apply upToLastClose_none_inv.
Qed.

Lemma matchHere_jsonObject_cons d s :
  RegExp.matchHere RegExp.jsonObject (String d s)
  = if decide ("{"%char = d) then String d <$> upToLastClose s else None.
Proof. reflexivity. Qed.

(** The match runs from the first [{] to the last [}]. *)
Lemma match_first_to_last pre mid post :
  JSString.includes pre "{" = false →
  JSString.includes post "}" = false →
  RegExp.match_ RegExp.jsonObject (pre +:+ "{" +:+ mid +:+ "}" +:+ post)
  = Some ("{" +:+ mid +:+ "}").
Proof.
  intros Hpre Hpost. induction pre as [|d pre IH].
  - rewrite app_empty_l, app_cons, app_empty_l.
    cbn [RegExp.match_]. rewrite matchHere_jsonObject_cons.
    rewrite decide_True by done. by rewrite (upToLastClose_some _ _ Hpost).
  - rewrite includes_char_cons in Hpre. apply orb_false_iff in Hpre as [Hd Hpre].
    rewrite app_cons. cbn [RegExp.match_]. rewrite matchHere_jsonObject_cons.
    apply bool_decide_eq_false in Hd. rewrite decide_False by done.
    by apply IH.
Qed.

(** Whatever matches starts at the first [{] of the text and ends at its
    last [}]. *)
Lemma match_sound s m :
  RegExp.match_ RegExp.jsonObject s = Some m →
  ∃ pre mid post, s = pre +:+ "{" +:+ mid +:+ "}" +:+ post
                  ∧ m = "{" +:+ mid +:+ "}"
                  ∧ JSString.includes pre "{" = false
                  ∧ JSString.includes post "}" = false.
Proof.
  induction s as [|d s IH]; [done|].
  cbn [RegExp.match_]. rewrite matchHere_jsonObject_cons.
  destruct (decide ("{"%char = d)) as [<-|Hd].
  - destruct (upToLastClose s) as [m'|] eqn:Hm'.
    + intros [= <-].
      apply upToLastClose_sound in Hm' as (mid & post & -> & -> & Hpost).
      exists EmptyString, mid, post. rewrite app_empty_l.
      by rewrite !app_cons, !app_empty_l, !app_assoc_str.
    + cbn. intros H. destruct (IH H) as (pre & mid & post & -> & _).
      apply upToLastClose_none_inv in Hm'.
      rewrite !includes_char_app in Hm'. cbn in Hm'.
      by rewrite !orb_true_r in Hm'.
  - intros H. destruct (IH H) as (pre & mid & post & -> & -> & Hpre & Hpost).
    exists (String d pre), mid, post. split; [done|]. split; [done|].
    split; [|done]. rewrite includes_char_cons, Hpre.
    by rewrite bool_decide_eq_false_2.
Qed.

End BracePattern.

(** ** Sorting with a comparator that subtracts keys *)

Section SortByKey.

Context {A : Type} (key : A → Z).

Local Abbreviation compareFn := (JSArray.byKey key).
Local Abbreviation ascending := (JSArray.ascendingBy key).

Lemma insert_Permutation x l : JSArray.insert compareFn x l ≡ₚ x :: l.
Proof.
  induction l as [|y l IH]; [done|].
  cbn [JSArray.insert]. destruct (decide _); [|done].
  rewrite IH. apply Permutation_swap.
Qed.

Lemma sort_Permutation l : JSArray.sort compareFn l ≡ₚ l.
Proof.
  induction l as [|x l IH]; [done|].
  cbn [JSArray.sort List.fold_right]. rewrite insert_Permutation.
  by apply Permutation_skip.
Qed.

Lemma insert_StronglySorted x l :
  StronglySorted ascending l → StronglySorted ascending (JSArray.insert compareFn x l).
Proof.
  induction l as [|y l IH]; intros Hl.
  - repeat constructor.
  - apply StronglySorted_inv in Hl as [Hl Hy].
    cbn [JSArray.insert]. destruct (decide (0 < compareFn x y)) as [Hlt|Hge].
    + constructor; [by apply IH|].
      rewrite insert_Permutation. constructor; [|done].
      unfold ascending, compareFn in *. lia.
    + constructor; [by constructor|].
      assert (Hxy : ascending x y) by (unfold ascending, compareFn in *; lia).
      constructor; [done|].
      eapply Forall_impl; [exact Hy|]. unfold ascending in *. intros z ?. lia.
Qed.

Lemma sort_StronglySorted l : StronglySorted ascending (JSArray.sort compareFn l).
Proof.
  induction l as [|x l IH]; [constructor|].
  cbn [JSArray.sort List.fold_right]. by apply insert_StronglySorted.
Qed.

(** The sort is stable: rows with one key keep their order. *)
Lemma insert_filter_key k x l :
  StronglySorted ascending l →
  List.filter (fun a => bool_decide (key a = k)) (JSArray.insert compareFn x l)
  = List.filter (fun a => bool_decide (key a = k)) (x :: l).
Proof.
  induction l as [|y l IH]; intros Hl; [done|].
  apply StronglySorted_inv in Hl as [Hl Hy].
  cbn [JSArray.insert]. destruct (decide (0 < compareFn x y)) as [Hlt|Hge]; [|done].
  cbn [List.filter]. rewrite (IH Hl). cbn [List.filter].
  unfold compareFn in Hlt.
  repeat case_bool_decide; try done; lia.
Qed.

Lemma sort_stable k l :
  List.filter (fun a => bool_decide (key a = k)) (JSArray.sort compareFn l)
  = List.filter (fun a => bool_decide (key a = k)) l.
Proof.
  induction l as [|x l IH]; [done|].
  cbn [JSArray.sort List.fold_right].
  rewrite insert_filter_key by apply sort_StronglySorted.
  cbn [List.filter]. fold (JSArray.sort compareFn l). by rewrite IH.
Qed.

End SortByKey.

(** ** AudioService: classification and resolution *)

Section AudioFacts.

Import AudioService.

Lemma place_sound r u :
  JSString.truthy u = true → bucketsSound r → bucketsSound (place r u).
Proof.
  intros Hu [Hus Huk]. unfold place.
  destruct (bucketFor r u) as [[]|]; split; cbn; intros ? ?; simplify_eq; eauto.
Qed.

Lemma onPhonetic_sound r ph : bucketsSound r → bucketsSound (onPhonetic r ph).
Proof.
  intros Hr. unfold onPhonetic. destruct (audio ph) as [u|]; [|done].
  destruct (JSString.truthy u) eqn:Hu; [|done]. by apply place_sound.
Qed.

Lemma onEntry_sound r entry : bucketsSound r → bucketsSound (onEntry r entry).
Proof.
  unfold onEntry. revert r.
  induction (phonetics entry) as [|ph l IH]; intros r Hr; [done|].
  cbn [List.fold_left]. by apply IH, onPhonetic_sound.
Qed.

Lemma extract_sound data : bucketsSound (extract data).
Proof.
  unfold extract. assert (H0 : bucketsSound noUrls) by (split; intros ? [=]).
  revert H0. generalize noUrls.
  induction data as [|entry l IH]; intros r Hr; [done|].
  cbn [List.fold_left]. by apply IH, onEntry_sound.
Qed.

Lemma truthyOpt_sound (o : option string) :
  (∀ u, o = Some u → JSString.truthy u = true) →
  JSString.truthyOpt o = match o with Some _ => true | None => false end.
Proof. destruct o as [u|]; [|done]. intros H. cbn. by apply H. Qed.

(** [a || b || null] once the buckets are known to be sound. *)
Lemma orElse_sound (a b : option string) :
  (∀ u, a = Some u → JSString.truthy u = true) →
  (∀ u, b = Some u → JSString.truthy u = true) →
  JSString.orElse (JSString.orElse a b) None
  = match a with Some u => Some u | None => b end.
Proof.
  intros Ha Hb. unfold JSString.orElse.
  rewrite (truthyOpt_sound a Ha). destruct a as [u|].
  - cbn. by rewrite (Ha u eq_refl).
  - rewrite (truthyOpt_sound b Hb). by destruct b.
Qed.

End AudioFacts.

Section AudioClaims.

Import AudioService.

Variable httpGet : nat → string → HttpOutcome (list FreeDictionaryApiResponse).

Lemma fetchAudio_run word w :
  fetchAudioFromFreeDictionary httpGet word w
  = (Ok match httpGet (length (audioCalls w)) word with
        | HttpOk data => extract data
        | HttpFail _ => noUrls
        end,
     audioRequested word w).
Proof.
  unfold fetchAudioFromFreeDictionary, tryCatch, request, mbind, M_bind, bind.
  destruct (httpGet _ _) as [[|entry data]|message]; reflexivity.
Qed.

Lemma fetchAudio_sound word w urls w' :
  fetchAudioFromFreeDictionary httpGet word w = (Ok urls, w') → bucketsSound urls.
Proof.
  rewrite fetchAudio_run. intros [= <- _].
  destruct (httpGet _ _); [apply extract_sound|split; intros ? [=]].
Qed.

Lemma getAudioUrl_run word accent w :
  ∃ urls,
    fetchAudioFromFreeDictionary httpGet word w = (Ok urls, audioRequested word w)
    ∧ getAudioUrl httpGet word accent w
      = (Ok (if decide (accent = "US")
             then match us urls with Some u => Some u | None => uk urls end
             else match uk urls with Some u => Some u | None => us urls end),
         audioRequested word w).
Proof.
  eexists. split; [apply fetchAudio_run|].
  pose proof (fetchAudio_sound word w _ _ (fetchAudio_run word w)) as [Hus Huk].
  unfold getAudioUrl, mbind, M_bind, bind. rewrite fetchAudio_run.
  destruct (decide (accent = "US")); cbn [mret M_ret ret];
    by rewrite orElse_sound.
Qed.

(** C5.  A US request gets the US bucket if it is set, otherwise the UK
    bucket, otherwise nothing; a UK request gets the UK bucket if it is
    set, otherwise the US bucket, otherwise nothing. *)
Theorem getAudioUrl_preference_order word w :
  ∃ audioUrls,
    fetchAudioFromFreeDictionary httpGet word w
    = (Ok audioUrls, audioRequested word w)
    ∧ getAudioUrl httpGet word "US" w
      = (Ok match us audioUrls with
            | Some url => Some url
            | None => match uk audioUrls with Some url => Some url | None => None end
            end,
         audioRequested word w)
    ∧ getAudioUrl httpGet word "UK" w
      = (Ok match uk audioUrls with
            | Some url => Some url
            | None => match us audioUrls with Some url => Some url | None => None end
            end,
         audioRequested word w).
Proof.
  destruct (getAudioUrl_run word "US" w) as (urls & Hfetch & Hus).
  destruct (getAudioUrl_run word "UK" w) as (urls' & Hfetch' & Huk).
  assert (urls' = urls) as -> by congruence.
  exists urls. split; [done|]. split.
  - rewrite Hus. rewrite decide_True by done. by destruct (us urls), (uk urls).
  - rewrite Huk. rewrite decide_False by done. by destruct (us urls), (uk urls).
Qed.

End AudioClaims.

(** The URLs the loops hand to the classification: every non-empty
    [audio] of every phonetic of every entry, in order. *)
Lemma extract_fold data :
  AudioService.extract data
  = List.fold_left AudioService.place
      (List.flat_map
         (fun entry =>
            List.flat_map
              (fun ph => match audio ph with
                         | Some u => if JSString.truthy u then [u] else []
                         | None => []
                         end)
              (phonetics entry))
         data)
      AudioService.noUrls.
Proof.
  unfold AudioService.extract. generalize AudioService.noUrls.
  induction data as [|entry data IH]; intros r; [done|].
  cbn [List.fold_left List.flat_map]. rewrite fold_left_app, IH. f_equal.
  unfold AudioService.onEntry. clear IH. revert r.
  induction (phonetics entry) as [|ph l IHl]; intros r; [done|].
  cbn [List.fold_left List.flat_map]. rewrite fold_left_app, IHl. f_equal.
  unfold AudioService.onPhonetic. destruct (audio ph) as [u|]; [|done].
  by destruct (JSString.truthy u).
Qed.

(** One more entry with one more audio URL is one more classification
    step. *)
Lemma extract_snoc data url :
  JSString.truthy url = true →
  AudioService.extract (data ++ [Fixture.entryWith [url]])
  = AudioService.place (AudioService.extract data) url.
Proof.
  intros Hurl. unfold AudioService.extract. rewrite fold_left_app.
  cbn. unfold AudioService.onPhonetic. cbn. by rewrite Hurl.
Qed.

(** C6 as stated fails: a URL that contains [/uk/] and also [-us.mp3] is
    put into the US bucket, and the UK bucket stays empty. *)
Lemma classification_uk_hint_counterexample :
  JSString.includes Fixture.mixedUrl "/uk/" = true
  ∧ AudioService.extract [Fixture.entryWith [Fixture.mixedUrl]]
    = AudioService.mkUrls (Some Fixture.mixedUrl) None.
Proof. split; reflexivity. Qed.

(** C6, amended.  The two loops classify every non-empty audio URL of the
    response, in order, each by the buckets the URLs before it have left.
    A response without any gives no bucket.  Where a response has one more
    audio URL at its end than another: with a US hint the URL is the new US
    bucket; with a UK hint and no US hint it is the new UK bucket; with
    neither hint it becomes the US bucket if both buckets are still empty,
    and is dropped otherwise. *)
Theorem classification_by_hints (data : list FreeDictionaryApiResponse) :
  (AudioService.audioUrlsOf data = [] → AudioService.extract data = AudioService.noUrls)
  ∧ ∀ (longer : list FreeDictionaryApiResponse) (audioUrl : string),
      AudioService.audioUrlsOf longer = AudioService.audioUrlsOf data ++ [audioUrl] →
      let before := AudioService.extract data in
      let after := AudioService.extract longer in
      (AudioService.hintsUS audioUrl = true →
       after = AudioService.mkUrls (Some audioUrl) (AudioService.uk before))
      ∧ (AudioService.hintsUS audioUrl = false →
         AudioService.hintsUK audioUrl = true →
         after = AudioService.mkUrls (AudioService.us before) (Some audioUrl))
      ∧ (AudioService.hintsUS audioUrl = false →
         AudioService.hintsUK audioUrl = false →
         (AudioService.us before = None ∧ AudioService.uk before = None →
          after = AudioService.mkUrls (Some audioUrl) None)
         ∧ (¬ (AudioService.us before = None ∧ AudioService.uk before = None) →
            after = before)).
Proof.
  split.
  { intros Hnone. rewrite extract_fold. fold (AudioService.audioUrlsOf data).
    by rewrite Hnone. }
  intros longer audioUrl Hlonger before after.
  assert (Hstep : after = AudioService.place before audioUrl).
  { unfold after, before. rewrite !extract_fold.
    fold (AudioService.audioUrlsOf longer). fold (AudioService.audioUrlsOf data).
    by rewrite Hlonger, fold_left_app. }
  pose proof (extract_sound data) as [Hus Huk]. fold before in Hus, Huk.
  rewrite Hstep. unfold AudioService.place, AudioService.bucketFor.
  split; [|split].
  - by intros ->.
  - by intros -> ->.
  - intros -> ->.
    rewrite (truthyOpt_sound _ Hus), (truthyOpt_sound _ Huk).
    destruct (AudioService.us before) as [u|], (AudioService.uk before) as [v|]; cbn;
      split; try done; try (by intros [[=] ?]); try (by intros [? [=]]);
      by intros [].
Qed.

(** A response of two entries: the unhinted URL of the first entry is the
    default; the URL of the second entry, with [/uk/] and [-us.mp3],
    replaces it in the US bucket.  A third entry with a UK URL fills the
    UK bucket, and an unhinted URL after a UK one is dropped. *)
Lemma classification_by_hints_witness :
  AudioService.extract [] = AudioService.noUrls
  ∧ AudioService.extract [Fixture.entryWith [Fixture.plainUrl]]
    = AudioService.mkUrls (Some Fixture.plainUrl) None
  ∧ AudioService.extract
      [Fixture.entryWith [Fixture.plainUrl]; Fixture.entryWith [Fixture.mixedUrl]]
    = AudioService.mkUrls (Some Fixture.mixedUrl) None
  ∧ AudioService.extract
      [Fixture.entryWith [Fixture.plainUrl]; Fixture.entryWith [Fixture.ukUrl]]
    = AudioService.mkUrls (Some Fixture.plainUrl) (Some Fixture.ukUrl)
  ∧ AudioService.extract [Fixture.entryWith [Fixture.ukUrl; Fixture.plainUrl]]
    = AudioService.extract [Fixture.entryWith [Fixture.ukUrl]].
Proof.
  pose proof (classification_by_hints []) as [Hnone Hfirst].
  pose proof (classification_by_hints [Fixture.entryWith [Fixture.plainUrl]])
    as [_ Hsecond].
  pose proof (classification_by_hints [Fixture.entryWith [Fixture.ukUrl]])
    as [_ Hlater].
  split; [exact (Hnone eq_refl)|].
  split.
  { destruct (Hfirst [Fixture.entryWith [Fixture.plainUrl]] Fixture.plainUrl eq_refl)
      as (_ & _ & Hplain).
    exact (proj1 (Hplain eq_refl eq_refl) (conj eq_refl eq_refl)). }
  split.
  { destruct (Hsecond
                [Fixture.entryWith [Fixture.plainUrl]; Fixture.entryWith [Fixture.mixedUrl]]
                Fixture.mixedUrl eq_refl) as (Hus & _).
    exact (Hus eq_refl). }
  split.
  { destruct (Hsecond
                [Fixture.entryWith [Fixture.plainUrl]; Fixture.entryWith [Fixture.ukUrl]]
                Fixture.ukUrl eq_refl) as (_ & Huk & _).
    exact (Huk eq_refl eq_refl). }
  destruct (Hlater [Fixture.entryWith [Fixture.ukUrl; Fixture.plainUrl]]
              Fixture.plainUrl eq_refl) as (_ & _ & Hplain).
  apply (proj2 (Hplain eq_refl eq_refl)).
  intros [_ H]. vm_compute in H. discriminate H.
Defined.

(** ** Running the service monad *)

Lemma bind_run {A B} (m : M A) (k : A → M B) w a w' :
  m w = (Ok a, w') → (m ≫= k) w = k a w'.
Proof. unfold mbind, M_bind, bind. by intros ->. Qed.

Lemma bind_throw {A B} (m : M A) (k : A → M B) w e w' :
  m w = (Throw e, w') → (m ≫= k) w = (Throw e, w').
Proof. unfold mbind, M_bind, bind. by intros ->. Qed.

Lemma bind_getStore {B} (k : Store → M B) w : (getStore ≫= k) w = k (db w) w.
Proof. reflexivity. Qed.

Lemma mapAll_total {A B} (f : A → M B) (P : World → World → Prop) :
  (∀ w, P w w) →
  (∀ w1 w2 w3, P w1 w2 → P w2 w3 → P w1 w3) →
  (∀ x w, ∃ y w', f x w = (Ok y, w') ∧ P w w') →
  ∀ xs w, ∃ ys w', mapAll xs f w = (Ok ys, w') ∧ P w w' ∧ length ys = length xs.
Proof.
  intros Hrefl Htrans Hf xs. induction xs as [|x xs IH]; intros w.
  - exists [], w. by split.
  - destruct (Hf x w) as (y & w1 & Hy & HP1).
    destruct (IH w1) as (ys & w2 & Hys & HP2 & Hlen).
    exists (y :: ys), w2. cbn [mapAll]. rewrite (bind_run _ _ _ _ _ Hy).
    rewrite (bind_run _ _ _ _ _ Hys). split; [done|]. split; [by eapply Htrans|].
    cbn. by rewrite Hlen.
Qed.

(** ** Lookup: the store path *)

Section LookupFacts.

Import DictionaryService.

Variable vllmModel : string.
Variable httpPost : nat → VLLMCompletionRequest → HttpOutcome VLLMCompletionResponse.
Variable httpGet : nat → string → HttpOutcome (list FreeDictionaryApiResponse).
Variable Json : Type.
Variable JSON_parse : string → Result Json.

Local Abbreviation lookupWord := (lookupWord vllmModel httpPost httpGet Json JSON_parse).
Local Abbreviation generateWordWithLLM :=
  (generateWordWithLLM vllmModel httpPost Json JSON_parse).

(** Enriching one pronunciation never throws and leaves the record of
    completion calls alone. *)
Lemma enrichPronunciation_total word p w :
  ∃ dto w', enrichPronunciation httpGet word p w = (Ok dto, w')
            ∧ vllmCalls w' = vllmCalls w.
Proof.
  unfold enrichPronunciation.
  destruct (JSString.truthyOpt (PronunciationEntity.audioUrl p)); cbn [negb].
  - by eexists _, w.
  - destruct (getAudioUrl_run httpGet word
                (PronunciationEntity.accent p) w) as (urls & _ & Hget).
    unfold mbind, M_bind, bind at 1. unfold mbind, M_bind, bind at 1.
    rewrite Hget. destruct (JSString.truthyOpt _); by eexists _, _.
Qed.



Lemma findWordInDatabase_miss word w :
  loadWord word (db w) = None →
  findWordInDatabase httpGet word w = (Ok None, w).
Proof.
  intros Hmiss. unfold findWordInDatabase, getStore, mbind, M_bind, bind.
  by rewrite Hmiss.
Qed.

(** On a hit the response is assembled, whatever the phonetic endpoint
    does: the word is the stored one and the definitions are the loaded
    ones after the sort. *)
Lemma findWordInDatabase_hit word w wordEntity :
  loadWord word (db w) = Some wordEntity →
  ∃ dto w',
    findWordInDatabase httpGet word w = (Ok (Some dto), w')
    ∧ vllmCalls w' = vllmCalls w
    ∧ LookupWordResponseDto.word dto = WordEntity.word (entity wordEntity)
    ∧ LookupWordResponseDto.definitions dto
      = List.map definitionDto
          (JSArray.sort compareDefinitionOrder (loadedDefinitions wordEntity))
    ∧ length (LookupWordResponseDto.pronunciations dto)
      = length (loadedPronunciations wordEntity).
Proof.
  intros Hhit.
  destruct (mapAll_total (enrichPronunciation httpGet word)
              (fun w w' => vllmCalls w' = vllmCalls w)
              (fun _ => eq_refl)
              (fun _ _ _ H1 H2 => eq_trans H2 H1)
              (fun p w => enrichPronunciation_total word p w)
              (loadedPronunciations wordEntity) w)
    as (dtos & w' & Hall & Hcalls & Hlen).
  eexists _, w'. unfold findWordInDatabase.
  rewrite bind_getStore, Hhit, (bind_run _ _ _ _ _ Hall), bind_getStore.
  split; [reflexivity|]. by cbn.
Qed.


(** ** Lookup: the generative path *)

(** What [generateWordWithLLM] makes of the endpoint's answer. *)
Lemma generateWordWithLLM_run word w :
  generateWordWithLLM word w
  = (generationOutcome Json JSON_parse
       (httpPost (length (vllmCalls w)) (completionRequest vllmModel word)),
     completionRequested (completionRequest vllmModel word) w).
Proof.
  unfold DictionaryService.generateWordWithLLM, tryCatch, post, generationOutcome.
  unfold mbind, M_bind, bind.
  destruct (httpPost _ _) as [[[|first rest]]|message]; cbn; try reflexivity.
  destruct (RegExp.match_ _ _) as [jsonMatch|]; cbn; [|reflexivity].
  unfold liftResult. destruct (JSON_parse jsonMatch) as [v|e]; cbn; [reflexivity|].
  unfold rethrowClassified. by destruct (isHttpException e).
Qed.

(** Every failure of the generative path is already a classified
    exception. *)
Lemma generationOutcome_classified outcome e :
  generationOutcome Json JSON_parse outcome = Throw e → isHttpException e = true.
Proof.
  unfold generationOutcome.
  destruct outcome as [[[|first rest]]|message]; cbn [choices]; try by intros [= <-].
  destruct (RegExp.match_ _ _); [|by intros [= <-]].
  destruct (JSON_parse _) as [v|e']; [done|].
  destruct (isHttpException e') eqn:He'; by intros [= <-].
Qed.

Lemma lookupWord_miss word w :
  loadWord (JSString.trim (JSString.toLowerCase word)) (db w) = None →
  lookupWord word w
  = generateWordWithLLM (JSString.trim (JSString.toLowerCase word)) w.
Proof.
  intros Hmiss. unfold DictionaryService.lookupWord, tryCatch.
  rewrite (bind_run _ _ _ _ _ (findWordInDatabase_miss _ _ Hmiss)).
  rewrite generateWordWithLLM_run.
  destruct (generationOutcome _ _ _) as [v|e] eqn:Hout; [done|].
  unfold rethrowClassified. by rewrite (generationOutcome_classified _ _ Hout).
Qed.

Lemma lookupWord_hit word w wordEntity :
  loadWord (JSString.trim (JSString.toLowerCase word)) (db w) = Some wordEntity →
  ∃ dto w',
    lookupWord word w = (Ok (Assembled Json dto), w')
    ∧ findWordInDatabase httpGet (JSString.trim (JSString.toLowerCase word)) w
      = (Ok (Some dto), w').
Proof.
  intros Hhit.
  destruct (findWordInDatabase_hit _ _ _ Hhit) as (dto & w' & Hfind & _).
  exists dto, w'. split; [|done].
  unfold DictionaryService.lookupWord, tryCatch.
  by rewrite (bind_run _ _ _ _ _ Hfind).
Qed.

(** Which path a lookup took can be read off its result. *)
Lemma lookupWord_assembled word w dto w' :
  lookupWord word w = (Ok (Assembled Json dto), w') →
  ∃ wordEntity,
    loadWord (JSString.trim (JSString.toLowerCase word)) (db w) = Some wordEntity
    ∧ findWordInDatabase httpGet (JSString.trim (JSString.toLowerCase word)) w
      = (Ok (Some dto), w').
Proof.
  intros Hlookup.
  destruct (loadWord (JSString.trim (JSString.toLowerCase word)) (db w))
    as [wordEntity|] eqn:Hload.
  - exists wordEntity. split; [done|].
    destruct (lookupWord_hit _ _ _ Hload) as (dto' & w'' & Hlookup' & Hfind).
    rewrite Hlookup in Hlookup'. by simplify_eq.
  - rewrite (lookupWord_miss _ _ Hload), generateWordWithLLM_run in Hlookup.
    exfalso. unfold generationOutcome in Hlookup.
    destruct (httpPost _ _) as [[[|first rest]]|message]; cbn [choices] in Hlookup;
      try by simplify_eq.
    destruct (RegExp.match_ _ _); [|by simplify_eq].
    destruct (JSON_parse _) as [v|e]; [by simplify_eq|].
    destruct (isHttpException e); by simplify_eq.
Qed.

End LookupFacts.

(** Splitting a string at the first and at the last occurrence of a
    character. *)
Lemma split_first_char c s :
  JSString.includes s (String c EmptyString) = true →
  ∃ pre rest, s = pre +:+ String c rest
              ∧ JSString.includes pre (String c EmptyString) = false.
Proof.
  induction s as [|d s IH]; [done|].
  rewrite includes_char_cons. destruct (decide (c = d)) as [<-|Hne].
  - intros _. by exists EmptyString, s.
  - rewrite bool_decide_eq_false_2 by done. cbn [orb]. intros Hs.
    destruct (IH Hs) as (pre & rest & -> & Hpre).
    exists (String d pre), rest. split; [done|].
    rewrite includes_char_cons, Hpre. by rewrite bool_decide_eq_false_2.
Qed.

Lemma split_last_char c s :
  JSString.includes s (String c EmptyString) = true →
  ∃ rest post, s = rest +:+ String c post
               ∧ JSString.includes post (String c EmptyString) = false.
Proof.
  induction s as [|d s IH]; [done|].
  rewrite includes_char_cons.
  destruct (JSString.includes s (String c EmptyString)) eqn:Hs.
  - intros _. destruct (IH eq_refl) as (rest & post & -> & Hpost).
    by exists (String d rest), post.
  - rewrite orb_false_r. intros <-%bool_decide_eq_true.
    by exists EmptyString, s.
Qed.

(** A text with a [{] somewhere before a [}] always matches. *)
Lemma match_complete a b c :
  ∃ m, RegExp.match_ RegExp.jsonObject (a +:+ "{" +:+ b +:+ "}" +:+ c) = Some m.
Proof.
  assert (Ha : ∃ pre a', a +:+ "{" = pre +:+ String "{" a'
                         ∧ JSString.includes pre "{" = false).
  { apply split_first_char. rewrite includes_char_app. by rewrite orb_true_r. }
  assert (Hc : ∃ c' post, "}" +:+ c = c' +:+ String "}" post
                          ∧ JSString.includes post "}" = false).
  { apply split_last_char. by rewrite includes_char_app. }
  destruct Ha as (pre & a' & Ha & Hpre). destruct Hc as (c' & post & Hc & Hpost).
  exists ("{" +:+ (a' +:+ b +:+ c') +:+ "}").
  rewrite <- (match_first_to_last pre (a' +:+ b +:+ c') post Hpre Hpost).
  f_equal.
  change (pre +:+ "{" +:+ (a' +:+ b +:+ c') +:+ "}" +:+ post)
    with (pre +:+ String "{" ((a' +:+ b +:+ c') +:+ String "}" post)).
  rewrite !app_assoc_str, <- Hc.
  rewrite <- (app_assoc_str a "{"), Ha. by rewrite !app_assoc_str.
Qed.

(** So the failure of the match says that there is no such pair. *)
Lemma match_none_no_pair s :
  RegExp.match_ RegExp.jsonObject s = None →
  ∀ a b c, s ≠ a +:+ "{" +:+ b +:+ "}" +:+ c.
Proof.
  intros Hnone a b c ->. destruct (match_complete a b c) as [m Hm]. congruence.
Qed.

Lemma isSpace_open_brace : JSString.isSpace "{" = false.
Proof. reflexivity. Qed.

Lemma isSpace_close_brace : JSString.isSpace "}" = false.
Proof. reflexivity. Qed.

(** Trimming only touches the prose around an embedded object. *)
Lemma trim_around_object pre body post :
  JSString.trim (pre +:+ "{" +:+ body +:+ "}" +:+ post)
  = JSString.trimStart pre +:+ "{" +:+ body +:+ "}" +:+ JSString.trimEnd post.
Proof.
  unfold JSString.trim.
  change (pre +:+ "{" +:+ body +:+ "}" +:+ post)
    with (pre +:+ String "{" (body +:+ "}" +:+ post)).
  rewrite (trimStart_app _ _ _ isSpace_open_brace).
  change (JSString.trimStart pre +:+ String "{" (body +:+ "}" +:+ post))
    with (JSString.trimStart pre +:+ "{" +:+ body +:+ String "}" post).
  rewrite <- !app_assoc_str.
  rewrite (trimEnd_app _ _ _ isSpace_close_brace).
  by rewrite !app_assoc_str.
Qed.

Lemma match_prose_around_object pre body post :
  JSString.includes pre "{" = false →
  JSString.includes post "}" = false →
  RegExp.match_ RegExp.jsonObject
    (JSString.trim (pre +:+ "{" +:+ body +:+ "}" +:+ post))
  = Some ("{" +:+ body +:+ "}").
Proof.
  intros Hpre Hpost. rewrite trim_around_object.
  apply match_first_to_last.
  - by apply includes_char_trimStart.
  - by apply includes_char_trimEnd.
Qed.

(** Without a brace pair in the completion nothing matches. *)
Lemma match_no_pair text :
  (∀ a b c, text ≠ a +:+ "{" +:+ b +:+ "}" +:+ c) →
  RegExp.match_ RegExp.jsonObject (JSString.trim text) = None.
Proof.
  intros Hnone.
  destruct (RegExp.match_ _ _) as [m|] eqn:Hm; [exfalso|done].
  apply match_sound in Hm as (pre & mid & post & Htrim & _ & _ & _).
  destruct (trim_infix text) as (l & r & Htext).
  apply (Hnone (l +:+ pre) mid (post +:+ r)).
  rewrite Htext at 1. rewrite Htrim. by rewrite !app_assoc_str.
Qed.

(** ** The lookup claims *)

Section LookupClaims.

Import DictionaryService.

Variable vllmModel : string.
Variable httpPost : nat → VLLMCompletionRequest → HttpOutcome VLLMCompletionResponse.
Variable httpGet : nat → string → HttpOutcome (list FreeDictionaryApiResponse).
Variable Json : Type.
Variable JSON_parse : string → Result Json.

Local Abbreviation lookupWord := (lookupWord vllmModel httpPost httpGet Json JSON_parse).
Local Abbreviation generateWordWithLLM :=
  (generateWordWithLLM vllmModel httpPost Json JSON_parse).

(** C2.  On a store miss the lookup is the generative call and nothing
    else: it returns what the completion parsed to, the store is the same
    afterwards (so the word is still missing), one request was sent to the
    completion endpoint, and looking the word up again sends another. *)
Theorem lookupWord_miss_not_persisted (word : string) (w : World) :
  let normalizedWord := JSString.trim (JSString.toLowerCase word) in
  let request := completionRequest vllmModel normalizedWord in
  loadWord normalizedWord (db w) = None →
  lookupWord word w = generateWordWithLLM normalizedWord w
  ∧ (∀ first rest jsonMatch parsed,
       httpPost (length (vllmCalls w)) request = HttpOk (mkResponse (first :: rest)) →
       RegExp.match_ RegExp.jsonObject (JSString.trim (text first)) = Some jsonMatch →
       JSON_parse jsonMatch = Ok parsed →
       (lookupWord word w).1 = Ok (Generated Json parsed))
  ∧ db (lookupWord word w).2 = db w
  ∧ loadWord normalizedWord (db (lookupWord word w).2) = None
  ∧ vllmCalls (lookupWord word w).2 = vllmCalls w ++ [request]
  ∧ vllmCalls (lookupWord word (lookupWord word w).2).2
    = vllmCalls w ++ [request; request].
Proof.
  intros normalizedWord request Hmiss.
  pose proof (lookupWord_miss vllmModel httpPost httpGet Json JSON_parse
                word w Hmiss) as Hfirst.
  fold normalizedWord in Hfirst.
  rewrite (generateWordWithLLM_run vllmModel httpPost Json JSON_parse) in Hfirst.
  fold request in Hfirst.
  split; [by rewrite Hfirst, generateWordWithLLM_run|].
  split.
  { intros first rest jsonMatch parsed Hpost Hmatch Hparse.
    rewrite Hfirst. cbn [fst]. unfold generationOutcome.
    rewrite Hpost. cbn [choices]. by rewrite Hmatch, Hparse. }
  rewrite Hfirst. cbn [snd].
  split; [done|]. split; [done|]. split; [done|].
  assert (Hagain : loadWord normalizedWord (db (completionRequested request w)) = None)
    by done.
  rewrite (lookupWord_miss vllmModel httpPost httpGet Json JSON_parse word _ Hagain).
  rewrite generateWordWithLLM_run. cbn. by rewrite <- app_assoc.
Qed.

(** C3.  Whatever the pattern matches in a text runs from the first [{]
    of the text to its last [}].  Hence, for a completion that is an object
    text with brace-free prose before and after it, the match is exactly
    the object text, and the lookup result is what [JSON.parse] makes of
    it. *)
Theorem extraction_tolerates_prose :
  (∀ completion jsonMatch,
     RegExp.match_ RegExp.jsonObject completion = Some jsonMatch →
     ∃ pre mid post,
       completion = pre +:+ jsonMatch +:+ post
       ∧ jsonMatch = "{" +:+ mid +:+ "}"
       ∧ JSString.includes pre "{" = false
       ∧ JSString.includes post "}" = false)
  ∧ (∀ (word pre body post finish : string) (rest : list VLLMChoice)
       (parsed : Json) (w : World),
       let embedded := "{" +:+ body +:+ "}" in
       let completion := pre +:+ embedded +:+ post in
       JSString.includes pre "{" = false →
       JSString.includes pre "}" = false →
       JSString.includes post "{" = false →
       JSString.includes post "}" = false →
       JSON_parse embedded = Ok parsed →
       httpPost (length (vllmCalls w)) (completionRequest vllmModel word)
       = HttpOk (mkResponse (mkChoice completion finish :: rest)) →
       RegExp.match_ RegExp.jsonObject (JSString.trim completion) = Some embedded
       ∧ (generateWordWithLLM word w).1 = Ok (Generated Json parsed)).
Proof.
  split.
  - intros completion jsonMatch Hmatch.
    apply match_sound in Hmatch as (pre & mid & post & -> & -> & Hpre & Hpost).
    exists pre, mid, post. by rewrite !app_assoc_str.
  - intros word pre body post finish rest parsed w embedded completion
      Hpre _ _ Hpost Hparse Hreply.
    assert (Hmatch : RegExp.match_ RegExp.jsonObject (JSString.trim completion)
                     = Some embedded).
    { unfold completion, embedded. rewrite !app_assoc_str.
      by apply match_prose_around_object. }
    split; [done|].
    rewrite generateWordWithLLM_run. cbn [fst]. unfold generationOutcome.
    rewrite Hreply. cbn [choices text]. by rewrite Hmatch, Hparse.
Qed.

(** C4.  A completion without a [{] that is followed by a [}]: the
    generative call, and with it a lookup that missed the store, fails with
    the [HttpException] "Failed to parse dictionary data"; [JSON.parse]
    plays no part in it. *)
Theorem generation_unparsable
    (input text_ finish : string) (rest : list VLLMChoice) (w : World) :
  let word := JSString.trim (JSString.toLowerCase input) in
  (∀ a b c, text_ ≠ a +:+ "{" +:+ b +:+ "}" +:+ c) →
  httpPost (length (vllmCalls w)) (completionRequest vllmModel word)
  = HttpOk (mkResponse (mkChoice text_ finish :: rest)) →
  (generateWordWithLLM word w).1
  = Throw (HttpException "Failed to parse dictionary data" INTERNAL_SERVER_ERROR)
  ∧ (loadWord word (db w) = None →
     (lookupWord input w).1
     = Throw (HttpException "Failed to parse dictionary data" INTERNAL_SERVER_ERROR)).
Proof.
  intros word Hnone Hreply.
  assert (Hgen : (generateWordWithLLM word w).1
                 = Throw (HttpException "Failed to parse dictionary data"
                            INTERNAL_SERVER_ERROR)).
  { rewrite generateWordWithLLM_run. cbn [fst]. unfold generationOutcome.
    rewrite Hreply. cbn [choices text]. by rewrite (match_no_pair _ Hnone). }
  split; [done|]. intros Hmiss.
  by rewrite (lookupWord_miss vllmModel httpPost httpGet Json JSON_parse input w Hmiss).
Qed.


(** C9.  In a response assembled from the store the definitions are the
    loaded definition rows, rearranged so that their stored order field
    ascends. *)
Theorem lookup_definitions_sorted (word : string) (w w' : World)
    (dto : LookupWordResponseDto.t) :
  lookupWord word w = (Ok (Assembled Json dto), w') →
  ∃ wordEntity sorted,
    loadWord (JSString.trim (JSString.toLowerCase word)) (db w) = Some wordEntity
    ∧ LookupWordResponseDto.definitions dto = List.map definitionDto sorted
    ∧ sorted ≡ₚ loadedDefinitions wordEntity
    ∧ StronglySorted
        (fun a b => DefinitionEntity.definitionOrder a.1
                    ≤ DefinitionEntity.definitionOrder b.1)
        sorted.
Proof.
  intros Hlookup.
  apply lookupWord_assembled in Hlookup as (wordEntity & Hhit & Hfind).
  destruct (findWordInDatabase_hit httpGet _ _ _ Hhit)
    as (dto' & w'' & Hfind' & _ & _ & Hdefs & _).
  rewrite Hfind in Hfind'. simplify_eq.
  exists wordEntity, (JSArray.sort compareDefinitionOrder (loadedDefinitions wordEntity)).
  split; [done|]. split; [done|]. split.
  - apply (sort_Permutation (fun d => DefinitionEntity.definitionOrder d.1)).
  - apply (sort_StronglySorted (fun d => DefinitionEntity.definitionOrder d.1)).
Qed.

(** C10.  In a response assembled from the store the [word] field is the
    [word] column of the row found, and that row was found by comparing
    the lowercased, trimmed input with its [word] or its normalized key. *)
Theorem lookup_word_is_stored_word (input : string) (w w' : World)
    (dto : LookupWordResponseDto.t) :
  let normalizedWord := JSString.trim (JSString.toLowerCase input) in
  lookupWord input w = (Ok (Assembled Json dto), w') →
  ∃ row,
    Table.findOne (matchesWord normalizedWord) (wordRepository (db w)) = Some row
    ∧ row ∈ Table.rows (wordRepository (db w))
    ∧ (WordEntity.word row = normalizedWord
       ∨ WordEntity.wordNormalized row = normalizedWord)
    ∧ LookupWordResponseDto.word dto = WordEntity.word row.
Proof.
  intros normalizedWord Hlookup.
  apply lookupWord_assembled in Hlookup as (wordEntity & Hhit & Hfind).
  fold normalizedWord in Hhit, Hfind.
  destruct (findWordInDatabase_hit httpGet _ _ _ Hhit)
    as (dto' & w'' & Hfind' & _ & Hword & _).
  rewrite Hfind in Hfind'. simplify_eq.
  unfold loadWord in Hhit.
  destruct (Table.findOne _ _) as [row|] eqn:Hrow; [|done].
  simplify_eq. cbn [entity] in Hword. exists row.
  unfold Table.findOne in Hrow. apply find_some in Hrow as [Hin Hmatches].
  split; [done|]. split; [by apply list_elem_of_In|]. split; [|done].
  unfold matchesWord in Hmatches.
  apply orb_true_iff in Hmatches as [H|H]; apply bool_decide_eq_true in H; auto.
Qed.

End LookupClaims.

(** ** The lookup claims on the worked examples *)

(** Scenario 2: nothing stored for [serendipity], the completion carries
    an entry between prose. *)
Lemma lookupWord_miss_not_persisted_witness :
  let looked :=
    DictionaryService.lookupWord "phi-3" Fixture.postProse Fixture.getDown
      MiniJson.value MiniJson.parse " Serendipity " emptyWorld in
  looked.1 = Ok (DictionaryService.Generated MiniJson.value Fixture.serendipityEntry)
  ∧ db looked.2 = emptyStore
  ∧ DictionaryService.loadWord "serendipity" (db looked.2) = None
  ∧ length (vllmCalls looked.2) = 1%nat
  ∧ length (vllmCalls
              (DictionaryService.lookupWord "phi-3" Fixture.postProse Fixture.getDown
                 MiniJson.value MiniJson.parse " Serendipity " looked.2).2) = 2%nat.
Proof.
  intros looked.
  pose proof (lookupWord_miss_not_persisted "phi-3" Fixture.postProse Fixture.getDown
                MiniJson.value MiniJson.parse " Serendipity " emptyWorld eq_refl)
    as (_ & Hparsed & Hdb & Hmissing & Hcalls & Hagain).
  split.
  { apply (Hparsed (mkChoice Fixture.proseCompletion "stop") []
             ("{" +:+ Fixture.objectBody +:+ "}") Fixture.serendipityEntry);
      vm_compute; reflexivity. }
  split; [exact Hdb|]. split; [exact Hmissing|].
  split.
  - unfold looked. rewrite Hcalls. reflexivity.
  - unfold looked. rewrite Hagain. reflexivity.
Defined.

(** The completion of the example: "Sure, here:", the object, "Hope that
    helps". *)
Lemma extraction_tolerates_prose_witness :
  (∃ pre mid post,
     JSString.trim Fixture.proseCompletion
     = pre +:+ ("{" +:+ Fixture.objectBody +:+ "}") +:+ post
     ∧ "{" +:+ Fixture.objectBody +:+ "}" = "{" +:+ mid +:+ "}"
     ∧ JSString.includes pre "{" = false
     ∧ JSString.includes post "}" = false)
  ∧ RegExp.match_ RegExp.jsonObject (JSString.trim Fixture.proseCompletion)
    = Some ("{" +:+ Fixture.objectBody +:+ "}")
  ∧ (DictionaryService.generateWordWithLLM "phi-3" Fixture.postProse
       MiniJson.value MiniJson.parse "serendipity" emptyWorld).1
    = Ok (DictionaryService.Generated MiniJson.value Fixture.serendipityEntry).
Proof.
  pose proof (extraction_tolerates_prose "phi-3" Fixture.postProse
                MiniJson.value MiniJson.parse) as [Hshape Hprose].
  split.
  - apply (Hshape (JSString.trim Fixture.proseCompletion)). vm_compute. reflexivity.
  - apply (Hprose "serendipity" Fixture.proseBefore Fixture.objectBody
             Fixture.proseAfter "stop" [] Fixture.serendipityEntry emptyWorld);
      vm_compute; reflexivity.
Defined.

Lemma generation_unparsable_witness :
  (DictionaryService.generateWordWithLLM "phi-3" Fixture.postApology
     MiniJson.value MiniJson.parse "serendipity" emptyWorld).1
  = Throw (HttpException "Failed to parse dictionary data" 500)
  ∧ (DictionaryService.lookupWord "phi-3" Fixture.postApology Fixture.getDown
       MiniJson.value MiniJson.parse "Serendipity" emptyWorld).1
    = Throw (HttpException "Failed to parse dictionary data" 500).
Proof.
  pose proof (generation_unparsable "phi-3" Fixture.postApology Fixture.getDown
                MiniJson.value MiniJson.parse
                "Serendipity" Fixture.apology "stop" [] emptyWorld
                (match_none_no_pair Fixture.apology eq_refl) eq_refl)
    as [Hgenerate Hlookup].
  split; [exact Hgenerate|exact (Hlookup eq_refl)].
Defined.


(** After two imports the definition rows are stored with the orders
    1, 2, 1, 2; the response lists them with the orders 1, 1, 2, 2. *)
Lemma lookup_definitions_sorted_witness :
  List.map DefinitionEntity.definitionOrder
    (Table.rows (definitionRepository (db Fixture.greetingWorld)))
  = [1; 2; 1; 2]
  ∧ ∃ dto w',
      DictionaryService.lookupWord "phi-3" Fixture.postProse Fixture.getDown
        MiniJson.value MiniJson.parse "hello" Fixture.greetingWorld
      = (Ok (DictionaryService.Assembled MiniJson.value dto), w')
      ∧ List.map DefinitionDto.pos (LookupWordResponseDto.definitions dto)
        = ["interjection"; "interjection"; "noun"; "noun"]
      ∧ ∃ wordEntity sorted,
          DictionaryService.loadWord "hello" (db Fixture.greetingWorld)
          = Some wordEntity
          ∧ LookupWordResponseDto.definitions dto
            = List.map DictionaryService.definitionDto sorted
          ∧ sorted ≡ₚ loadedDefinitions wordEntity
          ∧ StronglySorted
              (fun a b => DefinitionEntity.definitionOrder a.1
                          ≤ DefinitionEntity.definitionOrder b.1)
              sorted.
Proof.
  split; [reflexivity|].
  eexists _, _. split; [reflexivity|]. split; [reflexivity|].
  eapply (lookup_definitions_sorted "phi-3" Fixture.postProse Fixture.getDown
            MiniJson.value MiniJson.parse "hello" Fixture.greetingWorld).
  reflexivity.
Defined.

(** [Hello] looked up against the stored entry [hello]. *)
Lemma lookup_word_is_stored_word_witness :
  ∃ dto w',
    DictionaryService.lookupWord "phi-3" Fixture.postProse Fixture.getUkOnly
      MiniJson.value MiniJson.parse "Hello" Fixture.helloWorld
    = (Ok (DictionaryService.Assembled MiniJson.value dto), w')
    ∧ LookupWordResponseDto.word dto = "hello"
    ∧ ∃ row,
        Table.findOne (DictionaryService.matchesWord "hello")
          (wordRepository (db Fixture.helloWorld)) = Some row
        ∧ row ∈ Table.rows (wordRepository (db Fixture.helloWorld))
        ∧ (WordEntity.word row = "hello" ∨ WordEntity.wordNormalized row = "hello")
        ∧ LookupWordResponseDto.word dto = WordEntity.word row.
Proof.
  eexists _, _. split; [reflexivity|]. split; [reflexivity|].
  eapply (lookup_word_is_stored_word "phi-3" Fixture.postProse Fixture.getUkOnly
            MiniJson.value MiniJson.parse "Hello" Fixture.helloWorld).
  reflexivity.
Defined.

(** ** Import: execution *)

Section ImportRun.

Import DictionaryService ImportEffect.

Lemma overDb_id w : overDb (fun s => s) w = w.
Proof. by destruct w. Qed.

Lemma overDb_overDb f g w : overDb g (overDb f w) = overDb (fun s => g (f s)) w.
Proof. reflexivity. Qed.

Lemma findOneIn_run {A} (repository : Store → Table.t A) where_ w :
  findOneIn repository where_ w = (Ok (Table.findOne where_ (repository (db w))), w).
Proof. reflexivity. Qed.

Lemma text_fits s : Column.fitsText s = true → Column.text s = Column.Accepted s.
Proof.
  unfold Column.fitsText, Column.text. by intros ->%negb_true_iff.
Qed.

Lemma varchar_fits n s :
  Column.fitsVarchar n s = true → Column.varchar n s = Column.Accepted s.
Proof.
  unfold Column.fitsVarchar, Column.varchar.
  by intros [->%negb_true_iff ->]%andb_true_iff.
Qed.

Lemma integer_fits z :
  Column.fitsInteger z = true → Column.integer z = Column.Accepted z.
Proof. unfold Column.fitsInteger, Column.integer. by intros ->. Qed.

Lemma nullable_fits {A} (column : A → Column.Stored A) fits o :
  (∀ a, fits a = true → column a = Column.Accepted a) →
  Column.fitsNullable fits o = true →
  Column.nullable column o = Column.Accepted o.
Proof.
  intros Hcolumn. destruct o as [a|]; [|done]. cbn. intros Ha.
  by rewrite (Hcolumn a Ha).
Qed.

Lemma array_fits {A} (column : A → Column.Stored A) fits l :
  (∀ a, fits a = true → column a = Column.Accepted a) →
  forallb fits l = true →
  Column.array column l = Column.Accepted l.
Proof.
  intros Hcolumn. induction l as [|a l IH]; [done|].
  cbn. intros [Ha Hl]%andb_true_iff. by rewrite (Hcolumn a Ha), (IH Hl).
Qed.

Lemma pronunciationRow_fits wordId pron rows id :
  fitsPronunciation pron = true →
  PronunciationEntity.onInsert rows (pronunciationRow wordId pron id)
  = Column.Accepted (pronunciationRow wordId pron id).
Proof.
  unfold fitsPronunciation. intros [[Haccent Hipa]%andb_true_iff Haudio]%andb_true_iff.
  unfold PronunciationEntity.onInsert, PronunciationEntity.stored, pronunciationRow.
  cbn. rewrite (varchar_fits _ _ Haccent), (text_fits _ Hipa). cbn.
  by rewrite (nullable_fits _ _ _ text_fits Haudio).
Qed.

Lemma exampleRow_fits definitionId ex rows id :
  fitsExample ex = true →
  ExampleEntity.onInsert rows (exampleRow definitionId ex id)
  = Column.Accepted (exampleRow definitionId ex id).
Proof.
  unfold fitsExample. intros [Hen Hvi]%andb_true_iff.
  unfold ExampleEntity.onInsert, ExampleEntity.stored, exampleRow.
  cbn. by rewrite (text_fits _ Hen), (text_fits _ Hvi).
Qed.

Lemma definitionRow_fits wordId idef rows id :
  fitsDefinition idef.2 = true →
  Column.fitsInteger (Z.of_nat idef.1 + 1) = true →
  DefinitionEntity.onInsert rows (definitionRow wordId idef id)
  = Column.Accepted (definitionRow wordId idef id).
Proof.
  unfold fitsDefinition.
  intros [[[[Hpos Hen]%andb_true_iff Hvi]%andb_true_iff Hlevel]%andb_true_iff _]%andb_true_iff
    Horder.
  unfold DefinitionEntity.onInsert, DefinitionEntity.stored, definitionRow.
  cbn. rewrite (varchar_fits _ _ Hpos), (text_fits _ Hen), (text_fits _ Hvi). cbn.
  by rewrite (varchar_fits _ _ Hlevel), (integer_fits _ Horder).
Qed.

Lemma wordFormRow_fits wordId entry rows id :
  fitsWordForm entry = true →
  WordFormEntity.onInsert rows (wordFormRow wordId entry id)
  = Column.Accepted (wordFormRow wordId entry id).
Proof.
  unfold fitsWordForm. intros [Htype Hword]%andb_true_iff.
  unfold WordFormEntity.onInsert, WordFormEntity.stored, wordFormRow.
  cbn. by rewrite (varchar_fits _ _ Htype), (varchar_fits _ _ Hword).
Qed.

Lemma synonymRow_fits wordId syn rows id :
  Column.fitsVarchar 255 syn = true →
  SynonymEntity.onInsert rows (synonymRow wordId syn id)
  = Column.Accepted (synonymRow wordId syn id).
Proof.
  intros Hsyn. unfold SynonymEntity.onInsert, SynonymEntity.stored, synonymRow.
  cbn. by rewrite (varchar_fits _ _ Hsyn).
Qed.

Lemma forallb_Forall {A} (p : A → bool) l :
  forallb p l = true → Forall (fun x => p x = true) l.
Proof.
  intros Hall. apply List.Forall_forall. intros x Hx.
  by apply (proj1 (forallb_forall p l) Hall).
Qed.

Lemma existsb_find_none {A} (p : A → bool) l :
  List.find p l = None → existsb p l = false.
Proof.
  induction l as [|a l IH]; [done|]. cbn.
  destruct (p a); [done|]. exact IH.
Qed.

(** The parts of [fits], one by one. *)
Lemma fits_parts data :
  fits data = true →
  (∀ rows id,
     Table.findOne (wordWhere (ImportData.word data)) (Table.mk rows id) = None →
     WordEntity.onInsert rows (newWord data id) = Column.Accepted (newWord data id))
  ∧ Forall (fun pron => fitsPronunciation pron = true)
      (default [] (ImportData.pronunciations data))
  ∧ Forall (fun idef : nat * ImportData.definition =>
              fitsDefinition idef.2 = true
              ∧ Column.fitsInteger (Z.of_nat idef.1 + 1) = true)
      (indexed (default [] (ImportData.definitions data)))
  ∧ Forall (fun entry => fitsWordForm entry = true)
      (default [] (ImportData.word_forms data))
  ∧ Forall (fun syn => Column.fitsVarchar 255 syn = true)
      (default [] (ImportData.synonyms data)).
Proof.
  unfold fits. rewrite !andb_true_iff.
  intros ((((((((Hword & Hlanguage) & Hnormalized) & Hrank) & Hprons) & Hdefs) & Hcount)
           & Hforms) & Hsyns).
  split; [|split; [|split; [|split]]].
  - intros rows id Hnone. unfold WordEntity.onInsert, WordEntity.stored, newWord.
    cbn. rewrite (varchar_fits _ _ Hword), (varchar_fits _ _ Hlanguage). cbn.
    rewrite (varchar_fits _ _ Hnormalized). cbn.
    rewrite (nullable_fits _ _ _ integer_fits Hrank). cbn.
    rewrite (array_fits Column.text (Column.fitsVarchar 50)).
    + cbn. unfold Table.findOne, wordWhere in Hnone. cbn in Hnone.
      by rewrite (existsb_find_none _ _ Hnone).
    + intros a [Ha _]%andb_true_iff. by apply text_fits.
    + destruct (ImportData.definitions data) as [defs|]; [|done]. cbn in *.
      clear -Hdefs. induction defs as [|d defs IH]; [done|].
      cbn in *. apply andb_true_iff in Hdefs as [Hd Hdefs]. rewrite (IH Hdefs), andb_true_r.
      unfold fitsDefinition in Hd. rewrite !andb_true_iff in Hd. tauto.
  - by apply forallb_Forall.
  - apply List.Forall_forall. intros [i def] Hin. cbn.
    unfold indexed in Hin. pose proof (in_combine_l _ _ _ _ Hin) as Hi%in_seq.
    pose proof (in_combine_r _ _ _ _ Hin) as Hdef.
    split.
    + rewrite forallb_forall in Hdefs. by apply Hdefs.
    + unfold Column.fitsInteger in *. apply bool_decide_eq_true in Hcount.
      apply bool_decide_eq_true. lia.
  - by apply forallb_Forall.
  - by apply forallb_Forall.
Qed.

Lemma saveIn_run {A} (repository : Store → Table.t A) set onInsert row w :
  onInsert (Table.rows (repository (db w))) (row (Table.nextId (repository (db w))))
  = Column.Accepted (row (Table.nextId (repository (db w)))) →
  saveIn repository set onInsert row w
  = (Ok (row (Table.nextId (repository (db w)))),
     overDb (fun s => set (Table.append row (repository s)).2 s) w).
Proof.
  intros Haccepted. unfold saveIn. rewrite bind_getStore.
  unfold Table.save. by rewrite Haccepted.
Qed.

Lemma forOf_run {X} (good : X → Prop) (body : X → M unit) (step : Store → X → Store) :
  (∀ x w, good x → body x w = (Ok tt, overDb (fun s => step s x) w)) →
  ∀ xs w, Forall good xs →
          forOf xs body w = (Ok tt, overDb (fun s => List.fold_left step xs s) w).
Proof.
  intros Hbody xs. induction xs as [|x xs IH]; intros w Hxs.
  - cbn. by rewrite overDb_id.
  - apply Forall_cons in Hxs as [Hx Hxs].
    cbn [forOf]. rewrite (bind_run _ _ _ _ _ (Hbody x w Hx)), (IH _ Hxs). reflexivity.
Qed.

(** Folding a step that only rewrites one table is folding over that
    table. *)
Lemma fold_left_table {A X} (get : Store → A) (set : A → Store → Store)
    (g : A → X → A) :
  (∀ a s, get (set a s) = a) →
  (∀ a b s, set a (set b s) = set a s) →
  (∀ s, set (get s) s = s) →
  ∀ xs s,
    List.fold_left (fun s x => set (g (get s) x) s) xs s
    = set (List.fold_left g xs (get s)) s.
Proof.
  intros Hget Hset Hid xs. induction xs as [|x xs IH]; intros s.
  - cbn. by rewrite Hid.
  - cbn [List.fold_left]. by rewrite IH, Hget, Hset.
Qed.

Lemma insertUnless_run {A} (repository : Store → Table.t A) set onInsert where_ row w :
  (∀ s, set (repository s) s = s) →
  (∀ rows id, onInsert rows (row id) = Column.Accepted (row id)) →
  (existing ← findOneIn repository where_;
   match existing with
   | None => saveIn repository set onInsert row;; mret tt
   | Some _ => mret tt
   end) w
  = (Ok tt, overDb (fun s => set (insertUnless where_ row (repository s)) s) w).
Proof.
  intros Hid Haccepted.
  rewrite (bind_run _ _ _ _ _ (findOneIn_run repository where_ w)).
  unfold overDb, insertUnless.
  destruct (Table.findOne where_ (repository (db w))) eqn:Hfound.
  - cbn. rewrite Hid. by destruct w.
  - by rewrite (bind_run _ _ _ _ _
                  (saveIn_run repository set onInsert row w (Haccepted _ _))).
Qed.

Lemma importPronunciation_run wordId pron w :
  fitsPronunciation pron = true →
  importPronunciation wordId pron w
  = (Ok tt,
     overDb (fun s =>
               setPronunciations
                 (insertUnless (pronunciationWhere wordId pron)
                    (pronunciationRow wordId pron) (pronunciationRepository s)) s) w).
Proof.
  intros Hfits. apply insertUnless_run; [by intros []|].
  intros rows id. by apply pronunciationRow_fits.
Qed.

Lemma importWordForm_run wordId entry w :
  fitsWordForm entry = true →
  importWordForm wordId entry w
  = (Ok tt,
     overDb (fun s =>
               setWordForms
                 (insertUnless (wordFormWhere wordId entry)
                    (wordFormRow wordId entry) (wordFormRepository s)) s) w).
Proof.
  intros Hfits. apply insertUnless_run; [by intros []|].
  intros rows id. by apply wordFormRow_fits.
Qed.

Lemma importSynonym_run wordId syn w :
  Column.fitsVarchar 255 syn = true →
  importSynonym wordId syn w
  = (Ok tt,
     overDb (fun s =>
               setSynonyms
                 (insertUnless (synonymWhere wordId syn)
                    (synonymRow wordId syn) (synonymRepository s)) s) w).
Proof.
  intros Hfits. apply insertUnless_run; [by intros []|].
  intros rows id. by apply synonymRow_fits.
Qed.

Lemma importExample_run definitionId ex w :
  fitsExample ex = true →
  importExample definitionId ex w
  = (Ok tt,
     overDb (fun s =>
               setExamples
                 (Table.append (exampleRow definitionId ex) (exampleRepository s)).2 s) w).
Proof.
  intros Hfits. unfold importExample.
  by rewrite (bind_run _ _ _ _ _
                (saveIn_run exampleRepository setExamples ExampleEntity.onInsert
                   (exampleRow definitionId ex) w (exampleRow_fits _ _ _ _ Hfits))).
Qed.

(** The guard [xs && xs.length > 0] around a loop changes nothing: the
    loop over a missing or empty list does nothing either. *)
Lemma guarded_forOf {X} (xs : option (list X)) (body : X → M unit) w :
  match xs with
  | Some ((_ :: _) as l) => forOf l body
  | _ => mret tt
  end w
  = forOf (default [] xs) body w.
Proof. by destruct xs as [[|x l]|]. Qed.

Lemma importDefinition_run wordId idef w :
  fitsDefinition idef.2 = true ∧ Column.fitsInteger (Z.of_nat idef.1 + 1) = true →
  importDefinition wordId idef w
  = (Ok tt, overDb (fun s => definitionStep wordId s idef) w).
Proof.
  intros [Hfits Horder]. unfold importDefinition.
  rewrite (bind_run _ _ _ _ _
             (saveIn_run definitionRepository setDefinitions DefinitionEntity.onInsert _ w
                (definitionRow_fits _ _ _ _ Hfits Horder))).
  rewrite guarded_forOf.
  rewrite (forOf_run _ _ _ (importExample_run _)).
  - rewrite overDb_overDb. unfold definitionStep, overDb. do 2 f_equal.
    unfold appendAll.
    rewrite (fold_left_table exampleRepository setExamples
               (fun tb x => (Table.append (exampleRow _ x) tb).2)); by try intros [].
  - unfold fitsDefinition in Hfits. apply andb_true_iff in Hfits as [_ Hexamples].
    by apply forallb_Forall.
Qed.

Lemma pronunciations_phase data wordId w :
  fits data = true →
  match ImportData.pronunciations data with
  | Some ((_ :: _) as pronunciations) =>
      forOf pronunciations (importPronunciation wordId)
  | _ => mret tt
  end w
  = (Ok tt,
     overDb (fun s =>
               setPronunciations
                 (upsertAll (pronunciationWhere wordId) (pronunciationRow wordId)
                    (default [] (ImportData.pronunciations data))
                    (pronunciationRepository s)) s) w).
Proof.
  intros (_ & Hfits & _)%fits_parts.
  rewrite guarded_forOf, (forOf_run _ _ _ (importPronunciation_run wordId) _ _ Hfits).
  unfold overDb, upsertAll. do 2 f_equal.
  by rewrite (fold_left_table pronunciationRepository setPronunciations
                (fun tb x => insertUnless (pronunciationWhere wordId x)
                               (pronunciationRow wordId x) tb))
    by by try intros [].
Qed.

Lemma definitions_phase data wordId w :
  fits data = true →
  match ImportData.definitions data with
  | Some ((_ :: _) as definitions) =>
      forOf (indexed definitions) (importDefinition wordId)
  | _ => mret tt
  end w
  = (Ok tt,
     overDb (fun s =>
               List.fold_left (definitionStep wordId)
                 (indexed (default [] (ImportData.definitions data))) s) w).
Proof.
  intros (_ & _ & Hfits & _)%fits_parts.
  rewrite <- (forOf_run _ _ _ (importDefinition_run wordId) _ _ Hfits).
  by destruct (ImportData.definitions data) as [[|d l]|].
Qed.

Lemma word_forms_phase data wordId w :
  fits data = true →
  match ImportData.word_forms data with
  | Some word_forms => forOf word_forms (importWordForm wordId)
  | None => mret tt
  end w
  = (Ok tt,
     overDb (fun s =>
               setWordForms
                 (upsertAll (wordFormWhere wordId) (wordFormRow wordId)
                    (default [] (ImportData.word_forms data))
                    (wordFormRepository s)) s) w).
Proof.
  intros (_ & _ & _ & Hfits & _)%fits_parts.
  transitivity (forOf (default [] (ImportData.word_forms data))
                  (importWordForm wordId) w).
  { by destruct (ImportData.word_forms data). }
  rewrite (forOf_run _ _ _ (importWordForm_run wordId) _ _ Hfits).
  unfold overDb, upsertAll. do 2 f_equal.
  by rewrite (fold_left_table wordFormRepository setWordForms
                (fun tb x => insertUnless (wordFormWhere wordId x)
                               (wordFormRow wordId x) tb))
    by by try intros [].
Qed.

Lemma synonyms_phase data wordId w :
  fits data = true →
  match ImportData.synonyms data with
  | Some ((_ :: _) as synonyms) => forOf synonyms (importSynonym wordId)
  | _ => mret tt
  end w
  = (Ok tt,
     overDb (fun s =>
               setSynonyms
                 (upsertAll (synonymWhere wordId) (synonymRow wordId)
                    (default [] (ImportData.synonyms data))
                    (synonymRepository s)) s) w).
Proof.
  intros (_ & _ & _ & _ & Hfits)%fits_parts.
  rewrite guarded_forOf, (forOf_run _ _ _ (importSynonym_run wordId) _ _ Hfits).
  unfold overDb, upsertAll. do 2 f_equal.
  by rewrite (fold_left_table synonymRepository setSynonyms
                (fun tb x => insertUnless (synonymWhere wordId x)
                               (synonymRow wordId x) tb))
    by by try intros [].
Qed.

Lemma word_phase data w :
  fits data = true →
  match Table.findOne (wordWhere (ImportData.word data)) (wordRepository (db w)) with
  | None => saveIn wordRepository setWords WordEntity.onInsert (newWord data)
  | Some existing => mret existing
  end w
  = (Ok (importedWord data (db w)),
     overDb (fun s => setWords (wordsAfter data s) s) w).
Proof.
  intros (Hfits & _)%fits_parts.
  unfold importedWord, wordsAfter, overDb.
  destruct (Table.findOne _ _) eqn:Hfound.
  - cbn. by destruct w as [[] ? ?].
  - rewrite saveIn_run; [reflexivity|]. apply Hfits.
    by destruct (wordRepository (db w)).
Qed.

(** The import of a payload that fits the columns succeeds, and its
    effect is [importStore]. *)
Lemma importWordData_run data w :
  fits data = true →
  importWordData data w
  = (Ok (ImportResult.mk true (ImportData.word data)),
     overDb (importStore data) w).
Proof.
  intros Hfits. unfold importWordData, tryCatch.
  rewrite (bind_run _ _ _ _ _ (findOneIn_run wordRepository _ w)).
  rewrite (bind_run _ _ _ _ _ (word_phase data w Hfits)).
  rewrite (bind_run _ _ _ _ _ (pronunciations_phase data _ _ Hfits)).
  rewrite (bind_run _ _ _ _ _ (definitions_phase data _ _ Hfits)).
  rewrite (bind_run _ _ _ _ _ (word_forms_phase data _ _ Hfits)).
  rewrite (bind_run _ _ _ _ _ (synonyms_phase data _ _ Hfits)).
  reflexivity.
Qed.

End ImportRun.

(** ** Import: check-before-insert on a table *)

Section Upsert.

Import ImportEffect.

Context {A X : Type} (where_ : X → A → bool) (row : X → Z → A).

(** A row saved for [x] is one the check for [x] finds. *)
Hypothesis where_row : ∀ x id, where_ x (row x id) = true.

Lemma find_app_l (p : A → bool) l l' r :
  List.find p l = Some r → List.find p (l ++ l') = Some r.
Proof.
  induction l as [|a l IH]; [done|]. cbn. by destruct (p a).
Qed.

Lemma find_app_r (p : A → bool) l l' :
  List.find p l = None → List.find p (l ++ l') = List.find p l'.
Proof.
  induction l as [|a l IH]; [done|]. cbn. by destruct (p a).
Qed.

Lemma insertUnless_rows q (mk : Z → A) tb :
  ∃ more, Table.rows (insertUnless q mk tb) = Table.rows tb ++ more
          ∧ Forall (fun r => ∃ id, r = mk id) more.
Proof.
  unfold insertUnless. destruct (Table.findOne q tb).
  - exists []. by rewrite app_nil_r.
  - exists [mk (Table.nextId tb)]. split; [done|]. repeat constructor. by eexists.
Qed.

Lemma insertUnless_keeps (p q : A → bool) (mk : Z → A) tb :
  is_Some (Table.findOne p tb) → is_Some (Table.findOne p (insertUnless q mk tb)).
Proof.
  intros [r Hr]. destruct (insertUnless_rows q mk tb) as (more & Hrows & _).
  exists r. unfold Table.findOne in *. rewrite Hrows. by apply find_app_l.
Qed.

Lemma insertUnless_found x tb :
  is_Some (Table.findOne (where_ x) (insertUnless (where_ x) (row x) tb)).
Proof.
  unfold insertUnless. destruct (Table.findOne (where_ x) tb) as [r|] eqn:Hfound.
  - by rewrite Hfound.
  - unfold Table.findOne in *. cbn. rewrite (find_app_r _ _ _ Hfound). cbn.
    by rewrite where_row.
Qed.


Lemma upsertAll_keeps (p : A → bool) xs tb :
  is_Some (Table.findOne p tb) → is_Some (Table.findOne p (upsertAll where_ row xs tb)).
Proof.
  revert tb. induction xs as [|x xs IH]; intros tb Hfound; [done|].
  cbn. by apply IH, insertUnless_keeps.
Qed.

(** After the loop every element has its row. *)
Lemma upsertAll_found xs tb x :
  x ∈ xs → is_Some (Table.findOne (where_ x) (upsertAll where_ row xs tb)).
Proof.
  revert tb. induction xs as [|y xs IH]; intros tb Hx; [by apply elem_of_nil in Hx|].
  apply elem_of_cons in Hx as [->|Hx]; cbn.
  - apply upsertAll_keeps, insertUnless_found.
  - by apply IH.
Qed.

(** If every element has its row already, the loop inserts nothing. *)
Lemma upsertAll_noop xs tb :
  (∀ x, x ∈ xs → is_Some (Table.findOne (where_ x) tb)) →
  upsertAll where_ row xs tb = tb.
Proof.
  induction xs as [|x xs IH]; intros Hall; [done|].
  cbn. unfold insertUnless at 2.
  destruct (Hall x) as [r ->]; [by left|].
  apply IH. intros y Hy. apply Hall. by right.
Qed.

Lemma upsertAll_idempotent xs tb :
  upsertAll where_ row xs (upsertAll where_ row xs tb) = upsertAll where_ row xs tb.
Proof. apply upsertAll_noop. intros x Hx. by apply upsertAll_found. Qed.


(** Unconditional inserts append one row per element, in order. *)
Lemma appendAll_rows {B} (f : A → B) xs tb :
  (∀ x id id', f (row x id) = f (row x id')) →
  ∃ batch, Table.rows (appendAll row xs tb) = Table.rows tb ++ batch
           ∧ List.map f batch = List.map (fun x => f (row x 0)) xs
           ∧ Forall (fun r => ∃ x id, x ∈ xs ∧ r = row x id) batch.
Proof.
  intros Hf. revert tb. induction xs as [|x xs IH]; intros tb.
  - exists []. by rewrite app_nil_r.
  - cbn [appendAll List.fold_left].
    destruct (IH (Table.append (row x) tb).2) as (batch & Hrows & Hmap & Hall).
    exists (row x (Table.nextId tb) :: batch).
    unfold appendAll in Hrows. rewrite Hrows. cbn. rewrite <- app_assoc.
    split; [done|]. split.
    + by rewrite Hmap, (Hf x _ 0).
    + constructor.
      * exists x, (Table.nextId tb). split; [by left|done].
      * eapply Forall_impl; [exact Hall|]. intros r (y & id & Hy & ->).
        exists y, id. split; [by right|done].
Qed.

End Upsert.

(** ** Import: what each repository looks like afterwards *)

Section ImportStore.

Import DictionaryService ImportEffect.

Lemma definitionSteps_frame wordId idefs s :
  let s' := List.fold_left (definitionStep wordId) idefs s in
  wordRepository s' = wordRepository s
  ∧ pronunciationRepository s' = pronunciationRepository s
  ∧ wordFormRepository s' = wordFormRepository s
  ∧ synonymRepository s' = synonymRepository s
  ∧ definitionRepository s'
    = appendAll (definitionRow wordId) idefs (definitionRepository s).
Proof.
  revert s. induction idefs as [|idef idefs IH]; intros s; [done|].
  cbn [List.fold_left]. destruct (IH (definitionStep wordId s idef))
    as (Hw & Hp & Hf & Hs & Hd).
  cbv zeta. by rewrite Hw, Hp, Hf, Hs, Hd.
Qed.

Lemma importStore_words data s :
  wordRepository (importStore data s) = wordsAfter data s.
Proof.
  unfold importStore. cbn [wordRepository setSynonyms setWordForms].
  by rewrite (proj1 (definitionSteps_frame _ _ _)).
Qed.

Lemma importStore_pronunciations data s :
  pronunciationRepository (importStore data s)
  = upsertAll (pronunciationWhere (WordEntity.id (importedWord data s)))
      (pronunciationRow (WordEntity.id (importedWord data s)))
      (default [] (ImportData.pronunciations data)) (pronunciationRepository s).
Proof.
  unfold importStore. cbn [pronunciationRepository setSynonyms setWordForms].
  by rewrite (proj1 (proj2 (definitionSteps_frame _ _ _))).
Qed.

Lemma importStore_definitions data s :
  definitionRepository (importStore data s)
  = appendAll (definitionRow (WordEntity.id (importedWord data s)))
      (indexed (default [] (ImportData.definitions data))) (definitionRepository s).
Proof.
  unfold importStore. cbn [definitionRepository setSynonyms setWordForms].
  by rewrite (proj2 (proj2 (proj2 (proj2 (definitionSteps_frame _ _ _))))).
Qed.

Lemma importStore_wordForms data s :
  wordFormRepository (importStore data s)
  = upsertAll (wordFormWhere (WordEntity.id (importedWord data s)))
      (wordFormRow (WordEntity.id (importedWord data s)))
      (default [] (ImportData.word_forms data)) (wordFormRepository s).
Proof.
  unfold importStore. cbn [wordFormRepository setSynonyms setWordForms].
  by rewrite (proj1 (proj2 (proj2 (definitionSteps_frame _ _ _)))).
Qed.

Lemma importStore_synonyms data s :
  synonymRepository (importStore data s)
  = upsertAll (synonymWhere (WordEntity.id (importedWord data s)))
      (synonymRow (WordEntity.id (importedWord data s)))
      (default [] (ImportData.synonyms data)) (synonymRepository s).
Proof.
  unfold importStore. cbn [synonymRepository setSynonyms setWordForms].
  by rewrite (proj1 (proj2 (proj2 (proj2 (definitionSteps_frame _ _ _))))).
Qed.

(** A second import finds the word row of the first. *)
Lemma importedWord_again data s :
  importedWord data (importStore data s) = importedWord data s.
Proof.
  unfold importedWord at 1. rewrite importStore_words.
  unfold wordsAfter, importedWord.
  destruct (Table.findOne _ (wordRepository s)) as [existing|] eqn:Hfound.
  - by rewrite Hfound.
  - unfold Table.findOne in *. cbn. rewrite (find_app_r _ _ _ Hfound). cbn.
    unfold wordWhere at 1. cbn. by rewrite bool_decide_eq_true_2.
Qed.

Lemma pronunciationWhere_row wordId pron id :
  pronunciationWhere wordId pron (pronunciationRow wordId pron id) = true.
Proof. unfold pronunciationWhere. cbn. by rewrite !bool_decide_eq_true_2. Qed.

Lemma wordFormWhere_row wordId entry id :
  wordFormWhere wordId entry (wordFormRow wordId entry id) = true.
Proof. unfold wordFormWhere. cbn. by rewrite !bool_decide_eq_true_2. Qed.

Lemma synonymWhere_row wordId syn id :
  synonymWhere wordId syn (synonymRow wordId syn id) = true.
Proof. unfold synonymWhere. cbn. by rewrite !bool_decide_eq_true_2. Qed.

(** The orders of the rows made from an indexed list are 1, 2, ... *)
Lemma indexed_orders {B} (xs : list B) (k : nat) :
  List.map (fun ix : nat * B => Z.of_nat ix.1 + 1)
    (List.combine (List.seq k (length xs)) xs)
  = List.map Z.of_nat (List.seq (S k) (length xs)).
Proof.
  revert k. induction xs as [|x xs IH]; intros k; [done|].
  cbn. rewrite IH. f_equal. lia.
Qed.

Lemma indexed_snd {B} (xs : list B) (k : nat) :
  List.map snd (List.combine (List.seq k (length xs)) xs) = xs.
Proof.
  revert k. induction xs as [|x xs IH]; intros k; [done|]. cbn. by rewrite IH.
Qed.

End ImportStore.

(** ** The import claims *)

Section ImportClaims.

Import DictionaryService ImportEffect.

(** C1 as stated fails: a payload with a value a column rejects.  The
    accent [en-Australia] is longer than the ten characters of its column:
    both imports create or find the word row, fail at the pronunciation and
    never reach the definitions, so no definition is stored at all, let
    alone twice. *)
Lemma import_rejected_counterexample :
  let first := importWordData Fixture.tomatoData emptyWorld in
  let second := importWordData Fixture.tomatoData first.2 in
  length (default [] (ImportData.definitions Fixture.tomatoData)) = 1%nat
  ∧ first.1
    = Throw (HttpException
               "Failed to import word: value too long for type character varying(10)"
               INTERNAL_SERVER_ERROR)
  ∧ second.1 = first.1
  ∧ List.map WordEntity.word (Table.rows (wordRepository (db second.2))) = ["tomato"]
  ∧ Table.rows (definitionRepository (db second.2)) = [].
Proof. vm_compute. repeat split. Qed.

(** C1, amended.  For a payload whose values the columns store as they
    are, importing it a second time succeeds, leaves the pronunciation,
    word-form and synonym tables exactly as the first import left them, and
    appends to the definition table one more row per payload definition,
    numbered 1, 2, ... in payload order: the same rows, up to their ids,
    that the first import appended. *)
Theorem importWordData_partial_idempotence (data : ImportData.t) (w : World) :
  let w1 := (importWordData data w).2 in
  let second := importWordData data w1 in
  let w2 := second.2 in
  let definitions := default [] (ImportData.definitions data) in
  fits data = true →
  second.1 = Ok (ImportResult.mk true (ImportData.word data))
  ∧ pronunciationRepository (db w2) = pronunciationRepository (db w1)
  ∧ wordFormRepository (db w2) = wordFormRepository (db w1)
  ∧ synonymRepository (db w2) = synonymRepository (db w1)
  ∧ ∃ batch1 batch2,
      Table.rows (definitionRepository (db w1))
      = Table.rows (definitionRepository (db w)) ++ batch1
      ∧ Table.rows (definitionRepository (db w2))
        = Table.rows (definitionRepository (db w1)) ++ batch2
      ∧ List.map DefinitionEntity.definitionOrder batch2
        = List.map Z.of_nat (List.seq 1 (length definitions))
      ∧ List.map
          (fun d => (DefinitionEntity.partOfSpeech d, DefinitionEntity.definitionEn d,
                     DefinitionEntity.definitionVi d))
          batch2
        = List.map
            (fun def => (ImportData.pos def, ImportData.definition_en def,
                         ImportData.definition_vi def))
            definitions
      ∧ List.map definitionContent batch2 = List.map definitionContent batch1.
Proof.
  intros w1 second w2 definitions Hfits. unfold w2, second, w1.
  rewrite !(importWordData_run _ _ Hfits). cbn [fst snd]. unfold overDb. cbn [db].
  set (s := db w). set (wordId := WordEntity.id (importedWord data s)).
  split; [done|].
  split.
  { rewrite !importStore_pronunciations, importedWord_again.
    apply upsertAll_idempotent, pronunciationWhere_row. }
  split.
  { rewrite !importStore_wordForms, importedWord_again.
    apply upsertAll_idempotent, wordFormWhere_row. }
  split.
  { rewrite !importStore_synonyms, importedWord_again.
    apply upsertAll_idempotent, synonymWhere_row. }
  rewrite !importStore_definitions, importedWord_again. fold wordId.
  destruct (appendAll_rows (definitionRow wordId) definitionContent
              (indexed definitions) (definitionRepository s))
    as (batch1 & Hrows1 & Hcontent1 & _); [done|].
  destruct (appendAll_rows (definitionRow wordId) definitionContent
              (indexed definitions)
              (appendAll (definitionRow wordId) (indexed definitions)
                 (definitionRepository s)))
    as (batch2 & Hrows2 & Hcontent2 & _); [done|].
  exists batch1, batch2. split; [done|]. split; [done|].
  split; [|split].
  - transitivity (List.map (fun c : Z * string * string * string * string * Z => c.2)
                    (List.map definitionContent batch2)).
    { by rewrite List.map_map. }
    rewrite Hcontent2, List.map_map. cbn. apply indexed_orders.
  - transitivity (List.map
                    (fun c : Z * string * string * string * string * Z =>
                       (c.1.1.1.1.2, c.1.1.1.2, c.1.1.2))
                    (List.map definitionContent batch2)).
    { by rewrite List.map_map. }
    rewrite Hcontent2, List.map_map. cbn.
    rewrite <- (indexed_snd definitions 0) at 2. by rewrite List.map_map.
  - by rewrite Hcontent1, Hcontent2.
Qed.



End ImportClaims.

(** The first import of [hello] creates the word row; the second finds it
    and leaves the word table alone. *)
Lemma importWordData_partial_idempotence_witness :
  let second := DictionaryService.importWordData Fixture.helloData Fixture.helloWorld in
  second.1 = Ok (ImportResult.mk true "hello")
  ∧ pronunciationRepository (db second.2) = pronunciationRepository (db Fixture.helloWorld)
  ∧ List.map DefinitionEntity.definitionOrder
      (Table.rows (definitionRepository (db second.2))) = [1; 1].
Proof.
  intros second.
  pose proof (importWordData_partial_idempotence Fixture.helloData emptyWorld eq_refl)
    as (Hok & Hprons & _ & _ & _).
  split; [exact Hok|]. split; [exact Hprons|]. reflexivity.
Defined.


(** ** Worked examples *)

Example trim_example : JSString.trim "  a b " = "a b".
Proof. reflexivity. Qed.

Example toLowerCase_example : JSString.toLowerCase "Hello" = "hello".
Proof. reflexivity. Qed.

Example match_example :
  RegExp.match_ RegExp.jsonObject "a } b { c } d { e } f" = Some "{ c } d { e }".
Proof. reflexivity. Qed.

Example match_none_example :
  RegExp.match_ RegExp.jsonObject "a } b { c" = None.
Proof. reflexivity. Qed.

Example sort_example :
  JSArray.sort (fun a b : Z * string => a.1 - b.1)
    [(2, "b"); (1, "a"); (2, "c"); (1, "d")]
  = [(1, "a"); (1, "d"); (2, "b"); (2, "c")].
Proof. reflexivity. Qed.

(** Scenario 1: only a UK recording is known, and both pronunciations get
    it; the store remembers it. *)
Example scenario_uk_only :
  let looked :=
    DictionaryService.lookupWord "phi-3" Fixture.postProse Fixture.getUkOnly
      MiniJson.value MiniJson.parse "Hello" Fixture.helloWorld in
  (match looked.1 with
   | Ok (DictionaryService.Assembled _ dto) =>
       List.map PronunciationDto.audio_url (LookupWordResponseDto.pronunciations dto)
   | _ => []
   end) = [Some Fixture.ukUrl; Some Fixture.ukUrl]
  ∧ List.map PronunciationEntity.audioUrl
      (Table.rows (pronunciationRepository (db looked.2)))
    = [Some Fixture.ukUrl; Some Fixture.ukUrl]
  ∧ audioCalls looked.2 = ["hello"; "hello"].
Proof. split; [|split]; reflexivity. Qed.

(** Scenario 3: the same word imported twice with the same accent leaves
    one pronunciation row for that accent. *)
Example scenario_import_twice :
  let w2 :=
    (DictionaryService.importWordData Fixture.helloData Fixture.helloWorld).2 in
  List.map PronunciationEntity.accent
    (Table.rows (pronunciationRepository (db w2))) = ["US"; "UK"]
  ∧ List.map DefinitionEntity.definitionOrder
      (Table.rows (definitionRepository (db w2))) = [1; 1].
Proof. split; reflexivity. Qed.

(** * Further properties of the services *)

(** ** AudioService: what ends up in the buckets *)

Section AudioBuckets.

Import AudioService.

Lemma audioUrlsOf_truthy data : Forall (fun u => JSString.truthy u = true) (audioUrlsOf data).
Proof.
  unfold audioUrlsOf. apply Forall_forall. intros u Hu%list_elem_of_In.
  apply in_flat_map in Hu as (entry & _ & Hu).
  apply in_flat_map in Hu as (ph & _ & Hu).
  destruct (audio ph) as [v|]; [|done].
  destruct (JSString.truthy v) eqn:Hv; [|done].
  by destruct Hu as [<-|[]].
Qed.

Lemma lastWhere_snoc {A} (test : A → bool) l x :
  lastWhere test (l ++ [x]) = if test x then Some x else lastWhere test l.
Proof. unfold lastWhere. by rewrite rev_unit. Qed.

Lemma lastWhere_elem {A} (test : A → bool) l x :
  lastWhere test l = Some x → In x l ∧ test x = true.
Proof.
  unfold lastWhere. intros [Hin Htest]%find_some. split; [|done].
  by apply in_rev.
Qed.

Lemma fold_place_sound urls :
  Forall (fun u => JSString.truthy u = true) urls →
  bucketsSound (List.fold_left place urls noUrls).
Proof.
  intros Hurls. assert (H0 : bucketsSound noUrls) by (split; intros ? [=]).
  revert H0. generalize noUrls. induction Hurls as [|u urls Hu _ IH]; intros r Hr; [done|].
  cbn [List.fold_left]. by apply IH, place_sound.
Qed.

(** The buckets after the loops, read off the list of URLs. *)
Lemma fold_place_buckets urls :
  Forall (fun u => JSString.truthy u = true) urls →
  let result := List.fold_left place urls noUrls in
  us result
  = match lastWhere hintsUS urls with
    | Some u => Some u
    | None =>
        match urls with
        | u :: _ => if hintsUK u then None else Some u
        | [] => None
        end
    end
  ∧ uk result = lastWhere (fun u => negb (hintsUS u) && hintsUK u) urls.
Proof.
  induction urls as [|u urls IH] using rev_ind; intros Hurls; [done|].
  apply Forall_app in Hurls as [Hurls Hu]. apply Forall_inv in Hu.
  specialize (IH Hurls). cbv zeta in IH. destruct IH as [IHus IHuk].
  pose proof (fold_place_sound urls Hurls) as [Hsus Hsuk].
  cbv zeta. rewrite fold_left_app. cbn [List.fold_left].
  rewrite !lastWhere_snoc.
  remember (List.fold_left place urls noUrls) as r eqn:Hr.
  unfold place, bucketFor.
  destruct (hintsUS u) eqn:HUS; cbn [negb andb].
  { split; [done|]. cbn [uk]. exact IHuk. }
  destruct (hintsUK u) eqn:HUK; cbn [negb andb].
  { split; [|done]. cbn [us]. rewrite IHus.
    destruct (lastWhere hintsUS urls); [done|].
    destruct urls as [|v urls']; [|done]. cbn. by rewrite HUK. }
  rewrite (truthyOpt_sound _ Hsus), (truthyOpt_sound _ Hsuk).
  destruct (lastWhere hintsUS urls) as [x|] eqn:Hlast.
  { (* a US-hinted URL came earlier: the US bucket is set *)
    rewrite IHus. cbn. by rewrite IHus. }
  destruct urls as [|v urls'].
  { (* the very first URL *)
    subst r. cbn. by rewrite HUK. }
  assert (HvUS : hintsUS v = false).
  { unfold lastWhere in Hlast.
    eapply find_none in Hlast; [exact Hlast|].
    apply in_rev. rewrite rev_involutive. by left. }
  cbn [app].
  destruct (hintsUK v) eqn:HvUK.
  - (* the first URL went to the UK bucket, which is therefore set *)
    change (us r = None) in IHus. rewrite IHus. destruct (uk r) as [b|] eqn:Hruk.
    { cbn. by rewrite IHus, Hruk. }
    exfalso. symmetry in IHuk. unfold lastWhere in IHuk.
    eapply find_none in IHuk; [|apply in_rev; rewrite rev_involutive; by left].
    cbn in IHuk. by rewrite HvUS, HvUK in IHuk.
  - (* the first URL was taken as the US default *)
    change (us r = Some v) in IHus. rewrite IHus. cbn. by rewrite IHus.
Qed.

End AudioBuckets.

Section AudioExtras.

Import AudioService.

Variable httpGet : nat → string → HttpOutcome (list FreeDictionaryApiResponse).

Lemma extract_buckets_of data :
  us (extract data)
  = match lastWhere hintsUS (audioUrlsOf data) with
    | Some u => Some u
    | None =>
        match audioUrlsOf data with
        | u :: _ => if hintsUK u then None else Some u
        | [] => None
        end
    end
  ∧ uk (extract data)
    = lastWhere (fun u => negb (hintsUS u) && hintsUK u) (audioUrlsOf data).
Proof.
  rewrite extract_fold.
  apply (fold_place_buckets (audioUrlsOf data)), audioUrlsOf_truthy.
Qed.

(** X1.  The buckets that come out of a response.  The US bucket holds the
    last URL with a US hint; if there is none, it holds the very first URL
    provided that one has no UK hint either; otherwise it is not set.  The
    UK bucket holds the last URL that has a UK hint and no US hint. *)
Theorem extract_buckets (data : list FreeDictionaryApiResponse) :
  let urls := audioUrlsOf data in
  us (extract data)
  = match lastWhere hintsUS urls with
    | Some u => Some u
    | None =>
        match urls with
        | u :: _ => if hintsUK u then None else Some u
        | [] => None
        end
    end
  ∧ uk (extract data) = lastWhere (fun u => negb (hintsUS u) && hintsUK u) urls.
Proof.
  intros urls. rewrite extract_fold.
  apply (fold_place_buckets urls), audioUrlsOf_truthy.
Qed.

Lemma extract_bucket_elem data u :
  us (extract data) = Some u ∨ uk (extract data) = Some u →
  In u (audioUrlsOf data) ∧ JSString.truthy u = true.
Proof.
  intros Hu.
  assert (Hin : In u (audioUrlsOf data)).
  { destruct (extract_buckets_of data) as [Hus Huk].
    destruct Hu as [Hu|Hu].
    - rewrite Hus in Hu. destruct (lastWhere hintsUS _) as [x|] eqn:Hlast.
      + simplify_eq. by apply lastWhere_elem in Hlast as [? _].
      + destruct (audioUrlsOf data) as [|v l]; [done|].
        destruct (hintsUK v); [done|]. simplify_eq. by left.
    - rewrite Huk in Hu. by apply lastWhere_elem in Hu as [? _]. }
  split; [done|].
  pose proof (audioUrlsOf_truthy data) as Hall.
  rewrite List.Forall_forall in Hall. by apply Hall.
Qed.

(** X2.  Whatever [getAudioUrl] answers other than [null] is a non-empty
    [audio] value of the response to the request it has just sent. *)
Theorem getAudioUrl_from_response (word accent : string) (w w' : World) (u : string) :
  getAudioUrl httpGet word accent w = (Ok (Some u), w') →
  ∃ data,
    httpGet (length (audioCalls w)) word = HttpOk data
    ∧ In u (audioUrlsOf data)
    ∧ JSString.truthy u = true
    ∧ w' = audioRequested word w.
Proof.
  destruct (getAudioUrl_run httpGet word accent w) as (urls & Hfetch & ->).
  rewrite fetchAudio_run in Hfetch. intros Hres. simplify_eq.
  destruct (httpGet _ _) as [data|message] eqn:Hget.
  - exists data. split; [done|].
    assert (Hu : us (extract data) = Some u ∨ uk (extract data) = Some u).
    { destruct (decide (accent = "US"));
        destruct (us (extract data)), (uk (extract data)); simplify_eq; auto. }
    destruct (extract_bucket_elem data u Hu). done.
  - exfalso. destruct (decide (accent = "US")); cbn in *; congruence.
Qed.

(** X3.  Only the accent [US] prefers the US bucket: any other accent
    string is resolved exactly like [UK]. *)
Theorem getAudioUrl_other_accent (word accent : string) (w : World) :
  accent ≠ "US" →
  getAudioUrl httpGet word accent w = getAudioUrl httpGet word "UK" w.
Proof.
  intros Hother. unfold getAudioUrl, mbind, M_bind, bind.
  destruct (fetchAudioFromFreeDictionary httpGet word w) as [[urls|e] w']; [|done].
  by rewrite !decide_False.
Qed.

End AudioExtras.

Lemma getAudioUrl_from_response_witness :
  ∃ data,
    Fixture.getUkOnly (length (audioCalls emptyWorld)) "hello" = HttpOk data
    ∧ In Fixture.ukUrl (AudioService.audioUrlsOf data)
    ∧ JSString.truthy Fixture.ukUrl = true
    ∧ audioRequested "hello" emptyWorld = audioRequested "hello" emptyWorld.
Proof.
  apply (getAudioUrl_from_response Fixture.getUkOnly "hello" "US" emptyWorld).
  reflexivity.
Defined.

Lemma getAudioUrl_other_accent_witness :
  AudioService.getAudioUrl Fixture.getUkOnly "hello" "AU" emptyWorld
  = AudioService.getAudioUrl Fixture.getUkOnly "hello" "UK" emptyWorld.
Proof. apply getAudioUrl_other_accent. discriminate. Defined.

(** ** getWordAudio *)

Section WordAudioExtras.

Import DictionaryService.

Variable httpGet : nat → string → HttpOutcome (list FreeDictionaryApiResponse).


End WordAudioExtras.

(** ** translate *)

Section TranslateExtras.

Import DictionaryService.

Variable vllmModel : string.
Variable httpPost : nat → VLLMCompletionRequest → HttpOutcome VLLMCompletionResponse.
Variable inheritedProperty : string → option string.

Local Abbreviation translate := (translate vllmModel httpPost inheritedProperty).
Local Abbreviation translationRequest := (translationRequest vllmModel inheritedProperty).

(** X5.  When the completion endpoint answers with at least one choice,
    [translate] returns the text and the two language codes as given and
    the first choice's text, trimmed, as the translation.  It has sent one
    request, with a budget of 500 tokens, and has not touched the store. *)
Theorem translate_result (dto : TranslateDto.t) (w : World)
    (first : VLLMChoice) (rest : list VLLMChoice) :
  httpPost (length (vllmCalls w)) (translationRequest dto)
  = HttpOk (mkResponse (first :: rest)) →
  translate dto w
  = (Ok (TranslateResponseDto.mk (TranslateDto.text dto) (JSString.trim (text first))
           (TranslateDto.source_lang dto) (TranslateDto.target_lang dto)),
     completionRequested (translationRequest dto) w)
  ∧ max_tokens (translationRequest dto) = 500
  ∧ db (translate dto w).2 = db w.
Proof.
  intros Hreply.
  assert (Hrun : translate dto w
    = (Ok (TranslateResponseDto.mk (TranslateDto.text dto) (JSString.trim (text first))
             (TranslateDto.source_lang dto) (TranslateDto.target_lang dto)),
       completionRequested (translationRequest dto) w)).
  { unfold DictionaryService.translate, tryCatch, post, mbind, M_bind, bind.
    by rewrite Hreply. }
  split; [done|]. split; [done|]. by rewrite Hrun.
Qed.

(** X6.  [translate] fails only when the request fails or the answer has
    no choice, and every failure is the [HttpException] with status 500
    whose message is "Failed to translate text: " followed by the
    underlying message.  The request is on record all the same. *)
Theorem translate_failure (dto : TranslateDto.t) (w w' : World) (e : Exn) :
  translate dto w = (Throw e, w') →
  ∃ message,
    e = HttpException ("Failed to translate text: " +:+ message) INTERNAL_SERVER_ERROR
    ∧ w' = completionRequested (translationRequest dto) w
    ∧ (httpPost (length (vllmCalls w)) (translationRequest dto) = HttpFail message
       ∨ (httpPost (length (vllmCalls w)) (translationRequest dto)
          = HttpOk (mkResponse [])
          ∧ message = "Cannot read properties of undefined (reading 'text')")).
Proof.
  unfold DictionaryService.translate, tryCatch, post, mbind, M_bind, bind.
  destruct (httpPost _ _) as [[[|first rest]]|message] eqn:Hreply; cbn.
  - intros [= <- <-]. eexists. split; [reflexivity|]. split; [done|]. by right.
  - intros [=].
  - intros [= <- <-]. exists message. split; [reflexivity|]. split; [done|]. by left.
Qed.

End TranslateExtras.

Lemma translate_result_witness :
  DictionaryService.translate "phi-3" Fixture.postTranslation Fixture.noInherited
    Fixture.helloTranslation emptyWorld
  = (Ok (TranslateResponseDto.mk "Hello" "Xin chao" "en" "vi"),
     completionRequested
       (DictionaryService.translationRequest "phi-3" Fixture.noInherited
          Fixture.helloTranslation) emptyWorld).
Proof.
  apply (translate_result "phi-3" Fixture.postTranslation Fixture.noInherited
           Fixture.helloTranslation emptyWorld (mkChoice " Xin chao " "stop") []).
  reflexivity.
Defined.

Lemma translate_failure_witness :
  ∃ message,
    HttpException "Failed to translate text: timeout of 30000ms exceeded" 500
    = HttpException ("Failed to translate text: " +:+ message) INTERNAL_SERVER_ERROR
    ∧ completionRequested
        (DictionaryService.translationRequest "phi-3" Fixture.noInherited
           Fixture.helloTranslation) emptyWorld
      = completionRequested
          (DictionaryService.translationRequest "phi-3" Fixture.noInherited
             Fixture.helloTranslation) emptyWorld
    ∧ (Fixture.postDown (length (vllmCalls emptyWorld))
         (DictionaryService.translationRequest "phi-3" Fixture.noInherited
            Fixture.helloTranslation)
       = HttpFail message
       ∨ (Fixture.postDown (length (vllmCalls emptyWorld))
            (DictionaryService.translationRequest "phi-3" Fixture.noInherited
               Fixture.helloTranslation)
          = HttpOk (mkResponse [])
          ∧ message = "Cannot read properties of undefined (reading 'text')")).
Proof.
  apply (translate_failure "phi-3" Fixture.postDown Fixture.noInherited
           Fixture.helloTranslation emptyWorld).
  reflexivity.
Defined.

(** ** Sorting with any comparator that is a total preorder *)

Section SortGeneral.

Context {A : Type} (compareFn : A → A → Z).

Lemma insert_Permutation_gen x l : JSArray.insert compareFn x l ≡ₚ x :: l.
Proof.
  induction l as [|y l IH]; [done|].
  cbn [JSArray.insert]. destruct (decide _); [|done].
  rewrite IH. apply Permutation_swap.
Qed.

Lemma sort_Permutation_gen l : JSArray.sort compareFn l ≡ₚ l.
Proof.
  induction l as [|x l IH]; [done|].
  cbn [JSArray.sort List.fold_right]. rewrite insert_Permutation_gen.
  by apply Permutation_skip.
Qed.

Hypothesis compare_total : ∀ a b, 0 < compareFn a b → compareFn b a ≤ 0.
Hypothesis compare_trans :
  ∀ a b c, compareFn a b ≤ 0 → compareFn b c ≤ 0 → compareFn a c ≤ 0.

Lemma insert_StronglySorted_gen x l :
  StronglySorted (fun a b => compareFn a b ≤ 0) l →
  StronglySorted (fun a b => compareFn a b ≤ 0) (JSArray.insert compareFn x l).
Proof.
  induction l as [|y l IH]; intros Hl.
  - repeat constructor.
  - apply StronglySorted_inv in Hl as [Hl Hy].
    cbn [JSArray.insert]. destruct (decide (0 < compareFn x y)) as [Hlt|Hge].
    + constructor; [by apply IH|].
      rewrite insert_Permutation_gen. constructor; [|done]. by apply compare_total.
    + constructor; [by constructor|].
      assert (Hxy : compareFn x y ≤ 0) by lia.
      constructor; [done|].
      eapply Forall_impl; [exact Hy|]. intros z Hz. by eapply compare_trans.
Qed.

Lemma sort_StronglySorted_gen l :
  StronglySorted (fun a b => compareFn a b ≤ 0) (JSArray.sort compareFn l).
Proof.
  induction l as [|x l IH]; [constructor|].
  cbn [JSArray.sort List.fold_right]. by apply insert_StronglySorted_gen.
Qed.

End SortGeneral.

(** ** searchWords *)

Section LikeFacts.

Lemma like_percent_cons pattern subject :
  Sql.like (String Sql.percent pattern) subject
  = Sql.like pattern subject
    || match subject with
       | EmptyString => false
       | String _ subject' => Sql.like (String Sql.percent pattern) subject'
       end.
Proof. by destruct subject. Qed.

Lemma like_plain_cons c pattern subject :
  c ≠ Sql.percent → c ≠ Sql.underscore → c ≠ Sql.backslash →
  Sql.like (String c pattern) subject
  = match subject with
    | EmptyString => false
    | String d subject' => bool_decide (c = d) && Sql.like pattern subject'
    end.
Proof.
  intros H1 H2 H3. cbn [Sql.like]. by rewrite !decide_False.
Qed.

Lemma like_percent_all subject : Sql.like "%" subject = true.
Proof.
  induction subject as [|c subject IH]; [done|].
  change (Sql.like "%" (String c subject))
    with (Sql.like EmptyString (String c subject) || Sql.like "%" subject).
  by rewrite IH, orb_true_r.
Qed.

(** A pattern without metacharacters, followed by [%], is a prefix test. *)
Lemma like_literal_prefix query subject :
  Sql.literal query = true →
  Sql.like (query +:+ "%") subject = JSString.startsWith subject query.
Proof.
  revert subject. induction query as [|c query IH]; intros subject Hlit.
  - rewrite app_empty_l, like_percent_all. by destruct subject.
  - cbn [Sql.literal] in Hlit.
    apply andb_true_iff in Hlit as [Hc Hlit].
    apply andb_true_iff in Hc as [Hc H3]. apply andb_true_iff in Hc as [H1 H2].
    apply negb_true_iff, bool_decide_eq_false in H1, H2, H3.
    rewrite app_cons, like_plain_cons by done.
    destruct subject as [|d subject]; [done|].
    cbn [JSString.startsWith]. rewrite IH by done.
    by destruct (decide (c = d));
      [rewrite bool_decide_eq_true_2|rewrite bool_decide_eq_false_2].
Qed.

(** With a leading [%] it is a substring test. *)
Lemma like_literal_infix query subject :
  Sql.literal query = true →
  Sql.like ("%" +:+ query +:+ "%") subject = JSString.includes subject query.
Proof.
  intros Hlit. induction subject as [|c subject IH].
  - change ("%" +:+ query +:+ "%") with (String Sql.percent (query +:+ "%")).
    rewrite like_percent_cons, like_literal_prefix by done.
    cbn [JSString.includes]. by rewrite orb_false_r.
  - change ("%" +:+ query +:+ "%") with (String Sql.percent (query +:+ "%")) in *.
    rewrite like_percent_cons, like_literal_prefix, IH by done.
    reflexivity.
Qed.

Lemma ascNullsLast_total (a b : option Z) :
  0 < Sql.ascNullsLast a b → Sql.ascNullsLast b a ≤ 0.
Proof. destruct a, b; cbn; lia. Qed.

Lemma ascNullsLast_trans (a b c : option Z) :
  Sql.ascNullsLast a b ≤ 0 → Sql.ascNullsLast b c ≤ 0 → Sql.ascNullsLast a c ≤ 0.
Proof. destruct a, b, c; cbn; lia. Qed.

Lemma orderBy_Permutation {A} (key : A → option Z) rows :
  Sql.orderBy key rows ≡ₚ rows.
Proof. apply sort_Permutation_gen. Qed.

Lemma orderBy_StronglySorted {A} (key : A → option Z) rows :
  StronglySorted (fun a b => Sql.notAfter (key a) (key b)) (Sql.orderBy key rows).
Proof.
  apply (sort_StronglySorted_gen (fun a b => Sql.ascNullsLast (key a) (key b))).
  - intros a b. apply ascNullsLast_total.
  - intros a b c. apply ascNullsLast_trans.
Qed.

End LikeFacts.

Section SearchExtras.

Import DictionaryService.

Lemma commonWords_NoDup : NoDup commonWords.
Proof. by apply (bool_decide_unpack _). Qed.

Lemma limitOf_positive dto : (1 ≤ limitOf dto)%nat.
Proof. unfold limitOf. destruct (SearchWordDto.limit dto) as [[|n]|]; lia. Qed.

(** X7.  With no stored word matching, the suggestions come from the
    built-in list: they are common words that start with the lowercased
    query, without repetition, at most [limit] of them (10 when no limit or
    0 is given), and all such words when they are fewer than the limit. *)
Theorem searchWords_fallback (dto : SearchWordDto.t) (w : World) :
  let query := JSString.toLowerCase (SearchWordDto.q dto) in
  let limit := limitOf dto in
  Table.find (searchWhere query) (wordRepository (db w)) = [] →
  ∃ suggestions,
    searchWords dto w = (Ok (SearchWordResponseDto.mk suggestions), w)
    ∧ Forall (fun word => In word commonWords
                          ∧ JSString.startsWith word query = true) suggestions
    ∧ NoDup suggestions
    ∧ (length suggestions ≤ limit)%nat
    ∧ ((length suggestions < limit)%nat →
       ∀ word, In word commonWords → JSString.startsWith word query = true →
               In word suggestions).
Proof.
  intros query limit Hnone.
  set (candidates := List.filter (fun word => JSString.startsWith word query) commonWords).
  exists (List.firstn limit candidates).
  split.
  { unfold searchWords, tryCatch. rewrite bind_getStore.
    unfold searchQuery. fold query. rewrite Hnone.
    change (Sql.orderBy WordEntity.frequencyRank []) with (@nil WordEntity.t).
    by rewrite take_nil. }
  split.
  { apply List.Forall_forall. intros word Hin.
    assert (Hcand : In word candidates).
    { apply list_elem_of_In.
      apply (sublist_subseteq _ _ (sublist_take candidates limit)).
      by apply list_elem_of_In. }
    by apply filter_In in Hcand. }
  split.
  { apply (sublist_NoDup _ candidates); [|apply sublist_take].
    unfold candidates. apply NoDup_ListNoDup, List.NoDup_filter, NoDup_ListNoDup.
    apply commonWords_NoDup. }
  split.
  { rewrite length_take. lia. }
  intros Hfew word Hin Hstarts.
  rewrite length_take in Hfew.
  rewrite take_ge by lia. apply filter_In. by split.
Qed.

(** X8.  With stored words matching, the suggestions are the [word]
    columns of the first [limit] matching rows in the order of ascending
    frequency rank, unranked rows last: the rows returned and the rows cut
    off are together the matching rows, nothing returned ranks after
    anything cut off, and at least one row is returned. *)
Theorem searchWords_from_store (dto : SearchWordDto.t) (w : World) :
  let query := JSString.toLowerCase (SearchWordDto.q dto) in
  let limit := limitOf dto in
  let matching := Table.find (searchWhere query) (wordRepository (db w)) in
  matching ≠ [] →
  ∃ returned cutOff,
    searchWords dto w
    = (Ok (SearchWordResponseDto.mk (List.map WordEntity.word returned)), w)
    ∧ returned ++ cutOff ≡ₚ matching
    ∧ StronglySorted
        (fun a b => Sql.notAfter (WordEntity.frequencyRank a) (WordEntity.frequencyRank b))
        (returned ++ cutOff)
    ∧ length returned = Nat.min limit (length matching)
    ∧ (1 ≤ length returned)%nat.
Proof.
  intros query limit matching Hsome.
  set (sorted := Sql.orderBy WordEntity.frequencyRank matching).
  assert (Hperm : sorted ≡ₚ matching) by apply orderBy_Permutation.
  assert (Hlen : length (List.firstn limit sorted) = Nat.min limit (length matching)).
  { by rewrite length_take, Hperm. }
  assert (Hpos : (1 ≤ length (List.firstn limit sorted))%nat).
  { rewrite Hlen. pose proof (limitOf_positive dto). fold limit in H.
    destruct matching; [done|]. cbn [length]. lia. }
  exists (List.firstn limit sorted), (List.skipn limit sorted).
  split.
  { unfold searchWords, tryCatch. rewrite bind_getStore.
    unfold searchQuery. fold query limit matching sorted.
    destruct (List.firstn limit sorted) eqn:Hfirst; [cbn in Hpos; lia|].
    reflexivity. }
  rewrite firstn_skipn. split; [done|]. split; [apply orderBy_StronglySorted|].
  by split.
Qed.

(** X9.  The stored-word filter treats the query as a [LIKE] pattern.  A
    query without [%], [_] and backslash selects the rows whose normalized
    key or whose word starts with it; a [%] in front of such a query turns
    the prefix test into a substring test. *)
Theorem searchWhere_pattern (query : string) (r : WordEntity.t) :
  Sql.literal query = true →
  searchWhere query r
  = JSString.startsWith (WordEntity.wordNormalized r) query
    || JSString.startsWith (WordEntity.word r) query
  ∧ searchWhere ("%" +:+ query) r
    = JSString.includes (WordEntity.wordNormalized r) query
      || JSString.includes (WordEntity.word r) query.
Proof.
  intros Hlit. unfold searchWhere. split.
  - by rewrite !like_literal_prefix.
  - by rewrite !app_assoc_str, !like_literal_infix.
Qed.

End SearchExtras.

Lemma searchWords_fallback_witness :
  ∃ suggestions,
    DictionaryService.searchWords (SearchWordDto.mk "HE" (Some 3%nat)) emptyWorld
    = (Ok (SearchWordResponseDto.mk suggestions), emptyWorld)
    ∧ Forall (fun word => In word DictionaryService.commonWords
                          ∧ JSString.startsWith word "he" = true) suggestions
    ∧ NoDup suggestions
    ∧ (length suggestions ≤ 3)%nat
    ∧ ((length suggestions < 3)%nat →
       ∀ word, In word DictionaryService.commonWords →
               JSString.startsWith word "he" = true → In word suggestions).
Proof.
  apply (searchWords_fallback (SearchWordDto.mk "HE" (Some 3%nat)) emptyWorld).
  reflexivity.
Defined.

Lemma searchWords_from_store_witness :
  DictionaryService.searchWords (SearchWordDto.mk "HEL" (Some 2%nat)) Fixture.rankedWorld
  = (Ok (SearchWordResponseDto.mk ["hell"; "help"]), Fixture.rankedWorld)
  ∧ ∃ returned cutOff,
      DictionaryService.searchWords (SearchWordDto.mk "HEL" (Some 2%nat))
        Fixture.rankedWorld
      = (Ok (SearchWordResponseDto.mk (List.map WordEntity.word returned)),
         Fixture.rankedWorld)
      ∧ returned ++ cutOff
        ≡ₚ Table.find (DictionaryService.searchWhere "hel")
             (wordRepository Fixture.rankedStore)
      ∧ StronglySorted
          (fun a b => Sql.notAfter (WordEntity.frequencyRank a)
                        (WordEntity.frequencyRank b))
          (returned ++ cutOff)
      ∧ length returned = 2%nat
      ∧ (1 ≤ length returned)%nat.
Proof.
  split; [reflexivity|].
  apply (searchWords_from_store (SearchWordDto.mk "HEL" (Some 2%nat)) Fixture.rankedWorld).
  discriminate.
Defined.

Lemma searchWhere_pattern_witness :
  DictionaryService.searchWhere "ell"
    (WordEntity.mk 2 "Hello" "en" "hello" None []) = false
  ∧ DictionaryService.searchWhere "%ell"
      (WordEntity.mk 2 "Hello" "en" "hello" None []) = true.
Proof.
  destruct (searchWhere_pattern "ell" (WordEntity.mk 2 "Hello" "en" "hello" None [])
              eq_refl) as [Hprefix Hinfix].
  split.
  - exact (eq_trans Hprefix eq_refl).
  - exact (eq_trans Hinfix eq_refl).
Defined.

(** ** Lookup: what it changes and whom it calls *)

Section LookupExtras.

Import DictionaryService LookupEffect.

Variable vllmModel : string.
Variable httpPost : nat → VLLMCompletionRequest → HttpOutcome VLLMCompletionResponse.
Variable httpGet : nat → string → HttpOutcome (list FreeDictionaryApiResponse).
Variable Json : Type.
Variable JSON_parse : string → Result Json.

Local Abbreviation lookupWord := (lookupWord vllmModel httpPost httpGet Json JSON_parse).

Lemma onlyAudioChanged_refl s : onlyAudioChanged s s.
Proof. by repeat split. Qed.

Lemma onlyAudioChanged_trans s1 s2 s3 :
  onlyAudioChanged s1 s2 → onlyAudioChanged s2 s3 → onlyAudioChanged s1 s3.
Proof.
  intros (?&?&?&?&?&?&?) (?&?&?&?&?&?&?). repeat split; congruence.
Qed.

Lemma update_onlyAudioChanged id audioUrl s :
  onlyAudioChanged s
    (setPronunciations
       (Table.update PronunciationEntity.id id
          (PronunciationEntity.setAudioUrl audioUrl) (pronunciationRepository s)) s).
Proof.
  repeat split. cbn. rewrite List.map_map. apply List.map_ext.
  intros r. by destruct (decide _).
Qed.

(** What enriching one pronunciation does, case by case. *)
Lemma enrichPronunciation_cases word p w :
  (lacksAudio p = false
   ∧ enrichPronunciation httpGet word p w = (Ok (pronunciationDto p), w))
  ∨ (lacksAudio p = true
     ∧ ∃ resolved,
         AudioService.getAudioUrl httpGet word (PronunciationEntity.accent p) w
         = (Ok resolved, audioRequested word w)
         ∧ ((JSString.truthyOpt resolved = false
             ∧ enrichPronunciation httpGet word p w
               = (Ok (pronunciationDto p), audioRequested word w))
            ∨ (JSString.truthyOpt resolved = true
               ∧ enrichPronunciation httpGet word p w
                 = (Ok (pronunciationDto (PronunciationEntity.setAudioUrl resolved p)),
                    mkWorld
                      (setPronunciations
                         (Table.update PronunciationEntity.id (PronunciationEntity.id p)
                            (PronunciationEntity.setAudioUrl resolved)
                            (pronunciationRepository (db w))) (db w))
                      (vllmCalls w) (audioCalls w ++ [word]))))).
Proof.
  unfold enrichPronunciation, lacksAudio.
  destruct (JSString.truthyOpt (PronunciationEntity.audioUrl p)); cbn [negb].
  - by left.
  - right. split; [done|].
    destruct (getAudioUrl_run httpGet word (PronunciationEntity.accent p) w)
      as (urls & _ & Hget).
    match type of Hget with _ = (Ok ?r, _) => remember r as resolved end.
    exists resolved. split; [exact Hget|].
    destruct (JSString.truthyOpt resolved) eqn:Htruthy; [right|left];
      (split; [done|]).
    + erewrite bind_run; [reflexivity|].
      erewrite bind_run by exact Hget. rewrite Htruthy. reflexivity.
    + erewrite bind_run; [reflexivity|].
      erewrite bind_run by exact Hget. rewrite Htruthy. reflexivity.
Qed.

Lemma enrichPronunciation_effect word p w :
  ∃ dto w',
    enrichPronunciation httpGet word p w = (Ok dto, w')
    ∧ onlyAudioChanged (db w) (db w')
    ∧ vllmCalls w' = vllmCalls w
    ∧ audioCalls w' = audioCalls w ++ (if lacksAudio p then [word] else []).
Proof.
  destruct (enrichPronunciation_cases word p w)
    as [[Hhas ->]|[Hlacks (resolved & _ & [[_ ->]|[_ ->]])]].
  - eexists _, _. split; [done|]. rewrite Hhas, app_nil_r.
    split; [apply onlyAudioChanged_refl|done].
  - eexists _, _. split; [done|]. rewrite Hlacks.
    split; [apply onlyAudioChanged_refl|done].
  - eexists _, _. split; [done|]. rewrite Hlacks.
    split; [apply update_onlyAudioChanged|done].
Qed.

Lemma mapAll_enrich_effect word ps w :
  ∃ dtos w',
    mapAll ps (enrichPronunciation httpGet word) w = (Ok dtos, w')
    ∧ onlyAudioChanged (db w) (db w')
    ∧ vllmCalls w' = vllmCalls w
    ∧ audioCalls w'
      = audioCalls w ++ List.repeat word (length (List.filter lacksAudio ps)).
Proof.
  revert w. induction ps as [|p ps IH]; intros w.
  - exists [], w. split; [done|]. rewrite app_nil_r.
    split; [apply onlyAudioChanged_refl|done].
  - destruct (enrichPronunciation_effect word p w) as (dto & w1 & Hp & Hdb1 & Hv1 & Ha1).
    destruct (IH w1) as (dtos & w2 & Hps & Hdb2 & Hv2 & Ha2).
    exists (dto :: dtos), w2. cbn [mapAll].
    rewrite (bind_run _ _ _ _ _ Hp), (bind_run _ _ _ _ _ Hps).
    split; [done|]. split; [by eapply onlyAudioChanged_trans|].
    split; [congruence|].
    rewrite Ha2, Ha1. cbn [List.filter].
    destruct (lacksAudio p); cbn; by rewrite <- app_assoc.
Qed.

(** The world after a lookup, whichever path it took. *)
Lemma lookupWord_world word w :
  let normalizedWord := JSString.trim (JSString.toLowerCase word) in
  match loadWord normalizedWord (db w) with
  | Some wordEntity =>
      (∃ dto, (lookupWord word w).1 = Ok (Assembled Json dto))
      ∧ onlyAudioChanged (db w) (db (lookupWord word w).2)
      ∧ vllmCalls (lookupWord word w).2 = vllmCalls w
      ∧ audioCalls (lookupWord word w).2
        = audioCalls w
          ++ List.repeat normalizedWord
               (length (List.filter lacksAudio (loadedPronunciations wordEntity)))
  | None =>
      (lookupWord word w).2
      = completionRequested (completionRequest vllmModel normalizedWord) w
  end.
Proof.
  intros normalizedWord.
  destruct (loadWord normalizedWord (db w)) as [wordEntity|] eqn:Hload.
  - destruct (mapAll_enrich_effect normalizedWord (loadedPronunciations wordEntity) w)
      as (dtos & w' & Hall & Hdb & Hv & Ha).
    assert (Hrun : ∃ dto, lookupWord word w = (Ok (Assembled Json dto), w')).
    { eexists. unfold DictionaryService.lookupWord, tryCatch, findWordInDatabase.
      fold normalizedWord.
      unfold mbind at 1, M_bind at 1, bind at 1.
      rewrite bind_getStore, Hload, (bind_run _ _ _ _ _ Hall), bind_getStore.
      reflexivity. }
    destruct Hrun as [dto Hrun]. rewrite Hrun. cbn [fst snd].
    split; [by exists dto|done].
  - rewrite (lookupWord_miss vllmModel httpPost httpGet Json JSON_parse word w Hload).
    by rewrite generateWordWithLLM_run.
Qed.

(** X10.  A lookup changes nothing in the store except audio URLs of
    pronunciation rows: the other five tables are as before, and the
    pronunciation table has the same rows up to their audio URLs and the
    same id sequence. *)
Theorem lookupWord_only_audio_changes (word : string) (w : World) :
  onlyAudioChanged (db w) (db (lookupWord word w).2).
Proof.
  pose proof (lookupWord_world word w) as Hworld. cbv zeta in Hworld.
  destruct (loadWord _ _).
  - by destruct Hworld as (_ & Hdb & _).
  - rewrite Hworld. apply onlyAudioChanged_refl.
Qed.

(** X11.  Whom a lookup calls.  On a hit it sends nothing to the completion
    endpoint and one request for the normalized word to the phonetic
    endpoint per loaded pronunciation without audio; on a miss it sends one
    completion request and nothing to the phonetic endpoint. *)
Theorem lookupWord_calls (word : string) (w : World) :
  let normalizedWord := JSString.trim (JSString.toLowerCase word) in
  let after := (lookupWord word w).2 in
  match loadWord normalizedWord (db w) with
  | Some wordEntity =>
      vllmCalls after = vllmCalls w
      ∧ audioCalls after
        = audioCalls w
          ++ List.repeat normalizedWord
               (length (List.filter lacksAudio (loadedPronunciations wordEntity)))
  | None =>
      vllmCalls after = vllmCalls w ++ [completionRequest vllmModel normalizedWord]
      ∧ audioCalls after = audioCalls w
  end.
Proof.
  intros normalizedWord after. unfold after.
  pose proof (lookupWord_world word w) as Hworld. cbv zeta in Hworld.
  fold normalizedWord in Hworld.
  destruct (loadWord normalizedWord (db w)).
  - by destruct Hworld as (_ & _ & Hv & Ha).
  - by rewrite Hworld.
Qed.

End LookupExtras.

(** ** Lookup: the backfill is done once *)

Section Backfill.

Import DictionaryService LookupEffect.

Variable vllmModel : string.
Variable httpPost : nat → VLLMCompletionRequest → HttpOutcome VLLMCompletionResponse.
Variable httpGet : nat → string → HttpOutcome (list FreeDictionaryApiResponse).
Variable Json : Type.
Variable JSON_parse : string → Result Json.

Local Abbreviation lookupWord := (lookupWord vllmModel httpPost httpGet Json JSON_parse).






End Backfill.


(** ** Lookup: word forms and synonyms of the response *)

Section ResponseShape.

Import DictionaryService LookupEffect.

Variable vllmModel : string.
Variable httpPost : nat → VLLMCompletionRequest → HttpOutcome VLLMCompletionResponse.
Variable httpGet : nat → string → HttpOutcome (list FreeDictionaryApiResponse).
Variable Json : Type.
Variable JSON_parse : string → Result Json.

Local Abbreviation lookupWord := (lookupWord vllmModel httpPost httpGet Json JSON_parse).





End ResponseShape.


(** ** The generative path: what a failure can be *)

Section LookupFailure.

Import DictionaryService.

Variable vllmModel : string.
Variable httpPost : nat → VLLMCompletionRequest → HttpOutcome VLLMCompletionResponse.
Variable httpGet : nat → string → HttpOutcome (list FreeDictionaryApiResponse).
Variable Json : Type.
Variable JSON_parse : string → Result Json.

Local Abbreviation lookupWord := (lookupWord vllmModel httpPost httpGet Json JSON_parse).

(** X14.  What a failure of the generative path can be, given that
    [JSON.parse] throws nothing but its own syntax errors.  Whenever
    [generateWordWithLLM] fails, the exception is an [HttpException] with
    status 500 whose message is either "Failed to parse dictionary data" or
    "Failed to generate word data: " followed by a reason, and when the
    completion request itself fails the reason is that failure's message.
    A lookup that misses the store fails with this very exception: its own
    handler passes it on without wrapping it again. *)
Theorem generation_failure (input : string) (w : World) (e : Exn) :
  let normalizedWord := JSString.trim (JSString.toLowerCase input) in
  (∀ s error, JSON_parse s = Throw error → isHttpException error = false) →
  (generateWordWithLLM vllmModel httpPost Json JSON_parse normalizedWord w).1 = Throw e →
  (∃ message,
     e = HttpException message INTERNAL_SERVER_ERROR
     ∧ (message = "Failed to parse dictionary data"
        ∨ ∃ reason, message = "Failed to generate word data: " +:+ reason)
     ∧ ∀ reason,
         httpPost (length (vllmCalls w)) (completionRequest vllmModel normalizedWord)
         = HttpFail reason →
         message = "Failed to generate word data: " +:+ reason)
  ∧ (loadWord normalizedWord (db w) = None → (lookupWord input w).1 = Throw e).
Proof.
  intros normalizedWord Hsyntax Hfail. split.
  - rewrite generateWordWithLLM_run in Hfail.
    cbn [fst] in Hfail. unfold generationOutcome in Hfail.
    destruct (httpPost _ _) as [[[|first rest]]|message]; cbn [choices] in Hfail.
    + simplify_eq. eexists. split; [done|]. split; [right; by eexists|]. by intros ?.
    + destruct (RegExp.match_ _ _) as [jsonMatch|].
      * destruct (JSON_parse jsonMatch) as [v|error] eqn:Hparse; [done|].
        rewrite (Hsyntax _ _ Hparse) in Hfail. simplify_eq.
        eexists. split; [done|]. split; [right; by eexists|]. by intros ?.
      * simplify_eq. eexists. split; [done|]. split; [by left|]. by intros ?.
    + simplify_eq. eexists. split; [done|]. split; [right; by eexists|].
      by intros ? [= <-].
  - intros Hmiss.
    by rewrite (lookupWord_miss vllmModel httpPost httpGet Json JSON_parse input w Hmiss).
Qed.

End LookupFailure.

Lemma generation_failure_witness :
  DictionaryService.loadWord "serendipity" (db emptyWorld) = None
  ∧ (DictionaryService.lookupWord "phi-3" Fixture.postDown Fixture.getDown
       MiniJson.value MiniJson.parse " Serendipity " emptyWorld).1
    = Throw (HttpException
               "Failed to generate word data: timeout of 30000ms exceeded"
               INTERNAL_SERVER_ERROR).
Proof.
  split; [reflexivity|].
  refine (proj2 (generation_failure "phi-3" Fixture.postDown Fixture.getDown
                   MiniJson.value MiniJson.parse " Serendipity " emptyWorld _ _ _) _).
  - intros s error. unfold MiniJson.parse.
    destruct (MiniJson.readValue _ _) as [[v rest]|]; [|by intros [= <-]].
    destruct (JSString.trimStart rest); [done|by intros [= <-]].
  - vm_compute. reflexivity.
  - reflexivity.
Defined.

(** ** Import: integrity of the store *)

Section TableInvariants.

Import ImportEffect StoreInvariant.

Context {A : Type}.

Lemma idsIssued_empty (idOf : A → Z) : idsIssued idOf Table.empty.
Proof. split; cbn; constructor. Qed.

(** One more row under the id the sequence hands out. *)
Lemma grown_idsIssued (idOf : A → Z) tb r :
  idOf r = Table.nextId tb →
  idsIssued idOf tb →
  idsIssued idOf (Table.mk (Table.rows tb ++ [r]) (Table.nextId tb + 1)).
Proof.
  intros Hid [Hdistinct Hbelow]. split; cbn.
  - rewrite fmap_app. apply NoDup_app. split; [done|]. split; [|apply NoDup_singleton].
    intros id (x & -> & Hx)%list_elem_of_fmap Hnew. cbn in Hnew.
    apply list_elem_of_singleton in Hnew. rewrite Hid in Hnew.
    rewrite Forall_forall in Hbelow. specialize (Hbelow x Hx). lia.
  - apply Forall_app. split.
    + eapply Forall_impl; [exact Hbelow|]. cbn. intros; lia.
    + constructor; [|constructor]. rewrite Hid. lia.
Qed.

Context {B : Type}.

Lemma refersTo_grow (ref : A → Z) tb (idOf : B → Z) parent parent' :
  Table.rows parent ⊆ Table.rows parent' →
  refersTo ref tb idOf parent → refersTo ref tb idOf parent'.
Proof.
  intros Hsub Htb. eapply Forall_impl; [exact Htb|].
  cbn. intros r (b & -> & Hb)%list_elem_of_fmap.
  apply list_elem_of_fmap. exists b. split; [done|]. by apply Hsub.
Qed.

Lemma grown_refersTo (ref : A → Z) tb r next (idOf : B → Z) parent :
  ref r ∈ idOf <$> Table.rows parent →
  refersTo ref tb idOf parent →
  refersTo ref (Table.mk (Table.rows tb ++ [r]) next) idOf parent.
Proof.
  intros Hr Htb. unfold refersTo. cbn.
  apply Forall_app. split; [done|]. by constructor.
Qed.

(** Check-then-insert keeps a key unique, as long as the row is stored as
    it is. *)
Lemma insertUnless_key {K} (key : A → K) (k : K) q (row : Z → A) tb :
  (∀ r, q r = true ↔ key r = k) →
  (∀ id, key (row id) = k) →
  NoDup (key <$> Table.rows tb) →
  NoDup (key <$> Table.rows (insertUnless q row tb)).
Proof.
  intros Hq Hrow Htb. unfold insertUnless, Table.findOne.
  destruct (List.find q (Table.rows tb)) eqn:Hfind; [done|].
  cbn. rewrite fmap_app. apply NoDup_app. split; [done|].
  split; [|apply NoDup_singleton].
  intros k' (r & -> & Hr)%list_elem_of_fmap Hnew. cbn in Hnew.
  apply list_elem_of_singleton in Hnew. rewrite Hrow in Hnew.
  apply list_elem_of_In in Hr.
  pose proof (find_none _ _ Hfind r Hr) as Hno.
  apply Hq in Hnew. congruence.
Qed.

Lemma upsertAll_key {K X} (key : A → K) (keyOf : X → K) (where_ : X → A → bool)
    (row : X → Z → A) xs tb :
  (∀ x r, where_ x r = true ↔ key r = keyOf x) →
  (∀ x id, key (row x id) = keyOf x) →
  NoDup (key <$> Table.rows tb) →
  NoDup (key <$> Table.rows (upsertAll where_ row xs tb)).
Proof.
  intros Hwhere Hrow. revert tb. induction xs as [|x xs IH]; intros tb Htb; [done|].
  apply IH. by apply (insertUnless_key key (keyOf x)).
Qed.

(** What an accepted [save] leaves. *)
Lemma save_accepted onInsert (row : Z → A) tb saved :
  Table.save onInsert row tb = Column.Accepted saved →
  saved.1 = row (Table.nextId tb)
  ∧ ∃ stored,
      onInsert (Table.rows tb) (row (Table.nextId tb)) = Column.Accepted stored
      ∧ saved.2 = Table.mk (Table.rows tb ++ [stored]) (Table.nextId tb + 1).
Proof.
  unfold Table.save. destruct (onInsert _ _) as [stored|why]; cbn; [|done].
  intros [= <-]. eauto.
Qed.

End TableInvariants.

(** The columns leave ids and foreign keys alone. *)

Ltac columns H :=
  repeat match type of H with
         | context [Column.andThen ?x _] =>
             let c := fresh "column" in destruct x eqn:c; cbn in H
         end;
  try discriminate H.

Lemma word_inserted rows r r' :
  WordEntity.onInsert rows r = Column.Accepted r' →
  WordEntity.id r' = WordEntity.id r ∧ WordEntity.word r' ∉ WordEntity.word <$> rows.
Proof.
  unfold WordEntity.onInsert. destruct (WordEntity.stored r) as [x|] eqn:Hstored; cbn; [|done].
  destruct (existsb _ rows) eqn:Hexists; [done|]. intros [= <-]. split.
  - unfold WordEntity.stored in Hstored. columns Hstored. by injection Hstored as <-.
  - intros (y & Hword & Hy)%list_elem_of_fmap.
    assert (existsb (fun y => bool_decide (WordEntity.word y = WordEntity.word x)) rows
            = true); [|congruence].
    apply existsb_exists. exists y. split; [by apply list_elem_of_In|].
    by apply bool_decide_eq_true.
Qed.

Lemma pronunciation_inserted rows r r' :
  PronunciationEntity.onInsert rows r = Column.Accepted r' →
  PronunciationEntity.id r' = PronunciationEntity.id r
  ∧ PronunciationEntity.wordId r' = PronunciationEntity.wordId r.
Proof.
  unfold PronunciationEntity.onInsert, PronunciationEntity.stored. intros H.
  columns H. by injection H as <-.
Qed.

Lemma definition_inserted rows r r' :
  DefinitionEntity.onInsert rows r = Column.Accepted r' →
  DefinitionEntity.id r' = DefinitionEntity.id r
  ∧ DefinitionEntity.wordId r' = DefinitionEntity.wordId r.
Proof.
  unfold DefinitionEntity.onInsert, DefinitionEntity.stored. intros H.
  columns H. by injection H as <-.
Qed.

Lemma example_inserted rows r r' :
  ExampleEntity.onInsert rows r = Column.Accepted r' →
  ExampleEntity.id r' = ExampleEntity.id r
  ∧ ExampleEntity.definitionId r' = ExampleEntity.definitionId r.
Proof.
  unfold ExampleEntity.onInsert, ExampleEntity.stored. intros H.
  columns H. by injection H as <-.
Qed.

Lemma wordForm_inserted rows r r' :
  WordFormEntity.onInsert rows r = Column.Accepted r' →
  WordFormEntity.id r' = WordFormEntity.id r
  ∧ WordFormEntity.wordId r' = WordFormEntity.wordId r.
Proof.
  unfold WordFormEntity.onInsert, WordFormEntity.stored. intros H.
  columns H. by injection H as <-.
Qed.

Lemma synonym_inserted rows r r' :
  SynonymEntity.onInsert rows r = Column.Accepted r' →
  SynonymEntity.id r' = SynonymEntity.id r
  ∧ SynonymEntity.wordId r' = SynonymEntity.wordId r.
Proof.
  unfold SynonymEntity.onInsert, SynonymEntity.stored. intros H.
  columns H. by injection H as <-.
Qed.

(** *** Rules for [triple] *)

Section Triples.

Import DictionaryService StoreInvariant.

Lemma triple_ret {A} (a : A) (P : Store → Prop) (Q : A → Store → Prop) E :
  (∀ s, P s → Q a s) → triple P (mret a) Q E.
Proof. intros HQ w Hw. by apply HQ. Qed.

Lemma triple_throw {A} e (Q : A → Store → Prop) (E : Store → Prop) : triple E (throw e) Q E.
Proof. by intros w Hw. Qed.

Lemma triple_bind {A B} P (m : M A) (k : A → M B) Q R E :
  triple P m Q E → (∀ a, triple (Q a) (k a) R E) → triple P (m ≫= k) R E.
Proof.
  intros Hm Hk w Hw. specialize (Hm w Hw).
  unfold mbind, M_bind, bind. destruct (m w) as [[a|e] w']; [|done].
  by apply Hk.
Qed.

Lemma triple_weaken {A} (P P' : Store → Prop) (m : M A) (Q Q' : A → Store → Prop) E :
  (∀ s, P' s → P s) → (∀ a s, Q a s → Q' a s) →
  triple P m Q E → triple P' m Q' E.
Proof.
  intros HP HQ Hm w Hw. specialize (Hm w (HP _ Hw)).
  destruct (m w) as [[a|e] w']; [by apply HQ|done].
Qed.

Lemma triple_tryCatch {A} P (m : M A) handler (Q : A → Store → Prop) E E' :
  triple P m Q E → (∀ e, triple E (handler e) Q E') →
  triple P (tryCatch m handler) Q E'.
Proof.
  intros Hm Hhandler w Hw. specialize (Hm w Hw). unfold tryCatch.
  destruct (m w) as [[a|e] w']; [done|]. by apply Hhandler.
Qed.

Lemma triple_findOneIn {A} (repository : Store → Table.t A) where_ (P E : Store → Prop) :
  triple P (findOneIn repository where_)
    (fun found s => P s ∧ found = Table.findOne where_ (repository s)) E.
Proof. by intros w Hw. Qed.

Lemma triple_saveIn {A} (repository : Store → Table.t A) set onInsert row
    (P : Store → Prop) (Q : A → Store → Prop) (E : Store → Prop) :
  (∀ s, P s →
        match Table.save onInsert row (repository s) with
        | Column.Accepted saved => Q saved.1 (set saved.2 s)
        | Column.Rejected _ => E s
        end) →
  triple P (saveIn repository set onInsert row) Q E.
Proof.
  intros Hsave w Hw. specialize (Hsave _ Hw). unfold saveIn.
  rewrite bind_getStore. by destruct (Table.save _ _ _).
Qed.

Lemma triple_forOf {A} (I E : Store → Prop) (xs : list A) (body : A → M unit) :
  (∀ x, triple I (body x) (fun _ => I) E) →
  triple I (forOf xs body) (fun _ => I) E.
Proof.
  intros Hbody. induction xs as [|x xs IH]; [by intros w Hw|].
  cbn [forOf]. eapply triple_bind; [apply Hbody|]. intros ?. exact IH.
Qed.

Lemma triple_guarded {A} (I E : Store → Prop) (xs : option (list A)) (body : A → M unit) :
  (∀ x, triple I (body x) (fun _ => I) E) →
  triple I
    (match xs with
     | Some ((_ :: _) as l) => forOf l body
     | _ => mret tt
     end)
    (fun _ => I) E.
Proof.
  intros Hbody. destruct xs as [[|x l]|]; try by intros w Hw.
  by apply triple_forOf.
Qed.

End Triples.

(** *** The import keeps the store intact, also when it fails *)

Section ImportKeeps.

Import DictionaryService ImportEffect StoreInvariant.

(** The store is intact and holds the word row the import works on. *)
Local Abbreviation withWord wordId :=
  (fun s => intact s ∧ wordId ∈ WordEntity.id <$> Table.rows (wordRepository s)).

Lemma emptyStore_wellFormed : wellFormed emptyStore.
Proof. split; try apply idsIssued_empty; constructor. Qed.

Lemma emptyStore_keysUnique : keysUnique emptyStore.
Proof. split; constructor. Qed.

Lemma word_kept data :
  triple
    (fun s => intact s
              ∧ None = Table.findOne (wordWhere (ImportData.word data)) (wordRepository s))
    (saveIn wordRepository setWords WordEntity.onInsert (newWord data))
    (fun wordEntity => withWord (WordEntity.id wordEntity)) intact.
Proof.
  apply triple_saveIn. intros s [[Hwf Hunique] _].
  destruct (Table.save _ _ _) as [saved|why] eqn:Hsave; [|done].
  apply save_accepted in Hsave as (-> & stored & Hinsert & ->).
  apply word_inserted in Hinsert as [Hid Hnew]. cbn in Hid.
  assert (Hgrows : Table.rows (wordRepository s)
                   ⊆ Table.rows (wordRepository s) ++ [stored]).
  { intros r Hr. apply elem_of_app. by left. }
  destruct Hwf. split; [split|].
  - split; cbn; try done; try (eapply refersTo_grow; [exact Hgrows|done]).
    by apply grown_idsIssued.
  - cbn. rewrite fmap_app. apply NoDup_app. split; [done|].
    split; [|apply NoDup_singleton].
    intros word Hold Hstored. cbn in Hstored. apply list_elem_of_singleton in Hstored.
    by subst word.
  - cbn. rewrite fmap_app. apply elem_of_app. right. cbn.
    apply list_elem_of_singleton. done.
Qed.

Lemma pronunciation_kept wordId pron :
  triple (withWord wordId) (importPronunciation wordId pron)
    (fun _ => withWord wordId) intact.
Proof.
  unfold importPronunciation.
  eapply triple_bind; [apply triple_findOneIn|]. intros [existing|].
  { by intros w [Hw _]. }
  eapply triple_bind with (Q := fun _ => withWord wordId);
    [|intros ?; by apply triple_ret].
  apply (triple_weaken (withWord wordId) _ _ (fun _ => withWord wordId));
    [by intros s [Hs _]|done|].
  apply triple_saveIn. intros s [[Hwf Hunique] Hword].
  destruct (Table.save _ _ _) as [saved|why] eqn:Hsave; [|done].
  apply save_accepted in Hsave as (_ & stored & Hinsert & ->).
  apply pronunciation_inserted in Hinsert as [Hid Href]. cbn in Hid, Href.
  destruct Hwf. split; [split|]; try done.
  split; cbn; try done.
  - by apply grown_idsIssued.
  - apply grown_refersTo; [|done]. by rewrite Href.
Qed.

Lemma wordForm_kept wordId entry :
  triple (withWord wordId) (importWordForm wordId entry)
    (fun _ => withWord wordId) intact.
Proof.
  unfold importWordForm.
  eapply triple_bind; [apply triple_findOneIn|]. intros [existing|].
  { by intros w [Hw _]. }
  eapply triple_bind with (Q := fun _ => withWord wordId);
    [|intros ?; by apply triple_ret].
  apply (triple_weaken (withWord wordId) _ _ (fun _ => withWord wordId));
    [by intros s [Hs _]|done|].
  apply triple_saveIn. intros s [[Hwf Hunique] Hword].
  destruct (Table.save _ _ _) as [saved|why] eqn:Hsave; [|done].
  apply save_accepted in Hsave as (_ & stored & Hinsert & ->).
  apply wordForm_inserted in Hinsert as [Hid Href]. cbn in Hid, Href.
  destruct Hwf. split; [split|]; try done.
  split; cbn; try done.
  - by apply grown_idsIssued.
  - apply grown_refersTo; [|done]. by rewrite Href.
Qed.

Lemma synonym_kept wordId syn :
  triple (withWord wordId) (importSynonym wordId syn)
    (fun _ => withWord wordId) intact.
Proof.
  unfold importSynonym.
  eapply triple_bind; [apply triple_findOneIn|]. intros [existing|].
  { by intros w [Hw _]. }
  eapply triple_bind with (Q := fun _ => withWord wordId);
    [|intros ?; by apply triple_ret].
  apply (triple_weaken (withWord wordId) _ _ (fun _ => withWord wordId));
    [by intros s [Hs _]|done|].
  apply triple_saveIn. intros s [[Hwf Hunique] Hword].
  destruct (Table.save _ _ _) as [saved|why] eqn:Hsave; [|done].
  apply save_accepted in Hsave as (_ & stored & Hinsert & ->).
  apply synonym_inserted in Hinsert as [Hid Href]. cbn in Hid, Href.
  destruct Hwf. split; [split|]; try done.
  split; cbn; try done.
  - by apply grown_idsIssued.
  - apply grown_refersTo; [|done]. by rewrite Href.
Qed.

(** The store is intact and holds the word row and the definition row the
    loop over the examples works on. *)
Local Abbreviation withDefinition wordId definitionId :=
  (fun s => withWord wordId s
            ∧ definitionId ∈ DefinitionEntity.id <$> Table.rows (definitionRepository s)).

Lemma example_kept wordId definitionId ex :
  triple (withDefinition wordId definitionId) (importExample definitionId ex)
    (fun _ => withDefinition wordId definitionId) intact.
Proof.
  unfold importExample.
  eapply triple_bind with (Q := fun _ => withDefinition wordId definitionId);
    [|intros ?; by apply triple_ret].
  apply triple_saveIn. intros s [[[Hwf Hunique] Hword] Hdefinition].
  destruct (Table.save _ _ _) as [saved|why] eqn:Hsave; [|done].
  apply save_accepted in Hsave as (_ & stored & Hinsert & ->).
  apply example_inserted in Hinsert as [Hid Href]. cbn in Hid, Href.
  destruct Hwf. split; [split; [split|]|]; try done.
  split; cbn; try done.
  - by apply grown_idsIssued.
  - apply grown_refersTo; [|done]. by rewrite Href.
Qed.

Lemma definition_kept wordId idef :
  triple (withWord wordId) (importDefinition wordId idef)
    (fun _ => withWord wordId) intact.
Proof.
  unfold importDefinition.
  eapply triple_bind with
    (Q := fun defEntity => withDefinition wordId (DefinitionEntity.id defEntity)).
  - apply triple_saveIn. intros s [[Hwf Hunique] Hword].
    destruct (Table.save _ _ _) as [saved|why] eqn:Hsave; [|done].
    apply save_accepted in Hsave as (-> & stored & Hinsert & ->).
    apply definition_inserted in Hinsert as [Hid Href]. cbn in Hid, Href.
    destruct Hwf. split; [split; [split|]|]; try done.
    + split; cbn; try done.
      * by apply grown_idsIssued.
      * apply grown_refersTo; [|done]. by rewrite Href.
      * eapply refersTo_grow; [|done]. cbn. intros r Hr. apply elem_of_app. by left.
    + cbn. rewrite fmap_app. apply elem_of_app. right. cbn.
      apply list_elem_of_singleton. done.
  - intros defEntity.
    apply (triple_weaken (withDefinition wordId (DefinitionEntity.id defEntity)) _ _
             (fun _ => withDefinition wordId (DefinitionEntity.id defEntity)));
      [done|by intros ? s [Hs _]|].
    apply triple_guarded. intros ex. apply example_kept.
Qed.

(** The import leaves the store intact whether it succeeds or fails
    half-way. *)
Lemma importWordData_kept data :
  triple intact (importWordData data) (fun _ => intact) intact.
Proof.
  unfold importWordData.
  eapply triple_tryCatch; [|intros e; apply triple_throw].
  eapply triple_bind; [apply triple_findOneIn|]. intros found.
  eapply triple_bind with (Q := fun wordEntity => withWord (WordEntity.id wordEntity)).
  { destruct found as [existing|]; [|apply word_kept].
    intros w [Hw Hfound]. cbn. split; [done|].
    apply list_elem_of_fmap. exists existing. split; [done|].
    symmetry in Hfound. apply find_some in Hfound as [Hin _].
    by apply list_elem_of_In. }
  intros wordEntity.
  eapply triple_bind with (Q := fun _ => withWord (WordEntity.id wordEntity)).
  { apply triple_guarded. intros pron. apply pronunciation_kept. }
  intros ?.
  eapply triple_bind with (Q := fun _ => withWord (WordEntity.id wordEntity)).
  { destruct (ImportData.definitions data) as [[|d l]|]; try by apply triple_ret.
    apply triple_forOf. intros idef. apply definition_kept. }
  intros ?.
  eapply triple_bind with (Q := fun _ => withWord (WordEntity.id wordEntity)).
  { destruct (ImportData.word_forms data) as [word_forms|]; [|by apply triple_ret].
    apply triple_forOf. intros entry. apply wordForm_kept. }
  intros ?.
  eapply triple_bind with (Q := fun _ => withWord (WordEntity.id wordEntity)).
  { apply triple_guarded. intros syn. apply synonym_kept. }
  intros ?. apply triple_ret. by intros s [Hs _].
Qed.

Lemma pronunciationWhere_key wordId pron r :
  pronunciationWhere wordId pron r = true
  ↔ accentKey r = (wordId, ImportData.accent pron).
Proof.
  unfold pronunciationWhere, accentKey.
  rewrite andb_true_iff, !bool_decide_eq_true. split; [by intros [-> ->]|by intros [= -> ->]].
Qed.

Lemma wordFormWhere_key wordId entry r :
  wordFormWhere wordId entry r = true ↔ formTypeKey r = (wordId, entry.1).
Proof.
  unfold wordFormWhere, formTypeKey.
  rewrite andb_true_iff, !bool_decide_eq_true. split; [by intros [-> ->]|by intros [= -> ->]].
Qed.

Lemma synonymWhere_key wordId syn r :
  synonymWhere wordId syn r = true ↔ synonymKey r = (wordId, syn).
Proof.
  unfold synonymWhere, synonymKey.
  rewrite andb_true_iff, !bool_decide_eq_true. split; [by intros [-> ->]|by intros [= -> ->]].
Qed.

(** The import of a payload that fits the columns keeps the keys it checks
    unique. *)
Lemma importStore_keysUnique data s :
  keysUnique s → keysUnique (importStore data s).
Proof.
  intros []. split.
  - rewrite importStore_words. unfold wordsAfter.
    apply (insertUnless_key WordEntity.word (ImportData.word data)
             (wordWhere (ImportData.word data)) (newWord data)); [|done|done].
    intros r. unfold wordWhere. by rewrite bool_decide_eq_true.
  - rewrite importStore_pronunciations.
    eapply (upsertAll_key accentKey); [apply pronunciationWhere_key|done|done].
  - rewrite importStore_wordForms.
    eapply (upsertAll_key formTypeKey); [apply wordFormWhere_key|done|done].
  - rewrite importStore_synonyms.
    eapply (upsertAll_key synonymKey); [apply synonymWhere_key|done|done].
Qed.

End ImportKeeps.

(** ** The service keeps the store intact *)

Section ServiceIntegrity.

Import DictionaryService LookupEffect ImportEffect StoreInvariant ServiceRun.

Variable vllmModel : string.
Variable httpPost : nat → VLLMCompletionRequest → HttpOutcome VLLMCompletionResponse.
Variable httpGet : nat → string → HttpOutcome (list FreeDictionaryApiResponse).
Variable Json : Type.
Variable JSON_parse : string → Result Json.
Variable inheritedProperty : string → option string.

Local Abbreviation after :=
  (after vllmModel httpPost httpGet Json JSON_parse inheritedProperty).
Local Abbreviation run :=
  (run vllmModel httpPost httpGet Json JSON_parse inheritedProperty).

Lemma core_columns rows rows' :
  List.map pronunciationCore rows' = List.map pronunciationCore rows →
  PronunciationEntity.id <$> rows' = PronunciationEntity.id <$> rows
  ∧ PronunciationEntity.wordId <$> rows' = PronunciationEntity.wordId <$> rows
  ∧ accentKey <$> rows' = accentKey <$> rows.
Proof.
  revert rows. induction rows' as [|r' rows' IH]; intros [|r rows] Hcore; try done.
  cbn in Hcore. injection Hcore as Hid Hword Haccent _ Hrest.
  destruct (IH _ Hrest) as (Hids & Hwords & Hkeys).
  rewrite !fmap_cons, Hids, Hwords, Hkeys. unfold accentKey.
  by rewrite Hid, Hword, Haccent.
Qed.

Lemma onlyAudioChanged_wellFormed s s' :
  onlyAudioChanged s s' → wellFormed s → wellFormed s'.
Proof.
  intros (Hw & Hd & He & Hf & Hs & Hnext & Hcore) [].
  destruct (core_columns _ _ Hcore) as (Hids & Hrefs & _).
  split; rewrite ?Hw, ?Hd, ?He, ?Hf, ?Hs; try done.
  - destruct pronunciationIds0 as [Hdistinct Hbelow]. split.
    + by rewrite Hids.
    + rewrite Hnext.
      apply (Forall_fmap PronunciationEntity.id
               (fun id => id < Table.nextId (pronunciationRepository s))).
      apply (Forall_fmap PronunciationEntity.id
               (fun id => id < Table.nextId (pronunciationRepository s))) in Hbelow.
      by rewrite Hids.
  - unfold refersTo in *.
    apply (Forall_fmap PronunciationEntity.wordId
             (fun id => id ∈ WordEntity.id <$> Table.rows (wordRepository s))).
    apply (Forall_fmap PronunciationEntity.wordId
             (fun id => id ∈ WordEntity.id <$> Table.rows (wordRepository s)))
      in pronunciationWords0.
    by rewrite Hrefs.
Qed.

Lemma onlyAudioChanged_keysUnique s s' :
  onlyAudioChanged s s' → keysUnique s → keysUnique s'.
Proof.
  intros (Hw & Hd & He & Hf & Hs & Hnext & Hcore) [].
  destruct (core_columns _ _ Hcore) as (_ & _ & Hkeys).
  split; rewrite ?Hw, ?Hf, ?Hs, ?Hkeys; done.
Qed.

Lemma lookupWord_db word w :
  onlyAudioChanged (db w)
    (db (lookupWord vllmModel httpPost httpGet Json JSON_parse word w).2).
Proof.
  pose proof (lookupWord_world vllmModel httpPost httpGet Json JSON_parse word w)
    as Hworld.
  cbv zeta in Hworld. destruct (loadWord _ _).
  - by destruct Hworld as (_ & Hdb & _).
  - rewrite Hworld. apply onlyAudioChanged_refl.
Qed.

Lemma searchWords_db dto w : db (searchWords dto w).2 = db w.
Proof.
  unfold searchWords, tryCatch. rewrite bind_getStore.
  by destruct (searchQuery _ _ _).
Qed.

Lemma translate_db dto w :
  db (translate vllmModel httpPost inheritedProperty dto w).2 = db w.
Proof.
  unfold translate, tryCatch, post, mbind, M_bind, bind.
  by destruct (httpPost _ _) as [[[|first rest]]|message].
Qed.

Lemma getWordAudio_db word accent w :
  db (getWordAudio httpGet word accent w).2 = db w.
Proof.
  unfold getWordAudio, tryCatch. rewrite bind_getStore.
  destruct (storedAudio word accent (db w)); [done|].
  destruct (getAudioUrl_run httpGet word accent w) as (urls & _ & Hget).
  by rewrite (bind_run _ _ _ _ _ Hget).
Qed.

Lemma after_intact call w : intact (db w) → intact (db (after call w)).
Proof.
  intros Hintact. destruct call as [dto|word|dto|data|word accent]; cbn [ServiceRun.after].
  - by rewrite searchWords_db.
  - destruct Hintact as [Hwf Hunique].
    pose proof (lookupWord_db word w) as Hdb. split.
    + by eapply onlyAudioChanged_wellFormed.
    + destruct Hdb as (Hwords & _). by rewrite Hwords.
  - by rewrite translate_db.
  - pose proof (importWordData_kept data w Hintact) as Hkept.
    by destruct (importWordData data w) as [[result|e] w'].
  - by rewrite getWordAudio_db.
Qed.

Lemma after_keysUnique call w :
  fitting call → keysUnique (db w) → keysUnique (db (after call w)).
Proof.
  intros Hfits Hkeys. destruct call as [dto|word|dto|data|word accent]; cbn [ServiceRun.after].
  - by rewrite searchWords_db.
  - eapply onlyAudioChanged_keysUnique; [apply lookupWord_db|done].
  - by rewrite translate_db.
  - rewrite (importWordData_run _ _ Hfits). cbn. by apply importStore_keysUnique.
  - by rewrite getWordAudio_db.
Qed.

Lemma run_intact calls w : intact (db w) → intact (db (run calls w)).
Proof.
  revert w. induction calls as [|call calls IH]; intros w Hw; [done|].
  apply (IH (after call w)). by apply after_intact.
Qed.

Lemma run_keysUnique calls w :
  Forall fitting calls → keysUnique (db w) → keysUnique (db (run calls w)).
Proof.
  intros Hcalls. revert w. induction Hcalls as [|call calls Hcall _ IH]; intros w Hw; [done|].
  apply (IH (after call w)). by apply after_keysUnique.
Qed.

(** X15.  Whatever sequence of calls the service receives, and whether or
    not an import in it is rejected half-way, a store with intact keys
    keeps them: in every table the ids are distinct and were handed out by
    the table's sequence; every pronunciation, definition, word form and
    synonym refers to a stored word and every example to a stored
    definition; and no two rows share a word.  If moreover every imported
    payload fits the columns, no two rows share a word and accent, a word
    and form type, or a word and synonym either. *)
Theorem service_keeps_integrity (calls : list Call) (w : World) :
  wellFormed (db w) → keysUnique (db w) →
  wellFormed (db (run calls w))
  ∧ NoDup (WordEntity.word <$> Table.rows (wordRepository (db (run calls w))))
  ∧ (Forall fitting calls → keysUnique (db (run calls w))).
Proof.
  intros Hwf Hkeys.
  destruct (run_intact calls w) as [Hwf' Hunique']; [by destruct Hkeys|].
  split; [done|]. split; [done|]. intros Hcalls. by apply run_keysUnique.
Qed.

End ServiceIntegrity.

Lemma service_keeps_integrity_witness :
  let w :=
    ServiceRun.run "phi-3" Fixture.postProse Fixture.getUkOnly
      MiniJson.value MiniJson.parse Fixture.noInherited
      [ServiceRun.ImportWordData Fixture.helloData;
       ServiceRun.LookupWord "Hello";
       ServiceRun.ImportWordData Fixture.tomatoData;
       ServiceRun.ImportWordData Fixture.runData;
       ServiceRun.ImportWordData Fixture.tomatoData;
       ServiceRun.GetWordAudio "run" "US"]
      emptyWorld in
  List.map WordEntity.word (Table.rows (wordRepository (db w)))
  = ["hello"; "tomato"; "run"]
  ∧ StoreInvariant.wellFormed (db w)
  ∧ NoDup (WordEntity.word <$> Table.rows (wordRepository (db w))).
Proof.
  intros w. split; [reflexivity|].
  pose proof (service_keeps_integrity "phi-3" Fixture.postProse Fixture.getUkOnly
                MiniJson.value MiniJson.parse Fixture.noInherited
                [ServiceRun.ImportWordData Fixture.helloData;
                 ServiceRun.LookupWord "Hello";
                 ServiceRun.ImportWordData Fixture.tomatoData;
                 ServiceRun.ImportWordData Fixture.runData;
                 ServiceRun.ImportWordData Fixture.tomatoData;
                 ServiceRun.GetWordAudio "run" "US"]
                emptyWorld) as Hkept.
  destruct Hkept as (Hwf & Hunique & _).
  - split; try (split; cbn; constructor); constructor.
  - split; constructor.
  - split; [exact Hwf|exact Hunique].
Defined.

(** ** Import, then lookup *)

Section SortedAlready.

Context {A : Type}.





End SortedAlready.


Section ImportThenLookup.

Import DictionaryService LookupEffect ImportEffect StoreInvariant RoundTrip.

Variable vllmModel : string.
Variable httpPost : nat → VLLMCompletionRequest → HttpOutcome VLLMCompletionResponse.
Variable httpGet : nat → string → HttpOutcome (list FreeDictionaryApiResponse).
Variable Json : Type.
Variable JSON_parse : string → Result Json.

Local Abbreviation lookupWord := (lookupWord vllmModel httpPost httpGet Json JSON_parse).

(** The examples a lookup loads for definition [d]. *)
Local Abbreviation examplesOf d s :=
  (Table.find
     (fun ex => bool_decide (ExampleEntity.definitionId ex = DefinitionEntity.id d))
     (exampleRepository s)).





End ImportThenLookup.


Section FreshUpsert.

Import ImportEffect.

Context {A X : Type}.
Variable ref : A → Z.
Variable tag : A → string.
Variable tagOf : X → string.
Variable wordId : Z.
Variable where_ : X → A → bool.
Variable row : X → Z → A.

Hypothesis where_spec : ∀ x r, where_ x r = true ↔ ref r = wordId ∧ tag r = tagOf x.
Hypothesis row_spec : ∀ x id, ref (row x id) = wordId ∧ tag (row x id) = tagOf x.



End FreshUpsert.


Section ImportThenLookupParts.

Import DictionaryService LookupEffect ImportEffect StoreInvariant RoundTrip.

Variable vllmModel : string.
Variable httpPost : nat → VLLMCompletionRequest → HttpOutcome VLLMCompletionResponse.
Variable httpGet : nat → string → HttpOutcome (list FreeDictionaryApiResponse).
Variable Json : Type.
Variable JSON_parse : string → Result Json.

Local Abbreviation lookupWord := (lookupWord vllmModel httpPost httpGet Json JSON_parse).







End ImportThenLookupParts.


(** ** The import script's payload *)

Section ScriptPayload.

Import ImportScript.

Variable httpGet : string → HttpOutcome (list FreeDictionaryResponse).
Variable httpPost : nat → string → HttpOutcome string.

Local Abbreviation onDefinition := (onDefinition httpPost).
Local Abbreviation onMeaning := (onMeaning httpPost).
Local Abbreviation importWord := (importWord httpGet httpPost).

(** The translate endpoint gives the same text for the same input on
    every request. *)
Local Abbreviation uniform f := (∀ n text, translation httpPost n text = f text).

Lemma exampleCount_cons d ds :
  exampleCount (d :: ds)
  = (length (default [] (ImportData.examples d)) + exampleCount ds)%nat.
Proof. unfold exampleCount. cbn [List.flat_map]. by rewrite length_app. Qed.

Lemma exampleCount_app ds ds' :
  exampleCount (ds ++ ds') = (exampleCount ds + exampleCount ds')%nat.
Proof. unfold exampleCount. by rewrite List.flat_map_app, length_app. Qed.

Lemma onDefinition_run pos acc sent def :
  ∃ d texts,
    onDefinition pos (acc, sent) def = (acc ++ [d], sent ++ texts)
    ∧ wellShaped d
    ∧ length texts = (1 + length (default [] (ImportData.examples d)))%nat
    ∧ ∀ f, uniform f → d = definitionFrom f pos def.
Proof.
  unfold ImportScript.onDefinition, translateToVietnamese, definitionFrom.
  cbn [fst snd].
  destruct (example def) as [ex|]; [destruct (JSString.truthy ex)|];
    cbn [fst snd]; rewrite <- ?app_assoc; eexists _, _;
    (split; [reflexivity|]); (split; [split; [done|]; eexists; split; [done|cbn; lia]|]);
    (split; [done|]); intros f Hf; by rewrite !Hf.
Qed.

Lemma definitions_run pos defs acc sent :
  ∃ ds texts,
    List.fold_left (onDefinition pos) defs (acc, sent) = (acc ++ ds, sent ++ texts)
    ∧ length ds = length defs
    ∧ Forall wellShaped ds
    ∧ length texts = (length ds + exampleCount ds)%nat
    ∧ ∀ f, uniform f → ds = List.map (definitionFrom f pos) defs.
Proof.
  revert acc sent. induction defs as [|def defs IH]; intros acc sent.
  { exists [], []. rewrite !app_nil_r. by repeat split. }
  destruct (onDefinition_run pos acc sent def) as (d & t1 & Hstep & Hshape & Hlen & Hd).
  destruct (IH (acc ++ [d]) (sent ++ t1)) as (ds & texts & Hrest & Hsame & Hshapes & Hcount & Hds).
  exists (d :: ds), (t1 ++ texts). cbn [List.fold_left]. rewrite Hstep, Hrest.
  split; [by rewrite <- !app_assoc|]. split; [cbn; by rewrite Hsame|].
  split; [by constructor|]. split.
  - rewrite length_app, exampleCount_cons, Hlen, Hcount. cbn [length]. lia.
  - intros f Hf. cbn [List.map]. by rewrite (Hd f Hf), (Hds f Hf).
Qed.

Lemma meanings_run ms acc sent :
  ∃ ds texts,
    List.fold_left onMeaning ms (acc, sent) = (acc ++ ds, sent ++ texts)
    ∧ (length ds ≤ 2 * length ms)%nat
    ∧ Forall wellShaped ds
    ∧ length texts = (length ds + exampleCount ds)%nat
    ∧ ∀ f, uniform f →
        ds = List.flat_map
               (fun m => List.map (definitionFrom f (partOfSpeech m))
                           (List.firstn 2 (definitions m))) ms.
Proof.
  revert acc sent. induction ms as [|m ms IH]; intros acc sent.
  { exists [], []. rewrite !app_nil_r. by repeat split. }
  destruct (definitions_run (partOfSpeech m) (List.firstn 2 (definitions m)) acc sent)
    as (d1 & t1 & Hstep & Hlen1 & Hshape1 & Hcount1 & Hd1).
  destruct (IH (acc ++ d1) (sent ++ t1)) as (ds & texts & Hrest & Hlen & Hshapes & Hcount & Hds).
  exists (d1 ++ ds), (t1 ++ texts). cbn [List.fold_left].
  unfold ImportScript.onMeaning at 2. rewrite Hstep, Hrest.
  split; [by rewrite <- !app_assoc|]. split.
  { rewrite length_app, Hlen1. pose proof (firstn_le_length 2 (definitions m)).
    cbn [length]. lia. }
  split; [by apply Forall_app|]. split.
  - rewrite !length_app, exampleCount_app, Hcount1, Hcount. lia.
  - intros f Hf. cbn [List.flat_map]. by rewrite (Hd1 f Hf), (Hds f Hf).
Qed.

Lemma phonetics_shaped phs acc :
  Forall pronunciationShaped acc →
  Forall pronunciationShaped (List.fold_left onPhonetic phs acc).
Proof.
  revert acc. induction phs as [|ph phs IH]; intros acc Hacc; [done|].
  cbn [List.fold_left]. apply IH. unfold onPhonetic.
  destruct (text ph) as [ipa|]; [|done].
  destruct (JSString.truthy ipa) eqn:Hipa; [|done].
  apply Forall_app. split; [done|]. constructor; [|constructor].
  split; [|split; [done|]]; cbn.
  - unfold accentOf. destruct (audio ph) as [url|]; [|by left].
    destruct (JSString.includes url "-us"); [by left|].
    destruct (JSString.includes url "-uk"); [by right|by left].
  - unfold JSString.orElse. destruct (audio ph) as [[|c url]|]; cbn; done.
Qed.

(** X18.  The payload the import script writes for a word.  It carries
    the word as given, its lowercase form as normalized key, the language
    [en] and the rank, and no word forms.  Every pronunciation has a
    non-empty IPA text, the accent [US] or [UK] and no empty audio URL;
    there are at most six definitions, each at level [intermediate] with at
    most one example; at most five synonyms; and the script has sent one
    translation request per definition and one per example. *)
Theorem importWord_payload (word : string) (rank : Z) (sent sent' : list string)
    (payload : ImportData.t) :
  importWord word rank sent = (Some payload, sent') →
  ImportData.word payload = word
  ∧ ImportData.word_normalized payload = Some (JSString.toLowerCase word)
  ∧ ImportData.language payload = Some "en"
  ∧ ImportData.frequency_rank payload = Some rank
  ∧ ImportData.word_forms payload = None
  ∧ ∃ pronunciations definitions synonyms,
      ImportData.pronunciations payload = Some pronunciations
      ∧ ImportData.definitions payload = Some definitions
      ∧ ImportData.synonyms payload = Some synonyms
      ∧ Forall pronunciationShaped pronunciations
      ∧ (length definitions ≤ 6)%nat
      ∧ Forall wellShaped definitions
      ∧ (length synonyms ≤ 5)%nat
      ∧ length sent'
        = (length sent + length definitions + exampleCount definitions)%nat.
Proof.
  unfold ImportScript.importWord.
  destruct (fetchWordData httpGet word) as [wordData|]; [|done].
  destruct (meanings_run (List.firstn 3 (meanings wordData)) [] sent)
    as (ds & texts & Hrun & Hlen & Hshapes & Hcount & _).
  rewrite Hrun. cbn [fst snd app]. intros [= <- <-]. cbn.
  repeat (split; [done|]). eexists _, _, _. repeat (split; [done|]).
  split; [by apply phonetics_shaped|]. split.
  { pose proof (firstn_le_length 3 (meanings wordData)). lia. }
  split; [done|]. split.
  - unfold synonymsOf. destruct (meanings wordData) as [|m ?]; [cbn; lia|].
    destruct (definitions m) as [|def ?]; [cbn; lia|].
    destruct (synonyms def); [apply firstn_le_length|cbn; lia].
  - rewrite length_app, Hcount. lia.
Qed.

(** X19.  The Vietnamese texts of the payload.  If the translate endpoint
    gives the text [f text] for [text] on every request, the payload's
    definitions are those of the first three meanings, two of each at
    most, in order, each with [f] of its English text and, if it has a
    non-empty example, that example with [f] of it.  When the endpoint is
    down, [f] is the identity: the Vietnamese fields hold the English
    text. *)
Theorem importWord_translations (f : string → string) (word : string) (rank : Z)
    (sent sent' : list string) (payload : ImportData.t) :
  (∀ n text, translation httpPost n text = f text) →
  importWord word rank sent = (Some payload, sent') →
  ∃ wordData,
    fetchWordData httpGet word = Some wordData
    ∧ ImportData.definitions payload
      = Some (List.flat_map
                (fun m => List.map (definitionFrom f (partOfSpeech m))
                            (List.firstn 2 (definitions m)))
                (List.firstn 3 (meanings wordData))).
Proof.
  intros Hf. unfold ImportScript.importWord.
  destruct (fetchWordData httpGet word) as [wordData|]; [|done].
  destruct (meanings_run (List.firstn 3 (meanings wordData)) [] sent)
    as (ds & texts & Hrun & _ & _ & _ & Hds).
  rewrite Hrun. cbn [fst snd app]. intros [= <- <-]. cbn.
  exists wordData. split; [done|]. by rewrite (Hds f Hf).
Qed.

End ScriptPayload.

Lemma importWord_payload_witness :
  ∃ payload sent',
    ImportScript.importWord Fixture.getLight Fixture.translateDown "light" 7 []
    = (Some payload, sent')
    ∧ ImportData.frequency_rank payload = Some 7
    ∧ (∃ definitions,
         ImportData.definitions payload = Some definitions
         ∧ length definitions = 3%nat
         ∧ length sent' = 4%nat)
    ∧ ImportData.synonyms payload = Some ["glow"; "beam"; "ray"; "shine"; "gleam"]
    ∧ List.map ImportData.accent (default [] (ImportData.pronunciations payload))
      = ["UK"; "US"].
Proof.
  eexists _, _. split; [vm_compute; reflexivity|].
  pose proof (importWord_payload Fixture.getLight Fixture.translateDown "light" 7 []
                _ _ eq_refl) as (_ & _ & _ & Hrank & _).
  split; [exact Hrank|]. split; [eexists; split; [reflexivity|by vm_compute]|].
  split; reflexivity.
Defined.

Lemma importWord_translations_witness :
  ∃ payload sent',
    ImportScript.importWord Fixture.getLight Fixture.translateDown "light" 7 []
    = (Some payload, sent')
    ∧ List.map
        (fun d => (ImportData.definition_en d, ImportData.definition_vi d))
        (default [] (ImportData.definitions payload))
      = [("visible radiation", "visible radiation"); ("a lamp", "a lamp");
         ("not heavy", "not heavy")].
Proof.
  eexists _, _. split; [vm_compute; reflexivity|].
  destruct (importWord_translations Fixture.getLight Fixture.translateDown
              (fun text => text) "light" 7 [] _ _ (fun _ _ => eq_refl) eq_refl)
    as (wordData & Hfetch & Hdefs).
  vm_compute in Hfetch. injection Hfetch as <-.
  exact (f_equal
           (fun o => List.map
                       (fun d => (ImportData.definition_en d, ImportData.definition_vi d))
                       (default [] o)) Hdefs).
Defined.
